(** * soosa: the audio playback engine

    A shallow embedding of the playback engine of the soosa bot
    (package [player]): the PCM volume scaler, the RIFF/WAVE header
    parser, the per-guild [Player] and the [Manager] registry, together
    with the properties the design document states about them. *)

From Stdlib Require Import ZArith Floats Lia.
From Stdlib Require Import Strings.String Strings.Byte.
From stdpp Require Import gmap strings list.

Local Open Scope Z_scope.

(** ** Bytes and little-endian words ([encoding/binary]) *)

Module Bytes.

Definition Z_of_byte (b : byte) : Z := Z.of_N (Byte.to_N b).

Definition byte_of_Z (z : Z) : byte :=
    default Byte.x00 (Byte.of_N (Z.to_N (z mod 256))).

  (** [binary.LittleEndian.Uint16] on the two bytes of a slice. *)
Definition Uint16 (b0 b1 : byte) : Z :=
    Z.lor (Z_of_byte b0) (Z.shiftl (Z_of_byte b1) 8).

  (** [binary.LittleEndian.PutUint16]: the two bytes written. *)
Definition PutUint16 (v : Z) : byte * byte :=
    (byte_of_Z v, byte_of_Z (Z.shiftr v 8)).

  (** [binary.LittleEndian.Uint32] on the four bytes of a slice. *)
Definition Uint32 (b0 b1 b2 b3 : byte) : Z :=
    Z.lor (Z.lor (Z_of_byte b0) (Z.shiftl (Z_of_byte b1) 8))
          (Z.lor (Z.shiftl (Z_of_byte b2) 16) (Z.shiftl (Z_of_byte b3) 24)).

  (** The conversion [int16(u)] of a [uint16] and [uint16(s)] of an
      [int16]: the same 16 bits, read as two's complement. *)
Definition int16 (u : Z) : Z := (u + 32768) mod 65536 - 32768.
Definition uint16 (s : Z) : Z := s mod 65536.

Definition is_int16 (s : Z) : Prop := -32768 <= s <= 32767.

  (** Byte [i] of a slice; reading past the end panics in Go and is
      never reached by the code below, here it yields zero. *)
Definition at_ (p : list byte) (i : nat) : byte := default Byte.x00 (p !! i).

#[global] Instance byte_eq_dec : EqDecision byte.
  Proof.
    intros a b. destruct (decide (Byte.to_N a = Byte.to_N b)) as [He|Hne].
    - left. pose proof (Byte.of_to_N a) as Ha. pose proof (Byte.of_to_N b) as Hb.
      congruence.
    - right. intros ->. apply Hne. reflexivity.
  Defined.

End Bytes.

Import Bytes.

(** ** float64 as used by the scaler *)

Module F64.

  (** [float64(sample)] for an [int16] sample: exact. *)
Definition of_int16 (s : Z) : float :=
    if s <? 0 then PrimFloat.opp (PrimFloat.of_uint63 (Uint63.of_Z (- s)))
    else PrimFloat.of_uint63 (Uint63.of_Z s).

  (** Truncation toward zero of a finite float. *)
Definition SFtrunc (x : spec_float) : option Z :=
    match x with
    | S754_zero _ => Some 0
    | S754_finite s m e =>
        let v := if 0 <=? e then Z.pos m * 2 ^ e else Z.pos m / 2 ^ (- e) in
        Some (if s then - v else v)
    | _ => None
    end.

  (** [math.Max(0, x)]: NaN stays NaN, positive values (and +Inf) stay,
      everything else, including both zeros, is +0. *)
Definition Max0 (x : float) : float :=
    if negb (PrimFloat.eqb x x) then x
    else if PrimFloat.ltb 0%float x then x else 0%float.

Definition finite_nonneg (f : float) : Prop :=
    PrimFloat.leb 0%float f = true /\ PrimFloat.ltb f infinity = true.

  Section Conversion.
    (** Go leaves the result of converting a float that the integer
        type cannot represent (NaN, or out of range) to the
        implementation; it is a parameter of the model. *)
    Variable unrepresentable : float -> Z.

    (** The conversion [int16(x)] of a [float64]. *)
Definition to_int16 (x : float) : Z :=
      match SFtrunc (Prim2SF x) with
      | Some z => if (-32768 <=? z) && (z <=? 32767) then z else unrepresentable x
      | None => unrepresentable x
      end.
  End Conversion.

End F64.

(** ** The volume scaler ([PCMVolume]) *)

Inductive error : Type :=
  | EOF
  | ErrUnexpectedEOF
  | ErrMsg (msg : string).

(** [io.Reader]: a call with a buffer of [cap] bytes yields the bytes
    written at the front of the buffer, at most [cap] of them, and an
    optional error. *)
Class Reader (R : Type) := {
  rd_read : R -> nat -> list byte * option error * R;
  rd_bound : forall r cap, (length (rd_read r cap).1.1 <= cap)%nat
}.

Module Volume.

Record PCMVolume (R : Type) := mkPCMVolume {
    src : R;
    volume : float;
    leftover : list byte
  }.
  Arguments mkPCMVolume {R}.
  Arguments src {R}.
  Arguments volume {R}.
  Arguments leftover {R}.

Definition NewPCMVolume {R} (r : R) : PCMVolume R :=
    mkPCMVolume r 1%float [].

Definition SetVolume {R} (v : PCMVolume R) (vol : float) : PCMVolume R :=
    mkPCMVolume (src v) (F64.Max0 vol) (leftover v).

  Section Read.
    Variable unrepresentable : float -> Z.
    Context {R : Type} `{Reader R}.

    (** The body of the sample loop: one int16 sample scaled by [vol]. *)
Definition scale_sample (vol : float) (sample : Z) : Z :=
      let scaled := PrimFloat.mul (F64.of_int16 sample) vol in
      let scaled :=
        if PrimFloat.ltb 32767%float scaled then 32767%float
        else if PrimFloat.ltb scaled (-32768)%float then (-32768)%float
        else scaled in
      F64.to_int16 unrepresentable scaled.

    (** [for i := 0; i+1 < n; i += 2 { ... }] over the buffer [p]. *)
Fixpoint scale_loop (fuel : nat) (vol : float) (n i : nat) (p : list byte)
      : list byte :=
      match fuel with
      | O => p
      | S fuel =>
          if decide (i + 1 < n)%nat then
            let sample := int16 (Uint16 (at_ p i) (at_ p (i + 1))) in
            let '(b0, b1) := PutUint16 (uint16 (scale_sample vol sample)) in
            scale_loop fuel vol n (i + 2) (<[(i + 1)%nat := b1]> (<[i := b0]> p))
          else p
      end.

    (** The float64 nearest to the constant [0.001]. *)
Definition threshold : float := 0x1.0624dd2f1a9fcp-10%float.

    (** [math.Abs(vol-1.0) > 0.001] *)
Definition must_scale (vol : float) : bool :=
      PrimFloat.ltb threshold (PrimFloat.abs (PrimFloat.sub vol 1%float)).

    (** Steps 2 and 3 of [Read]: read from the source behind the
        [startIdx] bytes already placed, hide an unpaired last byte,
        scale the pairs. [n] is the count so far. *)
Definition read_rest (v : PCMVolume R) (p : list byte) (startIdx n : nat)
      : PCMVolume R * list byte * (nat * option error) :=
      let '(data, err, r') := rd_read (src v) (length p - startIdx) in
      let p := take startIdx p ++ data ++ drop (startIdx + length data) p in
      let n := (n + length data)%nat in
      if decide (0 < n)%nat then
        let '(lo, n) :=
          if decide (n mod 2 <> 0)%nat
          then ([at_ p (n - 1)], (n - 1)%nat)
          else (leftover v, n) in
        let vol := volume v in
        let p := if must_scale vol then scale_loop n vol n 0 p else p in
        (mkPCMVolume r' vol lo, p, (n, err))
      else (mkPCMVolume r' (volume v) (leftover v), p, (n, err)).

    (** [func (v *PCMVolume) Read(p []byte) (n int, err error)]: the new
        scaler, the buffer after the call, and the results. *)
Definition Read (v : PCMVolume R) (p : list byte)
      : PCMVolume R * list byte * (nat * option error) :=
      if decide (length p = 0%nat) then (v, p, (0%nat, None))
      else
        match leftover v with
        | b :: _ =>
            let p := <[0%nat := b]> p in
            let v := mkPCMVolume (src v) (volume v) [] in
            if decide (length p = 1%nat) then (v, p, (1%nat, None))
            else read_rest v p 1 1
        | [] => read_rest v p 0 0
        end.

    (** What the caller of [Read] sees: the first [n] bytes of [p]. *)
Definition delivered (res : PCMVolume R * list byte * (nat * option error))
      : list byte :=
      take res.2.1 res.1.2.

  End Read.

End Volume.

(** ** The scaler's contract, at the level of samples

    These definitions follow the words of the design document, not the
    code: a buffer is a sequence of int16 samples, and a scaled sample is
    the product clamped to the int16 range and made an integer. *)

Module VolumeSpec.

  (** The int16 samples of a little-endian byte buffer. *)
Fixpoint samples (bs : list byte) : list Z :=
    match bs with
    | b0 :: b1 :: rest => int16 (Uint16 b0 b1) :: samples rest
    | _ => []
    end.

Definition clamp16 (z : Z) : Z := Z.max (-32768) (Z.min 32767 z).

  (** A float clamped to [-32768, 32767] and truncated toward zero; an
      infinite value clamps to the bound on its side, NaN has no value. *)
Definition clamp_trunc (x : spec_float) : option Z :=
    match x with
    | S754_infinity s => Some (if s then -32768 else 32767)
    | _ => clamp16 <$> F64.SFtrunc x
    end.

  (** The float64 product [input * f], clamped and truncated. *)
Definition scaled (f : float) (input : Z) : option Z :=
    clamp_trunc (Prim2SF (PrimFloat.mul (F64.of_int16 input) f)).

  (** Rounding to the nearest integer, halves away from zero
      ([math.Round]), of a finite float. *)
Definition SFround (x : spec_float) : option Z :=
    match x with
    | S754_zero _ => Some 0
    | S754_finite s m e =>
        let v := if 0 <=? e then Z.pos m * 2 ^ e
                 else (2 * Z.pos m + 2 ^ (- e)) / (2 * 2 ^ (- e)) in
        Some (if s then - v else v)
    | _ => None
    end.

  (** [clamp(round(input*f), -32768, 32767)], the contract as the
      design document words it. *)
Definition rounded (f : float) (input : Z) : option Z :=
    clamp16 <$> SFround (Prim2SF (PrimFloat.mul (F64.of_int16 input) f)).

End VolumeSpec.

(** A source for examples: it hands out scripted chunks, splitting a
    chunk that does not fit the caller's buffer, and reports [EOF] once
    the script is used up. *)
Module ScriptReader.

Definition t : Type := list (list byte * option error).

Definition read (s : t) (cap : nat) : list byte * option error * t :=
    match s with
    | [] => ([], Some EOF, [])
    | (d, e) :: rest =>
        if decide (length d <= cap)%nat then (d, e, rest)
        else (take cap d, None, (drop cap d, e) :: rest)
    end.

#[global] Instance reader : Reader t.
  Proof.
    refine {| rd_read := read |}.
    intros s cap. destruct s as [|[d e] rest]; simpl; [lia|].
    case_decide; simpl; [done|]. rewrite length_take. lia.
  Defined.

End ScriptReader.

(** ** The RIFF/WAVE header parser ([ReadWavHeader]) *)

Module Wav.

Record WavHeader := mkWavHeader {
    AudioFormat : Z;
    NumChannels : Z;
    SampleRate : Z;
    ByteRate : Z;
    BlockAlign : Z;
    BitsPerSample : Z
  }.

  (** The failures of the parser, one per place where it returns an
      error: a read that the stream cannot satisfy, and the five
      [fmt.Errorf] sites. *)
Inductive WavError : Type :=
    | ErrIO (e : error)
    | ErrMissingRIFF
    | ErrMissingWAVE
    | ErrFmtSize (size : Z)
    | ErrDataBeforeFmt
    | ErrUnsupported (format : Z)
    | ErrSkip (chunkID : list byte).

Definition tag_RIFF : list byte := list_byte_of_string "RIFF".
Definition tag_WAVE : list byte := list_byte_of_string "WAVE".
Definition tag_fmt : list byte := list_byte_of_string "fmt ".
Definition tag_data : list byte := list_byte_of_string "data".

  (** The body is read as a forward-only stream of bytes: what is left
      of it. [io.ReadFull] with a buffer of [n] bytes either fills it or
      fails, with [EOF] when nothing was left and [ErrUnexpectedEOF]
      when the stream ended part-way. *)
Definition short_error (s : list byte) : error :=
    match s with [] => EOF | _ => ErrUnexpectedEOF end.

Definition ReadFull (s : list byte) (n : nat) : error + list byte * list byte :=
    if decide (n <= length s)%nat then inr (take n s, drop n s)
    else inl (short_error s).

  (** [io.CopyN(io.Discard, r, n)]: whether all [n] bytes were there,
      and the stream afterwards. *)
Definition CopyN_Discard (s : list byte) (n : nat) : bool * list byte :=
    (bool_decide (n <= length s)%nat, drop n s).

  (** [binary.LittleEndian.Uint16(b[i:i+2])] and [Uint32(b[i:i+4])]. *)
Definition le16 (b : list byte) (i : nat) : Z :=
    Uint16 (at_ b i) (at_ b (i + 1)).
Definition le32 (b : list byte) (i : nat) : Z :=
    Uint32 (at_ b i) (at_ b (i + 1)) (at_ b (i + 2)) (at_ b (i + 3)).

Definition parse_fmt (fmtData : list byte) : WavHeader :=
    mkWavHeader (le16 fmtData 0) (le16 fmtData 2) (le32 fmtData 4)
                (le32 fmtData 8) (le16 fmtData 12) (le16 fmtData 14).

Definition result : Type := WavError + WavHeader * list byte.

  (** The chunk loop. Every turn consumes at least the eight bytes of
      a chunk header, so as many turns as the stream has bytes are
      enough; [None] stands for a loop cut short by [fuel]. *)
Fixpoint chunks (fuel : nat) (h : WavHeader) (foundFmt : bool) (s : list byte)
    : option result :=
    match fuel with
    | O => None
    | S fuel =>
        match ReadFull s 8 with
        | inl e => Some (inl (ErrIO e))
        | inr (chunkHeader, s) =>
            let chunkID := take 4 chunkHeader in
            let chunkSize := le32 chunkHeader 4 in
            let pad (s : list byte) :=
              if decide (chunkSize mod 2 <> 0) then (CopyN_Discard s 1).2 else s in
            if decide (chunkID = tag_fmt) then
              if decide (chunkSize < 16) then Some (inl (ErrFmtSize chunkSize))
              else
                match ReadFull s (Z.to_nat chunkSize) with
                | inl e => Some (inl (ErrIO e))
                | inr (fmtData, s) => chunks fuel (parse_fmt fmtData) true (pad s)
                end
            else if decide (chunkID = tag_data) then
              if negb foundFmt then Some (inl ErrDataBeforeFmt)
              else if decide (AudioFormat h <> 1 /\ AudioFormat h <> 65534)
                   then Some (inl (ErrUnsupported (AudioFormat h)))
                   else Some (inr (h, s))
            else
              match CopyN_Discard s (Z.to_nat chunkSize) with
              | (false, _) => Some (inl (ErrSkip chunkID))
              | (true, s) => chunks fuel h foundFmt (pad s)
              end
        end
    end.

  (** [func ReadWavHeader(r io.Reader)]: the header together with the
      stream left for the caller, or the error. *)
Definition ReadWavHeader (s : list byte) : option result :=
    match ReadFull s 12 with
    | inl e => Some (inl (ErrIO e))
    | inr (riffHeader, s) =>
        if decide (take 4 riffHeader <> tag_RIFF) then Some (inl ErrMissingRIFF)
        else if decide (take 4 (drop 8 riffHeader) <> tag_WAVE) then Some (inl ErrMissingWAVE)
        else chunks (S (length s)) (mkWavHeader 0 0 0 0 0 0) false s
    end.

End Wav.

(** ** The header format, as the design document describes it

    A relation written from the document's description of the chunk
    walk, with one rule per outcome, to compare the parser with. *)

Module WavSpec.

  Import Wav.

  (** The padding byte after a chunk of odd size. *)
Definition after_pad (size : Z) (s : list byte) : list byte :=
    if decide (size mod 2 <> 0) then drop 1 s else s.

Definition supported (format : Z) : Prop := format = 1 \/ format = 65534.

  (** [Scan h seen s r]: walking the chunks of [s], with the format
      [h] of the last format chunk when [seen], ends in [r]. *)
Inductive Scan : WavHeader -> bool -> list byte -> result -> Prop :=
    | Scan_header_short h seen s :
        (length s < 8)%nat ->
        Scan h seen s (inl (ErrIO (short_error s)))
    | Scan_fmt_small h seen hd s :
        length hd = 8%nat -> take 4 hd = tag_fmt -> le32 hd 4 < 16 ->
        Scan h seen (hd ++ s) (inl (ErrFmtSize (le32 hd 4)))
    | Scan_fmt_short h seen hd s :
        length hd = 8%nat -> take 4 hd = tag_fmt -> 16 <= le32 hd 4 ->
        (length s < Z.to_nat (le32 hd 4))%nat ->
        Scan h seen (hd ++ s) (inl (ErrIO (short_error s)))
    | Scan_fmt h seen hd payload s r :
        length hd = 8%nat -> take 4 hd = tag_fmt -> 16 <= le32 hd 4 ->
        length payload = Z.to_nat (le32 hd 4) ->
        Scan (parse_fmt payload) true (after_pad (le32 hd 4) s) r ->
        Scan h seen (hd ++ payload ++ s) r
    | Scan_data_early h hd s :
        length hd = 8%nat -> take 4 hd = tag_data ->
        Scan h false (hd ++ s) (inl ErrDataBeforeFmt)
    | Scan_data_unsupported h hd s :
        length hd = 8%nat -> take 4 hd = tag_data ->
        ~ supported (AudioFormat h) ->
        Scan h true (hd ++ s) (inl (ErrUnsupported (AudioFormat h)))
    | Scan_data h hd s :
        length hd = 8%nat -> take 4 hd = tag_data ->
        supported (AudioFormat h) ->
        Scan h true (hd ++ s) (inr (h, s))
    | Scan_skip_short h seen hd s :
        length hd = 8%nat -> take 4 hd <> tag_fmt -> take 4 hd <> tag_data ->
        (length s < Z.to_nat (le32 hd 4))%nat ->
        Scan h seen (hd ++ s) (inl (ErrSkip (take 4 hd)))
    | Scan_skip h seen hd payload s r :
        length hd = 8%nat -> take 4 hd <> tag_fmt -> take 4 hd <> tag_data ->
        length payload = Z.to_nat (le32 hd 4) ->
        Scan h seen (after_pad (le32 hd 4) s) r ->
        Scan h seen (hd ++ payload ++ s) r.

  (** [Parse s r]: the prologue, then the chunks. *)
Inductive Parse : list byte -> result -> Prop :=
    | Parse_prologue_short s :
        (length s < 12)%nat -> Parse s (inl (ErrIO (short_error s)))
    | Parse_missing_RIFF riff s :
        length riff = 12%nat -> take 4 riff <> tag_RIFF ->
        Parse (riff ++ s) (inl ErrMissingRIFF)
    | Parse_missing_WAVE riff s :
        length riff = 12%nat -> take 4 riff = tag_RIFF ->
        take 4 (drop 8 riff) <> tag_WAVE ->
        Parse (riff ++ s) (inl ErrMissingWAVE)
    | Parse_chunks riff s r :
        length riff = 12%nat -> take 4 riff = tag_RIFF ->
        take 4 (drop 8 riff) = tag_WAVE ->
        Scan (mkWavHeader 0 0 0 0 0 0) false s r ->
        Parse (riff ++ s) r.

  (** A chunk as it lies in the stream: tag, size field, payload and
      the padding after it. *)
Record Chunk := mkChunk {
    tag : list byte;
    size_field : list byte;
    payload : list byte;
    padding : list byte
  }.

Definition encode (c : Chunk) : list byte :=
    tag c ++ size_field c ++ payload c ++ padding c.

Definition declared_size (c : Chunk) : Z :=
    Uint32 (at_ (size_field c) 0) (at_ (size_field c) 1)
           (at_ (size_field c) 2) (at_ (size_field c) 3).

  (** Well-formed: a four-byte tag, a four-byte size that is the
      length of the payload, and one padding byte exactly when that
      size is odd. *)
Definition well_formed (c : Chunk) : Prop :=
    length (tag c) = 4%nat /\ length (size_field c) = 4%nat
    /\ declared_size c = Z.of_nat (length (payload c))
    /\ length (padding c) = (length (payload c) mod 2)%nat.

Definition ignorable (c : Chunk) : Prop :=
    well_formed c /\ tag c <> tag_fmt /\ tag c <> tag_data.

  (** The value [v] laid out in [n] bytes, the least significant one
      first: written with remainders and quotients, not with the
      decoder the parser uses. *)
Fixpoint le_bytes (n : nat) (v : Z) : list byte :=
    match n with
    | O => []
    | S n => byte_of_Z (v mod 256) :: le_bytes n (v / 256)
    end.

  (** The sixteen bytes a format chunk begins with when it describes
      [h]: the format code, the channels, the sample rate, the byte
      rate, the block alignment and the bits per sample, in 2, 2, 4, 4,
      2 and 2 bytes. *)
Definition fmt_fields (h : WavHeader) : list byte :=
    le_bytes 2 (AudioFormat h) ++ le_bytes 2 (NumChannels h)
      ++ le_bytes 4 (SampleRate h) ++ le_bytes 4 (ByteRate h)
      ++ le_bytes 2 (BlockAlign h) ++ le_bytes 2 (BitsPerSample h).

  (** Each value fits its field. *)
Definition fits (h : WavHeader) : Prop :=
    0 <= AudioFormat h < 65536 /\ 0 <= NumChannels h < 65536
    /\ 0 <= SampleRate h < 4294967296 /\ 0 <= ByteRate h < 4294967296
    /\ 0 <= BlockAlign h < 65536 /\ 0 <= BitsPerSample h < 65536.

End WavSpec.

(** ** The player: state and the operations that run under its lock *)

Module Player.

  (** [subsonic.Song] *)
Record Song := mkSong {
    ID : string;
    Title : string;
    Album : string;
    Artist : string;
    Duration : Z;
    CoverArt : string;
    Year : Z;
    Genre : string;
    Track : Z;
    BitRate : Z;
    Suffix : string
  }.

  (** The [Player] struct. A channel of [struct{}] that is only ever
      closed is its closed flag; the volume channel, of capacity one,
      is whether its slot is taken; the voice connection and the
      encoder and stream sessions are handles. *)
Record Player := mkPlayer {
    GuildID : string;
    VoiceConn : option nat;
    Queue : list Song;
    NowPlaying : option Song;
    IsPlaying : bool;
    IsPaused : bool;
    Volume : Z;
    History : list Song;
    LastMsgID : string;
    LastChannelID : string;
    stopChan : bool;
    skipChan : bool;
    volumeChangeChan : bool;
    done : bool;
    encoding : option nat;
    stream : option nat
  }.

Definition set_GuildID (x : string) (p : Player) : Player :=
    mkPlayer x (VoiceConn p) (Queue p) (NowPlaying p) (IsPlaying p) (IsPaused p) (Volume p) (History p) (LastMsgID p) (LastChannelID p) (stopChan p) (skipChan p) (volumeChangeChan p) (done p) (encoding p) (stream p).
Definition set_VoiceConn (x : option nat) (p : Player) : Player :=
    mkPlayer (GuildID p) x (Queue p) (NowPlaying p) (IsPlaying p) (IsPaused p) (Volume p) (History p) (LastMsgID p) (LastChannelID p) (stopChan p) (skipChan p) (volumeChangeChan p) (done p) (encoding p) (stream p).
Definition set_Queue (x : list Song) (p : Player) : Player :=
    mkPlayer (GuildID p) (VoiceConn p) x (NowPlaying p) (IsPlaying p) (IsPaused p) (Volume p) (History p) (LastMsgID p) (LastChannelID p) (stopChan p) (skipChan p) (volumeChangeChan p) (done p) (encoding p) (stream p).
Definition set_NowPlaying (x : option Song) (p : Player) : Player :=
    mkPlayer (GuildID p) (VoiceConn p) (Queue p) x (IsPlaying p) (IsPaused p) (Volume p) (History p) (LastMsgID p) (LastChannelID p) (stopChan p) (skipChan p) (volumeChangeChan p) (done p) (encoding p) (stream p).
Definition set_IsPlaying (x : bool) (p : Player) : Player :=
    mkPlayer (GuildID p) (VoiceConn p) (Queue p) (NowPlaying p) x (IsPaused p) (Volume p) (History p) (LastMsgID p) (LastChannelID p) (stopChan p) (skipChan p) (volumeChangeChan p) (done p) (encoding p) (stream p).
Definition set_IsPaused (x : bool) (p : Player) : Player :=
    mkPlayer (GuildID p) (VoiceConn p) (Queue p) (NowPlaying p) (IsPlaying p) x (Volume p) (History p) (LastMsgID p) (LastChannelID p) (stopChan p) (skipChan p) (volumeChangeChan p) (done p) (encoding p) (stream p).
Definition set_Volume (x : Z) (p : Player) : Player :=
    mkPlayer (GuildID p) (VoiceConn p) (Queue p) (NowPlaying p) (IsPlaying p) (IsPaused p) x (History p) (LastMsgID p) (LastChannelID p) (stopChan p) (skipChan p) (volumeChangeChan p) (done p) (encoding p) (stream p).
Definition set_History (x : list Song) (p : Player) : Player :=
    mkPlayer (GuildID p) (VoiceConn p) (Queue p) (NowPlaying p) (IsPlaying p) (IsPaused p) (Volume p) x (LastMsgID p) (LastChannelID p) (stopChan p) (skipChan p) (volumeChangeChan p) (done p) (encoding p) (stream p).
Definition set_LastMsgID (x : string) (p : Player) : Player :=
    mkPlayer (GuildID p) (VoiceConn p) (Queue p) (NowPlaying p) (IsPlaying p) (IsPaused p) (Volume p) (History p) x (LastChannelID p) (stopChan p) (skipChan p) (volumeChangeChan p) (done p) (encoding p) (stream p).
Definition set_LastChannelID (x : string) (p : Player) : Player :=
    mkPlayer (GuildID p) (VoiceConn p) (Queue p) (NowPlaying p) (IsPlaying p) (IsPaused p) (Volume p) (History p) (LastMsgID p) x (stopChan p) (skipChan p) (volumeChangeChan p) (done p) (encoding p) (stream p).
Definition set_stopChan (x : bool) (p : Player) : Player :=
    mkPlayer (GuildID p) (VoiceConn p) (Queue p) (NowPlaying p) (IsPlaying p) (IsPaused p) (Volume p) (History p) (LastMsgID p) (LastChannelID p) x (skipChan p) (volumeChangeChan p) (done p) (encoding p) (stream p).
Definition set_skipChan (x : bool) (p : Player) : Player :=
    mkPlayer (GuildID p) (VoiceConn p) (Queue p) (NowPlaying p) (IsPlaying p) (IsPaused p) (Volume p) (History p) (LastMsgID p) (LastChannelID p) (stopChan p) x (volumeChangeChan p) (done p) (encoding p) (stream p).
Definition set_volumeChangeChan (x : bool) (p : Player) : Player :=
    mkPlayer (GuildID p) (VoiceConn p) (Queue p) (NowPlaying p) (IsPlaying p) (IsPaused p) (Volume p) (History p) (LastMsgID p) (LastChannelID p) (stopChan p) (skipChan p) x (done p) (encoding p) (stream p).
Definition set_done (x : bool) (p : Player) : Player :=
    mkPlayer (GuildID p) (VoiceConn p) (Queue p) (NowPlaying p) (IsPlaying p) (IsPaused p) (Volume p) (History p) (LastMsgID p) (LastChannelID p) (stopChan p) (skipChan p) (volumeChangeChan p) x (encoding p) (stream p).
Definition set_encoding (x : option nat) (p : Player) : Player :=
    mkPlayer (GuildID p) (VoiceConn p) (Queue p) (NowPlaying p) (IsPlaying p) (IsPaused p) (Volume p) (History p) (LastMsgID p) (LastChannelID p) (stopChan p) (skipChan p) (volumeChangeChan p) (done p) x (stream p).
Definition set_stream (x : option nat) (p : Player) : Player :=
    mkPlayer (GuildID p) (VoiceConn p) (Queue p) (NowPlaying p) (IsPlaying p) (IsPaused p) (Volume p) (History p) (LastMsgID p) (LastChannelID p) (stopChan p) (skipChan p) (volumeChangeChan p) (done p) (encoding p) x.

  (** [NewPlayer]: the volume is the configured default, all channels
      are open and empty. *)
Definition NewPlayer (guildID : string) (defaultVolume : Z) : Player :=
    mkPlayer guildID None [] None false false defaultVolume [] "" ""
             false false false false None None.

Definition SetLastMessage (msgID channelID : string) (p : Player) : Player :=
    set_LastChannelID channelID (set_LastMsgID msgID p).

Definition Enqueue (song : Song) (p : Player) : Player :=
    set_Queue (Queue p ++ [song]) p.

  (** [GetQueue] returns a copy. *)
Definition GetQueue (p : Player) : list Song := Queue p.

Definition dequeue (p : Player) : option Song * Player :=
    match Queue p with
    | [] => (None, p)
    | song :: rest => (Some song, set_Queue rest p)
    end.

  (** [select { case <-p.skipChan: default: close(p.skipChan) }] under
      the lock. *)
Definition Skip (p : Player) : Player :=
    if skipChan p then p else set_skipChan true p.

Definition PlayPrevious (p : Player) : Player :=
    match last (History p) with
    | None => p
    | Some prevSong =>
        let p := set_History (take (length (History p) - 1) (History p)) p in
        let p := match NowPlaying p with
                 | Some now => set_Queue ([now] ++ Queue p) p
                 | None => p
                 end in
        let p := set_Queue ([prevSong] ++ Queue p) p in
        Skip p
    end.

  (** [SetVolume]: clamp, store, then a send on the volume channel
      that is dropped when the slot is taken. *)
Definition SetVolume (vol : Z) (p : Player) : Player :=
    let vol := if vol <? 0 then 0 else vol in
    let vol := if 256 <? vol then 256 else vol in
    let p := set_Volume vol p in
    if volumeChangeChan p then p else set_volumeChangeChan true p.

  (** The part of [Pause] and [Resume] that touches the player. *)
Definition Pause (p : Player) : Player := set_IsPaused true p.
Definition Resume (p : Player) : Player := set_IsPaused false p.

  (** What [playLoop] does with a song once [streamSong] is back: the
      song joins the history, of at most 50 entries; the skip channel
      is made anew and the volume channel drained. *)
Definition song_finished (song : Song) (p : Player) : Player :=
    let hist := History p ++ [song] in
    let hist := if decide (50 < length hist)%nat then drop 1 hist else hist in
    set_volumeChangeChan false (set_skipChan false (set_History hist p)).

  (** [FormatDuration]: the minutes and the seconds that are printed. *)
Definition FormatDuration_parts (seconds : Z) : Z * Z :=
    (Z.quot seconds 60, Z.rem seconds 60).

End Player.

(** ** The manager: the registry of players *)

Module Manager.

  (** Players are shared objects: the registry holds their handles.
      [next] is the handle the next [NewPlayer] gets. *)
Record Manager := mkManager {
    players : gmap string nat;
    next : nat
  }.

Definition NewManager : Manager := mkManager ∅ 0.

Definition GetPlayer (guildID : string) (m : Manager) : option nat :=
    players m !! guildID.

Definition GetOrCreatePlayer (guildID : string) (m : Manager) : nat * Manager :=
    match players m !! guildID with
    | Some p => (p, m)
    | None => (next m, mkManager (<[guildID := next m]> (players m)) (S (next m)))
    end.

  (** [Remove]: the registry afterwards, and the player whose [Stop]
      is then called, outside the lock, if there was one. *)
Definition Remove (guildID : string) (m : Manager) : Manager * option nat :=
    match players m !! guildID with
    | Some p => (mkManager (delete guildID (players m)) (next m), Some p)
    | None => (m, None)
    end.

  (** [Shutdown]: the registry afterwards, and the players for which
      a [go p.Stop()] was started, in the order of the map's
      iteration. Nothing is waited for. *)
Definition Shutdown (m : Manager) : Manager * list nat :=
    (m, (map_to_list (players m)).*2).

End Manager.

(** ** One song: [streamSong], its exit paths and its deferred calls *)

Module Stream.

  Import Player.

  (** What the subroutine does to the outside, in order. *)
Inductive Action : Type :=
    | Speaking (on : bool)
    | Get
    | BodyClose
    | ParseHeader
    | StartPump
    | Encode
    | Cleanup
    | ScalerSetVolume (vol : Z)
    | MakeStream.

  (** What wakes the control loop's [select]. *)
Inductive Event : Type :=
    | EvStop
    | EvSkip
    | EvVolume
    | EvDone (err : option error).

  (** The calls made once the encoder session exists, any of which
      may panic: [Speaking(true)], the scaler's [SetVolume] before the
      loop, [NewStream], the scaler's [SetVolume] in the loop,
      [encodingSession.Cleanup()] in [cleanupSession], and the
      [Speaking(false)] that follows [cleanupSession()]. *)
Inductive Site : Type :=
    | AtSpeakingTrue
    | AtScalerSetVolume
    | AtMakeStream
    | AtVolumeUpdate
    | AtCleanup
    | AtSpeakingFalse.

  (** The world around one run: whether each fallible step succeeds,
      the handle of the encoder session, where (if anywhere) a call
      panics, and the events that arrive at the [select] in turn. *)
Record Env := mkEnv {
    fetch_ok : bool;
    header_ok : bool;
    encode_ok : bool;
    session : nat;
    panic_at : option Site;
    events : list Event
  }.

Inductive Exit : Type :=
    | Returned
    | Panicked (at_site : Site)
    | Waiting.

Definition panics (env : Env) (s : Site) : bool :=
    match panic_at env, s with
    | Some AtSpeakingTrue, AtSpeakingTrue
    | Some AtScalerSetVolume, AtScalerSetVolume
    | Some AtMakeStream, AtMakeStream
    | Some AtVolumeUpdate, AtVolumeUpdate
    | Some AtCleanup, AtCleanup
    | Some AtSpeakingFalse, AtSpeakingFalse => true
    | _, _ => false
    end.

  (** The [for { select { ... } }] of the control loop: the player,
      the actions, and whether the loop was left ([Returned]), panicked
      or is still waiting when the events run out. *)
Fixpoint control_loop (env : Env) (evs : list Event) (p : Player)
    : Player * list Action * Exit :=
    match evs with
    | [] => (p, [], Waiting)
    | EvVolume :: evs =>
        (* the receive takes the pending notification *)
        let p := set_volumeChangeChan false p in
        if panics env AtVolumeUpdate then (p, [], Panicked AtVolumeUpdate)
        else
          let '(p', acts, ex) := control_loop env evs p in
          (p', ScalerSetVolume (Volume p) :: acts, ex)
    | _ :: _ => (p, [], Returned)
    end.

  (** The body of [streamSong] from the point where the encoder
      session exists; the deferred calls are run by [streamSong]. *)
Definition with_session (env : Env) (p : Player) : Player * list Action * Exit :=
    let p := set_encoding (Some (session env)) p in
    if panics env AtSpeakingTrue then (p, [], Panicked AtSpeakingTrue)
    else if panics env AtScalerSetVolume then (p, [Speaking true], Panicked AtScalerSetVolume)
    else if panics env AtMakeStream
    then (p, [Speaking true; ScalerSetVolume (Volume p)], Panicked AtMakeStream)
    else
      let pre := [Speaking true; ScalerSetVolume (Volume p); MakeStream] in
      let p := set_stream (Some (session env)) p in
      match control_loop env (events env) p with
      | (p, acts, Returned) =>
          (* cleanupSession(), then Speaking(false) *)
          if panics env AtCleanup then (p, pre ++ acts, Panicked AtCleanup)
          else
            let p := if decide (encoding p = Some (session env))
                     then set_stream None (set_encoding None p) else p in
            if panics env AtSpeakingFalse
            then (p, pre ++ acts ++ [Cleanup], Panicked AtSpeakingFalse)
            else (p, pre ++ acts ++ [Cleanup; Speaking false], Returned)
      | (p, acts, ex) => (p, pre ++ acts, ex)
      end.

  (** [streamSong]: the two deferred calls run, last in first out, on
      return and on panic; they do not run while the loop waits. *)
Definition streamSong (env : Env) (p : Player) : Player * list Action * Exit :=
    if negb (fetch_ok env) then (p, [Get; Speaking false], Returned)
    else if negb (header_ok env)
    then (p, [Get; ParseHeader; BodyClose; Speaking false], Returned)
    else if negb (encode_ok env)
    then (p, [Get; ParseHeader; StartPump; Encode; BodyClose; Speaking false], Returned)
    else
      let '(p, acts, ex) := with_session env p in
      let deferred := match ex with
                      | Waiting => []
                      | _ => [BodyClose; Speaking false]
                      end in
      (p, [Get; ParseHeader; StartPump; Encode] ++ acts ++ deferred, ex).

  (** The teardown of the design document: the transport told to stop
      sending after the encoder session was released, and the player's
      session references cleared. *)
Definition torn_down (res : Player * list Action * Exit) : Prop :=
    (exists before after, res.1.2 = before ++ Cleanup :: after /\ Speaking false ∈ after)
    /\ encoding res.1.1 = None /\ stream res.1.1 = None.

Definition terminating (ev : Event) : bool :=
    match ev with EvVolume => false | _ => true end.

End Stream.

(** ** Stop, the playback loop and the manager, interleaved

    The goroutines that meet on one player: calls of [Stop], the
    [playLoop] started by [Start], and the manager's [Remove] and
    [Shutdown]. A step is what one goroutine does between two points
    where another may run: a section under the player's lock, a
    channel operation, or a call to the outside. *)

Module Conc.

  Import Player.

Inductive Effect : Type :=
    | Disconnect
    | Edit (content : string).

Record World := mkWorld {
    player : Player;
    registered : bool;
    effects : list Effect;
    panicked : bool
  }.

Definition set_player (p : Player) (w : World) : World :=
    mkWorld p (registered w) (effects w) (panicked w).
Definition add_effect (e : Effect) (w : World) : World :=
    mkWorld (player w) (registered w) (effects w ++ [e]) (panicked w).
Definition panic (w : World) : World :=
    mkWorld (player w) (registered w) (effects w) true.
Definition set_registered (b : bool) (w : World) : World :=
    mkWorld (player w) b (effects w) (panicked w).

  (** Where a call of [Stop] stands. *)
Inductive stop_pc : Type :=
    | S_lock          (* before the locked [p.Queue = nil] *)
    | S_select        (* before the [select] on the stop channel *)
    | S_close         (* in the [default] branch, before [close] *)
    | S_wait          (* before [<-p.done] *)
    | S_disconnect    (* before the disconnect *)
    | S_reset         (* before the locked reset and edit *)
    | S_returned.

  (** Where [playLoop] stands. *)
Inductive loop_pc : Type :=
    | L_top
    | L_dequeue
    | L_empty_state
    | L_empty_disconnect
    | L_empty_ui
    | L_play (song : Song)
    | L_stream (song : Song)
    | L_history (song : Song)
    | L_reset
    | L_exit          (* before the deferred [close(p.done)] *)
    | L_done.

Inductive remove_pc : Type :=
    | R_lock
    | R_stop (pc : stop_pc)
    | R_returned (stopped : bool).

Inductive thread : Type :=
    | T_Stop (pc : stop_pc)
    | T_Loop (pc : loop_pc)
    | T_Remove (pc : remove_pc)
    | T_Shutdown (returned : bool).

  (** [if p.VoiceConn != nil { p.VoiceConn.Disconnect(); p.VoiceConn = nil }] *)
Definition disconnect (w : World) : World :=
    match VoiceConn (player w) with
    | Some _ => set_player (set_VoiceConn None (player w)) (add_effect Disconnect w)
    | None => w
    end.

  (** The edit of the last message, when one is recorded. *)
Definition terminal_edit (content : string) (w : World) : World :=
    let p := player w in
    if negb (String.eqb (LastMsgID p) "") && negb (String.eqb (LastChannelID p) "")
    then set_player (set_LastChannelID "" (set_LastMsgID "" p))
                    (add_effect (Edit content) w)
    else w.

Definition msg_stopped : string := "Stopped.".
Definition msg_queue_ended : string := "Queue ended.".

  (** One step of [Stop]; [None] when it cannot move. *)
Definition step_stop (pc : stop_pc) (w : World) : option (stop_pc * World) :=
    let p := player w in
    match pc with
    | S_lock => Some (S_select, set_player (set_Queue [] p) w)
    | S_select => Some (if stopChan p then S_wait else S_close, w)
    | S_close =>
        if stopChan p then Some (S_close, panic w)
        else Some (S_wait, set_player (set_stopChan true p) w)
    | S_wait => if done p then Some (S_disconnect, w) else None
    | S_disconnect => Some (S_reset, disconnect w)
    | S_reset =>
        let w := set_player (set_NowPlaying None (set_IsPlaying false p)) w in
        Some (S_returned, terminal_edit msg_stopped w)
    | S_returned => None
    end.

  (** One step of [playLoop]. [ends] says whether the encoder reports
      the end of the stream at this moment; [streamSong] also returns
      when the stop or the skip channel is closed. *)
Definition step_loop (ends : bool) (pc : loop_pc) (w : World)
    : option (loop_pc * World) :=
    let p := player w in
    match pc with
    | L_top => Some (if stopChan p then L_exit else L_dequeue, w)
    | L_dequeue =>
        match dequeue p with
        | (None, _) => Some (L_empty_state, w)
        | (Some song, p) => Some (L_play song, set_player p w)
        end
    | L_empty_state =>
        Some (L_empty_disconnect,
              set_player (set_NowPlaying None (set_IsPlaying false p)) w)
    | L_empty_disconnect => Some (L_empty_ui, disconnect w)
    | L_empty_ui => Some (L_exit, terminal_edit msg_queue_ended w)
    | L_play song =>
        Some (L_stream song,
              set_player (set_IsPlaying true (set_NowPlaying (Some song) p)) w)
    | L_stream song =>
        if stopChan p || skipChan p || ends then Some (L_history song, w) else None
    | L_history song =>
        let hist := History p ++ [song] in
        let hist := if decide (50 < length hist)%nat then drop 1 hist else hist in
        Some (L_reset, set_player (set_History hist p) w)
    | L_reset =>
        Some (L_top, set_player (set_volumeChangeChan false (set_skipChan false p)) w)
    | L_exit =>
        if done p then Some (L_exit, panic w)
        else Some (L_done, set_player (set_done true p) w)
    | L_done => None
    end.

  (** One step of a goroutine: itself afterwards, the world, and the
      goroutines it started. *)
Definition step_thread (ends : bool) (t : thread) (w : World)
    : option (thread * World * list thread) :=
    match t with
    | T_Stop pc =>
        '(pc, w) ← step_stop pc w; Some (T_Stop pc, w, [])
    | T_Loop pc =>
        '(pc, w) ← step_loop ends pc w; Some (T_Loop pc, w, [])
    | T_Remove R_lock =>
        if registered w then Some (T_Remove (R_stop S_lock), set_registered false w, [])
        else Some (T_Remove (R_returned false), w, [])
    | T_Remove (R_stop S_returned) => Some (T_Remove (R_returned true), w, [])
    | T_Remove (R_stop pc) =>
        '(pc, w) ← step_stop pc w; Some (T_Remove (R_stop pc), w, [])
    | T_Remove (R_returned _) => None
    | T_Shutdown false =>
        Some (T_Shutdown true, w, if registered w then [T_Stop S_lock] else [])
    | T_Shutdown true => None
    end.

Record Config := mkConfig {
    world : World;
    threads : list thread
  }.

  (** Goroutine [i] takes a step. An unrecovered panic ends the
      program: nothing moves after it. *)
Definition step (i : nat) (ends : bool) (c : Config) : option Config :=
    if panicked (world c) then None
    else
      t ← threads c !! i;
      '(t', w, spawned) ← step_thread ends t (world c);
      Some (mkConfig w (<[i := t']> (threads c) ++ spawned)).

  (** A schedule: which goroutine moves, and whether the stream ends. *)
Fixpoint run (sched : list (nat * bool)) (c : Config) : option Config :=
    match sched with
    | [] => Some c
    | (i, ends) :: sched => c ← step i ends c; run sched c
    end.

Definition reachable (c0 c : Config) : Prop := exists sched, run sched c0 = Some c.

  (** A call of [Stop] that is past its wait on [done]. *)
Definition stop_past_wait (pc : stop_pc) : bool :=
    match pc with
    | S_disconnect | S_reset | S_returned => true
    | _ => false
    end.

Definition past_wait (t : thread) : bool :=
    match t with
    | T_Stop pc | T_Remove (R_stop pc) => stop_past_wait pc
    | T_Remove (R_returned stopped) => stopped
    | _ => false
    end.

Definition is_loop (t : thread) : bool :=
    match t with T_Loop _ => true | _ => false end.

  (** A player that was made, and never started: no loop runs, [done]
      is open, and no call of [Stop] is past its wait. *)
Definition never_started (c : Config) : Prop :=
    done (player (world c)) = false
    /\ Forall (fun t => is_loop t = false /\ past_wait t = false) (threads c).

End Conc.

(** ** The streaming pump: the goroutine that feeds the encoder *)

Module Pump.

  Import Volume.

  Section Pump.
    Variable unrepresentable : float -> Z.
    Context {R : Type} `{Reader R}.

    (** [for { n, err := pcmScaler.Read(buf); ... }]. [writes] is the
        number of writes the pipe still takes before its reader is
        gone; a write that fails ends the pump, as does a read that
        reports an error. The result is what went into the pipe and
        the scaler at the end; [None] when [fuel] turns of the loop
        were not enough. *)
Fixpoint pump (fuel writes : nat) (v : PCMVolume R) (buf written : list byte)
      : option (list byte * PCMVolume R) :=
      match fuel with
      | O => None
      | S fuel =>
          let '(v, buf, (n, err)) := Read unrepresentable v buf in
          if decide (0 < n)%nat then
            match writes with
            | O => Some (written, v)
            | S writes =>
                let written := written ++ take n buf in
                match err with
                | Some _ => Some (written, v)
                | None => pump fuel writes v buf written
                end
            end
          else
            match err with
            | Some _ => Some (written, v)
            | None => pump fuel writes v buf written
            end
      end.

  End Pump.

  (** The bytes a scripted source has yet to give. *)
Definition pending (s : ScriptReader.t) : list byte := concat (map fst s).

  (** A bound on the reads a scripted source can serve before it
      reports an error: one per byte and one per chunk. *)
Definition work (s : ScriptReader.t) : nat :=
    (length s + length (pending s))%nat.

End Pump.

(** ** The volume command ([handleVolume]) *)

Module VolumeCommand.

  (** [int(x)] of a float64 that an [int] holds: truncation. *)
Definition to_int (x : float) : Z := default 0 (F64.SFtrunc (Prim2SF x)).

  (** [float64(n)] for a small non-negative [int]. *)
Definition of_int (n : Z) : float := PrimFloat.of_uint63 (Uint63.of_Z n).

  (** [int(float64(level) / 100.0 * 256.0)]: the volume for a level
      given in percent. *)
Definition dcaVolume (level : Z) : Z :=
    to_int (PrimFloat.mul (PrimFloat.div (of_int level) 100%float) 256%float).

  (** [int(float64(p.Volume) / 256.0 * 100.0)]: the percentage shown. *)
Definition currentVol (volume : Z) : Z :=
    to_int (PrimFloat.mul (PrimFloat.div (of_int volume) 256%float) 100%float).

End VolumeCommand.

(** ** Wordle: the reward and the marking of a guess *)

Module Wordle.

  (** [CalculateWordleReward] *)
Definition CalculateWordleReward (attempts : Z) : Z :=
    if attempts <? 1 then 0
    else if 6 <? attempts then 0
    else if attempts =? 6 then 50
    else 500 - (attempts - 1) * 100.

Inductive Status : Type := StatusGray | StatusYellow | StatusGreen.

#[global] Instance Status_eq_dec : EqDecision Status.
  Proof. solve_decision. Defined.

  (** Runes are code points. *)
Definition rune : Type := Z.

  (** The first pass over the target: greens, and the count of each
      target letter that is not matched in place. *)
Fixpoint first_pass (guess target : list rune) (freq : gmap Z nat)
    : list bool * gmap Z nat :=
    match target, guess with
    | char :: target, g :: guess =>
        if decide (g = char)
        then let '(greens, freq) := first_pass guess target freq in
             (true :: greens, freq)
        else let '(greens, freq) :=
               first_pass guess target (<[char := S (default 0%nat (freq !! char))]> freq) in
             (false :: greens, freq)
    | _, _ => ([], freq)
    end.

  (** The second pass over the guess. *)
Fixpoint second_pass (guess : list rune) (greens : list bool) (freq : gmap Z nat)
    : list Status :=
    match guess with
    | [] => []
    | char :: guess =>
        match greens with
        | true :: greens => StatusGreen :: second_pass guess greens freq
        | _ =>
            match freq !! char with
            | Some (S count) =>
                StatusYellow :: second_pass guess (tail greens) (<[char := count]> freq)
            | _ => StatusGray :: second_pass guess (tail greens) freq
            end
        end
    end.

  (** [EvaluateGuess] on the runes of the two upper-cased words. The
      result always has five entries. The code indexes the guess by the
      positions of the target and the result by the positions of both:
      it panics, here [None], unless the target is no longer than the
      guess and the guess no longer than five. *)
Definition EvaluateGuess (guess target : list rune) : option (list Status) :=
    if decide (length target <= length guess <= 5)%nat then
      let '(greens, freq) := first_pass guess target ∅ in
      let marks := second_pass guess greens freq in
      Some (marks ++ replicate (5 - length marks) StatusGray)
    else None.

End Wordle.

(** ** The factor handed to the scaler *)

Module ScalerFactor.

  (** [float64(p.Volume) / 256.0], as [streamSong] computes it before
      the control loop and on every volume notification. *)
Definition factor (volume : Z) : float :=
    PrimFloat.div (VolumeCommand.of_int volume) 256%float.

End ScalerFactor.

(** * Properties *)

(** ** Bytes and words *)

Module BytesFacts.

Lemma Z_of_byte_range (b : byte) : 0 <= Z_of_byte b < 256.
  Proof.
    unfold Z_of_byte. pose proof (Byte.to_N_bounded b) as Hb. lia.
  Qed.

Lemma byte_of_Z_of_byte (b : byte) : byte_of_Z (Z_of_byte b) = b.
  Proof.
    unfold byte_of_Z. rewrite Z.mod_small by apply Z_of_byte_range.
    unfold Z_of_byte. rewrite N2Z.id, Byte.of_to_N. reflexivity.
  Qed.

Lemma Z_of_byte_of_Z (z : Z) : Z_of_byte (byte_of_Z z) = z mod 256.
  Proof.
    unfold byte_of_Z, Z_of_byte.
    assert (Hr : 0 <= z mod 256 < 256) by (apply Z.mod_pos_bound; lia).
    destruct (Byte.of_N (Z.to_N (z mod 256))) as [b|] eqn:Hb.
    - apply Byte.to_of_N in Hb. simpl. rewrite Hb. lia.
    - apply Byte.of_N_None_iff in Hb. lia.
  Qed.

Lemma lor_shiftl_add (a b n : Z) :
    0 <= n -> 0 <= a < 2 ^ n -> Z.lor a (Z.shiftl b n) = a + b * 2 ^ n.
  Proof.
    intros Hn Ha. rewrite Z.shiftl_mul_pow2 by lia.
    symmetry. apply Z.add_nocarry_lor.
    apply Z.bits_inj'. intros k Hk.
    rewrite Z.land_spec, Z.bits_0.
    destruct (Z.lt_ge_cases k n) as [Hlt|Hge].
    - rewrite (Z.mul_pow2_bits_low b n k) by lia. apply andb_false_r.
    - rewrite <- (Z.mod_small a (2 ^ n)) by lia.
      rewrite Z.mod_pow2_bits_high by lia. reflexivity.
  Qed.

Lemma Uint16_add (b0 b1 : byte) :
    Uint16 b0 b1 = Z_of_byte b0 + 256 * Z_of_byte b1.
  Proof.
    unfold Uint16. pose proof (Z_of_byte_range b0).
    rewrite lor_shiftl_add by lia. lia.
  Qed.

Lemma Uint16_range (b0 b1 : byte) : 0 <= Uint16 b0 b1 < 65536.
  Proof.
    rewrite Uint16_add.
    pose proof (Z_of_byte_range b0). pose proof (Z_of_byte_range b1). lia.
  Qed.

Lemma Uint32_add (b0 b1 b2 b3 : byte) :
    Uint32 b0 b1 b2 b3 =
    Z_of_byte b0 + 256 * Z_of_byte b1 + 65536 * Z_of_byte b2 + 16777216 * Z_of_byte b3.
  Proof.
    unfold Uint32.
    pose proof (Z_of_byte_range b0). pose proof (Z_of_byte_range b1).
    pose proof (Z_of_byte_range b2). pose proof (Z_of_byte_range b3).
    replace (Z.shiftl (Z_of_byte b3) 24) with (Z.shiftl (Z.shiftl (Z_of_byte b3) 8) 16)
      by (rewrite Z.shiftl_shiftl by lia; reflexivity).
    rewrite <- Z.shiftl_lor.
    rewrite !(lor_shiftl_add _ _ 8) by lia.
    rewrite lor_shiftl_add by lia. lia.
  Qed.

Lemma Uint32_range (b0 b1 b2 b3 : byte) : 0 <= Uint32 b0 b1 b2 b3 < 4294967296.
  Proof.
    rewrite Uint32_add.
    pose proof (Z_of_byte_range b0). pose proof (Z_of_byte_range b1).
    pose proof (Z_of_byte_range b2). pose proof (Z_of_byte_range b3). lia.
  Qed.

Lemma PutUint16_Uint16 (b0 b1 : byte) : PutUint16 (Uint16 b0 b1) = (b0, b1).
  Proof.
    unfold PutUint16. rewrite Z.shiftr_div_pow2 by lia. rewrite Uint16_add.
    pose proof (Z_of_byte_range b0) as H0. pose proof (Z_of_byte_range b1) as H1.
    f_equal.
    - rewrite <- (byte_of_Z_of_byte b0) at 2. unfold byte_of_Z.
      replace ((Z_of_byte b0 + 256 * Z_of_byte b1) mod 256) with (Z_of_byte b0 mod 256).
      + reflexivity.
      + rewrite (Z.mul_comm 256), Z.mod_add by lia. reflexivity.
    - replace ((Z_of_byte b0 + 256 * Z_of_byte b1) / 2 ^ 8) with (Z_of_byte b1).
      + apply byte_of_Z_of_byte.
      + change (2 ^ 8) with 256. rewrite (Z.mul_comm 256), Z.div_add by lia.
        rewrite Z.div_small by lia. lia.
  Qed.

Lemma Uint16_PutUint16 (v : Z) :
    Uint16 (PutUint16 v).1 (PutUint16 v).2 = v mod 65536.
  Proof.
    unfold PutUint16; simpl. rewrite Uint16_add, !Z_of_byte_of_Z.
    rewrite Z.shiftr_div_pow2 by lia. change (2 ^ 8) with 256.
    change 65536 with (256 * 256). rewrite Z.rem_mul_r by lia. lia.
  Qed.

Lemma int16_uint16 (s : Z) : is_int16 s -> int16 (uint16 s) = s.
  Proof.
    unfold is_int16, int16, uint16. intros Hs.
    destruct (Z.lt_ge_cases s 0).
    - replace (s mod 65536) with (s + 65536).
      + replace (s + 65536 + 32768) with ((s + 32768) + 1 * 65536) by lia.
        rewrite Z.mod_add by lia. rewrite Z.mod_small by lia. lia.
      + apply (Z.mod_unique _ _ (-1)); lia.
    - rewrite (Z.mod_small s) by lia. rewrite Z.mod_small by lia. lia.
  Qed.

Lemma int16_range (u : Z) : is_int16 (int16 u).
  Proof.
    unfold is_int16, int16.
    pose proof (Z.mod_pos_bound (u + 32768) 65536). lia.
  Qed.

Lemma uint16_int16 (u : Z) : 0 <= u < 65536 -> uint16 (int16 u) = u.
  Proof.
    unfold uint16, int16. intros Hu.
    destruct (Z.lt_ge_cases u 32768).
    - rewrite (Z.mod_small (u + 32768)) by lia.
      replace (u + 32768 - 32768) with u by lia. apply Z.mod_small; lia.
    - replace ((u + 32768) mod 65536) with (u - 32768).
      + symmetry. apply (Z.mod_unique _ _ (-1)); lia.
      + apply (Z.mod_unique _ _ 1); lia.
  Qed.

End BytesFacts.

(** ** float64: clamping and conversion *)

Module F64Facts.

  Import F64 VolumeSpec.

Lemma digits2_pos_bounds (m : positive) :
    2 ^ (Z.pos (digits2_pos m) - 1) <= Z.pos m < 2 ^ Z.pos (digits2_pos m).
  Proof.
    induction m as [p IH|p IH|]; simpl digits2_pos.
    - rewrite Pos2Z.inj_succ, Pos2Z.inj_xI.
      replace (Z.succ (Z.pos (digits2_pos p)) - 1)
        with (Z.succ (Z.pos (digits2_pos p) - 1)) by lia.
      rewrite !Z.pow_succ_r by lia. lia.
    - rewrite Pos2Z.inj_succ.
      replace (Z.succ (Z.pos (digits2_pos p)) - 1)
        with (Z.succ (Z.pos (digits2_pos p) - 1)) by lia.
      rewrite !Z.pow_succ_r by lia. lia.
    - simpl. lia.
  Qed.

  (** What validity says of a finite binary64 value. *)
Lemma bounded_inv (m : positive) (e : Z) :
    bounded prec emax m e = true ->
    -1074 <= e /\ Z.pos m < 2 ^ 53 /\ (-1074 < e -> 2 ^ 52 <= Z.pos m).
  Proof.
    unfold bounded, canonical_mantissa, fexp, emin.
    change prec with 53. change emax with 1024.
    intros Hb. apply andb_prop in Hb as [Hc _]. apply Z.eqb_eq in Hc.
    pose proof (digits2_pos_bounds m) as [Hlo Hhi].
    set (d := Z.pos (digits2_pos m)) in *.
    assert (Hd : 0 < d) by (unfold d; lia).
    split; [lia|]. split.
    - assert (d <= 53) by lia.
      eapply Z.lt_le_trans; [exact Hhi|]. apply Z.pow_le_mono_r; lia.
    - intros He. assert (d = 53) as Hd53 by lia.
      rewrite Hd53 in Hlo. exact Hlo.
  Qed.

Lemma div_pow2_upper (m k a : Z) :
    0 <= m < 2 ^ 53 -> 0 <= a <= k -> m / 2 ^ k <= (2 ^ 53 - 1) / 2 ^ a.
  Proof.
    intros Hm Hk.
    assert (0 < 2 ^ a) by (apply Z.pow_pos_nonneg; lia).
    assert (2 ^ a <= 2 ^ k) by (apply Z.pow_le_mono_r; lia).
    transitivity (m / 2 ^ a).
    - apply Z.div_le_compat_l; lia.
    - apply Z.div_le_mono; lia.
  Qed.

Lemma div_pow2_lower (m k a : Z) :
    2 ^ 52 <= m -> 0 <= k <= a -> 2 ^ 52 / 2 ^ a <= m / 2 ^ k.
  Proof.
    intros Hm Hk.
    assert (0 < 2 ^ k) by (apply Z.pow_pos_nonneg; lia).
    assert (2 ^ k <= 2 ^ a) by (apply Z.pow_le_mono_r; lia).
    transitivity (2 ^ 52 / 2 ^ k).
    - apply Z.div_le_compat_l; lia.
    - apply Z.div_le_mono; lia.
  Qed.

Lemma mul_pow2_lower (m e : Z) : 2 ^ 52 <= m -> 0 <= e -> 2 ^ 52 <= m * 2 ^ e.
  Proof.
    intros Hm He. assert (1 <= 2 ^ e) by (apply (Z.pow_le_mono_r 2 0 e); lia). nia.
  Qed.

  (** The clamp of the sample loop, as the code writes it. *)
Definition clamp (x : float) : float :=
    if PrimFloat.ltb 32767%float x then 32767%float
    else if PrimFloat.ltb x (-32768)%float then (-32768)%float
    else x.

Lemma to_int16_in_range u (x : float) (z : Z) :
    SFtrunc (Prim2SF x) = Some z -> is_int16 z -> to_int16 u x = z.
  Proof.
    unfold to_int16, is_int16. intros -> Hz.
    destruct (Z.leb_spec (-32768) z); [|lia].
    destruct (Z.leb_spec z 32767); [|lia]. reflexivity.
  Qed.

Lemma clamp16_id (z : Z) : is_int16 z -> clamp16 z = z.
  Proof. unfold is_int16, clamp16. lia. Qed.

Lemma clamp16_hi (z : Z) : 32767 <= z -> clamp16 z = 32767.
  Proof. unfold clamp16. lia. Qed.

Lemma clamp16_lo (z : Z) : z <= -32768 -> clamp16 z = -32768.
  Proof. unfold clamp16. lia. Qed.

  (** The magnitude of a finite value, truncated. *)
Definition mag (m : positive) (e : Z) : Z :=
    if 0 <=? e then Z.pos m * 2 ^ e else Z.pos m / 2 ^ (- e).

Lemma SFtrunc_finite (s : bool) (m : positive) (e : Z) :
    SFtrunc (S754_finite s m e) = Some (if s then - mag m e else mag m e).
  Proof. reflexivity. Qed.

Lemma mag_nonneg (m : positive) (e : Z) : 0 <= mag m e.
  Proof.
    unfold mag. destruct (Z.leb_spec 0 e).
    - assert (0 < 2 ^ e) by (apply Z.pow_pos_nonneg; lia). nia.
    - apply Z.div_pos; [lia|apply Z.pow_pos_nonneg; lia].
  Qed.

Lemma mag_upper (m : positive) (e a : Z) :
    Z.pos m < 2 ^ 53 -> 0 <= a -> e <= - a -> mag m e <= (2 ^ 53 - 1) / 2 ^ a.
  Proof.
    intros Hm Ha He. unfold mag. destruct (Z.leb_spec 0 e).
    - assert (e = 0) by lia. assert (a = 0) by lia. subst.
      change (2 ^ 0) with 1. rewrite Z.div_1_r. lia.
    - apply div_pow2_upper; lia.
  Qed.

Lemma mag_lower (m : positive) (e a : Z) :
    2 ^ 52 <= Z.pos m -> 0 <= a -> - a <= e -> 2 ^ 52 / 2 ^ a <= mag m e.
  Proof.
    intros Hm Ha He. unfold mag. destruct (Z.leb_spec 0 e).
    - pose proof (mul_pow2_lower (Z.pos m) e Hm ltac:(lia)).
      assert (0 < 2 ^ a) by (apply Z.pow_pos_nonneg; lia).
      assert (2 ^ 52 / 2 ^ a <= 2 ^ 52); [|lia].
      apply Z.div_le_upper_bound; [lia|].
      assert (0 < 2 ^ 52) by (apply Z.pow_pos_nonneg; lia). nia.
    - apply div_pow2_lower; lia.
  Qed.

Lemma mag_at (m : positive) (e a : Z) :
    e = - a -> 0 < a -> mag m e = Z.pos m / 2 ^ a.
  Proof.
    intros -> Ha. unfold mag. destruct (Z.leb_spec 0 (- a)); [lia|].
    rewrite Z.opp_involutive. reflexivity.
  Qed.

Definition c_hi : positive := 9006924376834048.
Definition c_lo : positive := 4503599627370496.

Lemma Prim2SF_hi : Prim2SF 32767%float = S754_finite false c_hi (-38).
  Proof. reflexivity. Qed.

Lemma Prim2SF_lo : Prim2SF (-32768)%float = S754_finite true c_lo (-37).
  Proof. reflexivity. Qed.

  (** [c * 2^k < x] for a positive bound, on finite values: by
      exponent, then by mantissa. *)
Lemma SFltb_above (c : positive) (k : Z) (s : bool) (m : positive) (e : Z) :
    SFltb (S754_finite false c k) (S754_finite s m e) = true <->
    s = false /\ (k < e \/ (e = k /\ Z.pos c < Z.pos m)).
  Proof.
    unfold SFltb, SFcompare. destruct s.
    - split; [intros Hd; discriminate Hd|]. intros [Hd _]; discriminate Hd.
    - destruct (Z.compare_spec k e) as [He|He|He].
      + rewrite Pos.compare_cont_spec. unfold Pos.switch_Eq.
        destruct (Pos.compare_spec c m) as [Hc|Hc|Hc].
        * split; [intros Hd; discriminate Hd|].
          intros [_ [Hl|[_ Hl]]]; lia.
        * split; [intros _; split; [reflexivity|]|intros _; reflexivity].
          right. split; lia.
        * split; [intros Hd; discriminate Hd|].
          intros [_ [Hl|[_ Hl]]]; lia.
      + split; [intros _; split; [reflexivity|left; exact He]|intros _; reflexivity].
      + split; [intros Hd; discriminate Hd|]. intros [_ [Hl|[Hl _]]]; lia.
  Qed.

  (** [x < - c * 2^k] for a negative bound, on finite values. *)
Lemma SFltb_below (c : positive) (k : Z) (s : bool) (m : positive) (e : Z) :
    SFltb (S754_finite s m e) (S754_finite true c k) = true <->
    s = true /\ (k < e \/ (e = k /\ Z.pos c < Z.pos m)).
  Proof.
    unfold SFltb, SFcompare. destruct s.
    - destruct (Z.compare_spec e k) as [He|He|He].
      + rewrite Pos.compare_cont_spec. unfold Pos.switch_Eq.
        destruct (Pos.compare_spec m c) as [Hc|Hc|Hc]; unfold CompOpp.
        * split; [intros Hd; discriminate Hd|].
          intros [_ [Hl|[_ Hl]]]; lia.
        * split; [intros Hd; discriminate Hd|].
          intros [_ [Hl|[_ Hl]]]; lia.
        * split; [intros _; split; [reflexivity|]|intros _; reflexivity].
          right. split; lia.
      + split; [intros Hd; discriminate Hd|]. intros [_ [Hl|[Hl _]]]; lia.
      + split; [intros _; split; [reflexivity|left; exact He]|intros _; reflexivity].
    - split; [intros Hd; discriminate Hd|]. intros [Hd _]; discriminate Hd.
  Qed.

Lemma ltb_hi_finite (s : bool) (m : positive) (e : Z) :
    SFltb (S754_finite false c_hi (-38)) (S754_finite s m e) = true <->
    s = false /\ (-38 < e \/ (e = -38 /\ 9006924376834048 < Z.pos m)).
  Proof. apply SFltb_above. Qed.

Lemma ltb_lo_finite (s : bool) (m : positive) (e : Z) :
    SFltb (S754_finite s m e) (S754_finite true c_lo (-37)) = true <->
    s = true /\ (-37 < e \/ (e = -37 /\ 4503599627370496 < Z.pos m)).
  Proof. apply SFltb_below. Qed.

Lemma to_int16_const u (x : float) (z : Z) :
    SFtrunc (Prim2SF x) = Some z -> is_int16 z -> Some z = Some (to_int16 u x).
  Proof. intros Hx Hz. f_equal. symmetry. apply to_int16_in_range; assumption. Qed.

  (** The clamp followed by the conversion never leaves the int16
      range and never meets a value the conversion cannot represent,
      unless the value is NaN. *)
Lemma to_int16_clamp u (x : float) :
    Prim2SF x <> S754_nan ->
    clamp_trunc (Prim2SF x) = Some (to_int16 u (clamp x)).
  Proof.
    intros Hnan. unfold clamp. rewrite !ltb_spec.
    pose proof (Prim2SF_valid x) as Hv.
    rewrite Prim2SF_hi, Prim2SF_lo.
    destruct (Prim2SF x) as [s|s| |s m e] eqn:Hx.
    - (* zero *)
      change (SFltb (S754_finite false c_hi (-38)) (S754_zero s)) with false.
      change (SFltb (S754_zero s) (S754_finite true c_lo (-37))) with false.
      cbv iota. change (clamp_trunc (S754_zero s)) with (Some 0).
      apply to_int16_const; [rewrite Hx; reflexivity|unfold is_int16; lia].
    - (* infinity *)
      destruct s.
      + change (clamp_trunc (S754_infinity true)) with (Some (-32768)).
        change (SFltb (S754_finite false c_hi (-38)) (S754_infinity true)) with false.
        change (SFltb (S754_infinity true) (S754_finite true c_lo (-37))) with true.
        cbv iota. apply to_int16_const; [reflexivity|unfold is_int16; lia].
      + change (clamp_trunc (S754_infinity false)) with (Some 32767).
        change (SFltb (S754_finite false c_hi (-38)) (S754_infinity false)) with true.
        cbv iota. apply to_int16_const; [reflexivity|unfold is_int16; lia].
    - congruence.
    - (* finite *)
      change (valid_binary (S754_finite s m e)) with (bounded prec emax m e) in Hv.
      apply bounded_inv in Hv as (He & Hm & Hnorm).
      change (clamp_trunc (S754_finite s m e))
        with (Some (clamp16 (if s then - mag m e else mag m e))).
      pose proof (mag_nonneg m e) as Hge.
      destruct (SFltb (S754_finite false c_hi (-38)) (S754_finite s m e)) eqn:Hhi.
      { (* above the range *)
        apply ltb_hi_finite in Hhi as [-> Hhi].
        rewrite clamp16_hi; [apply to_int16_const; [reflexivity|unfold is_int16; lia]|].
        destruct Hhi as [Hlt|[-> Hlt]].
        - pose proof (mag_lower m e 37 (Hnorm ltac:(lia)) ltac:(lia) ltac:(lia)) as Hl.
          change (2 ^ 52 / 2 ^ 37) with 32768 in Hl. lia.
        - rewrite (mag_at m (-38) 38) by lia.
          assert (9006924376834048 / 2 ^ 38 <= Z.pos m / 2 ^ 38) as Hd
            by (apply Z.div_le_mono; lia).
          change (9006924376834048 / 2 ^ 38) with 32767 in Hd. lia. }
      destruct (SFltb (S754_finite s m e) (S754_finite true c_lo (-37))) eqn:Hlo.
      { (* below the range *)
        apply ltb_lo_finite in Hlo as [-> Hlo].
        rewrite clamp16_lo; [apply to_int16_const; [reflexivity|unfold is_int16; lia]|].
        destruct Hlo as [Hlt|[-> Hlt]].
        - pose proof (mag_lower m e 36 (Hnorm ltac:(lia)) ltac:(lia) ltac:(lia)) as Hl.
          change (2 ^ 52 / 2 ^ 36) with 65536 in Hl. lia.
        - rewrite (mag_at m (-37) 37) by lia.
          assert (4503599627370496 / 2 ^ 37 <= Z.pos m / 2 ^ 37) as Hd
            by (apply Z.div_le_mono; lia).
          change (4503599627370496 / 2 ^ 37) with 32768 in Hd. lia. }
      (* inside the range *)
      assert (Hin : is_int16 (if s then - mag m e else mag m e)).
      { unfold is_int16. destruct s.
        - assert (Hn : ~ (-37 < e \/ e = -37 /\ 4503599627370496 < Z.pos m)).
          { intros Hc. assert (Ht : SFltb (S754_finite true m e)
                                      (S754_finite true c_lo (-37)) = true)
              by (apply ltb_lo_finite; split; [reflexivity|exact Hc]).
            congruence. }
          destruct (Z.eq_dec e (-37)) as [->|Hne].
          + rewrite (mag_at m (-37) 37) by lia.
            assert (Z.pos m / 2 ^ 37 <= 4503599627370496 / 2 ^ 37) as Hd
              by (apply Z.div_le_mono; lia).
            rewrite (mag_at m (-37) 37) in Hge by lia.
            change (4503599627370496 / 2 ^ 37) with 32768 in Hd. lia.
          + pose proof (mag_upper m e 38 Hm ltac:(lia) ltac:(lia)) as Hu.
            change ((2 ^ 53 - 1) / 2 ^ 38) with 32767 in Hu. lia.
        - assert (Hn : ~ (-38 < e \/ e = -38 /\ 9006924376834048 < Z.pos m)).
          { intros Hc. assert (Ht : SFltb (S754_finite false c_hi (-38))
                                      (S754_finite false m e) = true)
              by (apply ltb_hi_finite; split; [reflexivity|exact Hc]).
            congruence. }
          destruct (Z.eq_dec e (-38)) as [->|Hne].
          + rewrite (mag_at m (-38) 38) by lia.
            assert (Z.pos m / 2 ^ 38 <= 9006924376834048 / 2 ^ 38) as Hd
              by (apply Z.div_le_mono; lia).
            rewrite (mag_at m (-38) 38) in Hge by lia.
            change (9006924376834048 / 2 ^ 38) with 32767 in Hd. lia.
          + pose proof (mag_upper m e 39 Hm ltac:(lia) ltac:(lia)) as Hu.
            change ((2 ^ 53 - 1) / 2 ^ 39) with 16383 in Hu. lia. }
      rewrite clamp16_id by exact Hin.
      apply to_int16_const; [rewrite Hx; apply SFtrunc_finite|exact Hin].
  Qed.

End F64Facts.

(** ** The product of a sample and a finite factor is never NaN *)

Module MulFacts.

  Import F64 VolumeSpec.

Definition is_fin (x : spec_float) : bool :=
    match x with
    | S754_zero _ | S754_finite _ _ _ => true
    | _ => false
    end.

Lemma iter_pos_preserves {A} (P : A -> Prop) (f : A -> A) :
    (forall x, P x -> P (f x)) -> forall n x, P x -> P (SpecFloat.iter_pos f n x).
  Proof.
    intros Hf n. induction n as [n IH|n IH|]; intros x Hx; simpl; auto.
  Qed.

Lemma shr_1_nonneg (mrs : shr_record) : 0 <= shr_m mrs -> 0 <= shr_m (shr_1 mrs).
  Proof.
    destruct mrs as [m r s]. simpl. intros Hm.
    destruct m as [|[p|p|]|p]; simpl; lia.
  Qed.

Lemma shr_fexp_nonneg (m e : Z) (l : location) :
    0 <= m -> 0 <= shr_m (shr_fexp prec emax m e l).1.
  Proof.
    intros Hm. unfold shr_fexp, shr.
    assert (H0 : 0 <= shr_m (shr_record_of_loc m l))
      by (destruct l as [|[]]; simpl; exact Hm).
    destruct (fexp prec emax (Zdigits2 m + e) - e) as [|p|p]; simpl; try exact H0.
    apply (iter_pos_preserves (fun r => 0 <= shr_m r)); [apply shr_1_nonneg|exact H0].
  Qed.

Lemma round_nearest_even_nonneg (m : Z) (l : location) :
    0 <= m -> 0 <= round_nearest_even m l.
  Proof.
    intros Hm. unfold round_nearest_even.
    destruct l as [|[]]; try lia. destruct (Z.even m); lia.
  Qed.

Lemma binary_round_aux_not_nan (sx : bool) (mx ex : Z) (lx : location) :
    0 <= mx -> binary_round_aux prec emax sx mx ex lx <> S754_nan.
  Proof.
    intros Hm. unfold binary_round_aux.
    pose proof (shr_fexp_nonneg mx ex lx Hm) as H1.
    destruct (shr_fexp prec emax mx ex lx) as [mrs' e']. simpl in H1.
    pose proof (shr_fexp_nonneg _ e' loc_Exact
                  (round_nearest_even_nonneg _ (loc_of_shr_record mrs') H1)) as H2.
    destruct (shr_fexp prec emax _ e' loc_Exact) as [mrs'' e'']. simpl in H2.
    destruct (shr_m mrs'') as [|p|p]; [discriminate| |lia].
    destruct (e'' <=? emax - prec); discriminate.
  Qed.

Lemma mul_not_nan (x y : float) :
    is_fin (Prim2SF x) = true -> is_fin (Prim2SF y) = true ->
    Prim2SF (x * y) <> S754_nan.
  Proof.
    intros Hx Hy. rewrite mul_spec. unfold SF64mul, SFmul.
    destruct (Prim2SF x) as [sx|sx| |sx mx ex]; try discriminate Hx;
      destruct (Prim2SF y) as [sy|sy| |sy my ey]; try discriminate Hy;
      try discriminate.
    apply binary_round_aux_not_nan. lia.
  Qed.

Lemma digits2_pos_bounds_le (p : positive) :
    Z.pos p <= 32768 -> Z.pos (digits2_pos p) <= 53.
  Proof.
    intros Hp. pose proof (F64Facts.digits2_pos_bounds p) as [Hlo _].
    destruct (Z.le_gt_cases (Z.pos (digits2_pos p)) 53) as [Hle|Hgt]; [exact Hle|].
    assert (2 ^ 52 <= 2 ^ (Z.pos (digits2_pos p) - 1))
      by (apply Z.pow_le_mono_r; lia).
    assert (32768 < 2 ^ 52) by reflexivity. lia.
  Qed.

  (** A mantissa that already has 53 digits is kept as it is. *)
Lemma binary_round_aux_exact (s : bool) (m : positive) (e : Z) :
    Z.pos (digits2_pos m) = 53 -> -1074 <= e <= 971 ->
    binary_round_aux prec emax s (Z.pos m) e loc_Exact = S754_finite s m e.
  Proof.
    intros Hd He.
    assert (Hsh : shr_fexp prec emax (Z.pos m) e loc_Exact
                  = (Build_shr_record (Z.pos m) false false, e)).
    { unfold shr_fexp, fexp, emin. change prec with 53. change emax with 1024.
      cbn [Zdigits2]. rewrite Hd.
      replace (Z.max (53 + e - 53) (3 - 1024 - 53) - e) with 0 by lia.
      reflexivity. }
    unfold binary_round_aux. rewrite Hsh.
    cbn [shr_m loc_of_shr_record round_nearest_even]. rewrite Hsh.
    cbn [shr_m]. change (emax - prec) with 971.
    destruct (Z.leb_spec e 971); [reflexivity|lia].
  Qed.

Lemma digits2_iter_xO (p d : positive) :
    digits2_pos (Pos.iter xO p d) = (digits2_pos p + d)%positive.
  Proof.
    induction d as [|d IH] using Pos.peano_ind.
    - simpl. lia.
    - rewrite Pos.iter_succ. simpl digits2_pos. rewrite IH. lia.
  Qed.

Lemma binary_round_fin (s : bool) (p : positive) :
    Z.pos (digits2_pos p) <= 53 -> is_fin (binary_round prec emax s p 0) = true.
  Proof.
    intros Hd. unfold binary_round, shl_align, fexp, emin.
    change prec with 53. change emax with 1024.
    replace (Z.max (Z.pos (digits2_pos p) + 0 - 53) (3 - 1024 - 53))
      with (Z.pos (digits2_pos p) - 53) by lia.
    destruct (Z.pos (digits2_pos p) - 53 - 0) as [|q|q] eqn:Hq; try lia.
    - rewrite binary_round_aux_exact; [reflexivity|lia|lia].
    - rewrite binary_round_aux_exact; [reflexivity| |lia].
      rewrite digits2_iter_xO. lia.
  Qed.

Lemma of_uint63_fin (z : Z) :
    0 <= z <= 32768 -> is_fin (Prim2SF (of_uint63 (Uint63.of_Z z))) = true.
  Proof.
    intros Hz. rewrite of_uint63_spec, Uint63.of_Z_spec.
    rewrite Z.mod_small
      by (change Uint63.wB with 9223372036854775808; lia).
    destruct z as [|p|p]; [reflexivity| |lia].
    unfold binary_normalize. apply binary_round_fin.
    pose proof (digits2_pos_bounds_le p) as Hb.
    apply Hb. lia.
  Qed.

  (** Every int16 converts to a finite float. *)
Lemma of_int16_fin (s : Z) : is_int16 s -> is_fin (Prim2SF (of_int16 s)) = true.
  Proof.
    unfold is_int16, of_int16. intros Hs. destruct (Z.ltb_spec s 0).
    - rewrite opp_spec.
      pose proof (of_uint63_fin (- s) ltac:(lia)) as Hf.
      destruct (Prim2SF (of_uint63 (Uint63.of_Z (- s)))); simpl in *; congruence.
    - apply of_uint63_fin. lia.
  Qed.

Lemma finite_nonneg_fin (f : float) : finite_nonneg f -> is_fin (Prim2SF f) = true.
  Proof.
    intros [Hle Hlt]. rewrite leb_spec in Hle. rewrite ltb_spec in Hlt.
    change (Prim2SF 0) with (S754_zero false) in Hle.
    change (Prim2SF infinity) with (S754_infinity false) in Hlt.
    destruct (Prim2SF f) as [s|s| |s m e]; try reflexivity.
    - destruct s; [discriminate Hle|discriminate Hlt].
    - discriminate Hle.
  Qed.

End MulFacts.

(** ** The volume scaler *)

Module VolumeFacts.

  Import F64 Volume VolumeSpec BytesFacts F64Facts MulFacts.

  (** The sample loop as a function on a run of whole samples. *)
Fixpoint scale_pairs (f : Z -> Z) (bs : list byte) : list byte :=
    match bs with
    | b0 :: b1 :: rest =>
        (PutUint16 (uint16 (f (int16 (Uint16 b0 b1))))).1
          :: (PutUint16 (uint16 (f (int16 (Uint16 b0 b1))))).2
          :: scale_pairs f rest
    | _ => bs
    end.

Lemma scale_pairs_length (f : Z -> Z) (bs : list byte) :
    length (scale_pairs f bs) = length bs.
  Proof.
    induction bs as [bs IH] using (induction_ltof1 _ (@length byte)).
    destruct bs as [|b0 [|b1 t]]; [reflexivity..|].
    simpl. rewrite IH; [reflexivity|]. unfold ltof. simpl. lia.
  Qed.

Lemma samples_scale_pairs (f : Z -> Z) (bs : list byte) :
    samples (scale_pairs f bs) = map (fun s => int16 (uint16 (f s))) (samples bs).
  Proof.
    induction bs as [bs IH] using (induction_ltof1 _ (@length byte)).
    destruct bs as [|b0 [|b1 t]]; [reflexivity..|].
    cbn [scale_pairs samples map]. rewrite IH by (unfold ltof; simpl; lia). f_equal.
    rewrite Uint16_PutUint16. unfold uint16.
    rewrite Z.mod_mod by lia. reflexivity.
  Qed.

Lemma samples_range (bs : list byte) : Forall is_int16 (samples bs).
  Proof.
    induction bs as [bs IH] using (induction_ltof1 _ (@length byte)).
    destruct bs as [|b0 [|b1 t]]; [constructor..|].
    simpl. constructor; [apply int16_range|].
    apply IH. unfold ltof. simpl. lia.
  Qed.

  Section Loop.
    Variable u : float -> Z.

Lemma scale_loop_app (vol : float) (fuel : nat) :
      forall pre body rest : list byte,
        Nat.even (length body) = true ->
        (length body <= 2 * fuel)%nat ->
        scale_loop u fuel vol (length pre + length body) (length pre)
                   (pre ++ body ++ rest)
        = pre ++ scale_pairs (scale_sample u vol) body ++ rest.
    Proof.
      induction fuel as [|fuel IH]; intros pre body rest Hev Hlen.
      - destruct body; [reflexivity|simpl in Hlen; lia].
      - destruct body as [|b0 [|b1 t]].
        + simpl. case_decide; [lia|reflexivity].
        + discriminate Hev.
        + cbn [scale_loop]. case_decide as Hlt; [|simpl in Hlt; lia].
          assert (H0 : at_ (pre ++ (b0 :: b1 :: t) ++ rest) (length pre) = b0).
          { unfold at_. rewrite lookup_app_r by lia.
            rewrite Nat.sub_diag. reflexivity. }
          assert (H1 : at_ (pre ++ (b0 :: b1 :: t) ++ rest) (length pre + 1) = b1).
          { unfold at_. rewrite lookup_app_r by lia.
            replace (length pre + 1 - length pre)%nat with 1%nat by lia.
            reflexivity. }
          rewrite H0, H1.
          destruct (PutUint16 (uint16 (scale_sample u vol (int16 (Uint16 b0 b1)))))
            as [c0 c1] eqn:Hput.
          rewrite (insert_app_r_alt pre _ (length pre)) by lia.
          rewrite Nat.sub_diag.
          rewrite (insert_app_r_alt pre _ (length pre + 1)) by lia.
          replace (length pre + 1 - length pre)%nat with 1%nat by lia.
          cbn [app list_insert insert].
          specialize (IH (pre ++ [c0; c1]) t rest).
          rewrite length_app in IH. cbn [length] in IH.
          replace (length pre + length (b0 :: b1 :: t))%nat
            with (length pre + 2 + length t)%nat by (simpl; lia).
          rewrite <- !app_assoc in IH. cbn [app] in IH.
          rewrite IH; [|exact Hev|simpl in Hlen; lia].
          cbn [scale_pairs]. rewrite Hput. reflexivity.
    Qed.

  End Loop.

Lemma scale_sample_scaled u (vol : float) (s : Z) :
    finite_nonneg vol -> is_int16 s ->
    scaled vol s = Some (scale_sample u vol s).
  Proof.
    intros Hvol Hs. unfold scaled, scale_sample.
    apply (to_int16_clamp u (PrimFloat.mul (of_int16 s) vol)).
    apply mul_not_nan; [apply of_int16_fin; exact Hs|apply finite_nonneg_fin; exact Hvol].
  Qed.

Lemma clamp16_range (z : Z) : is_int16 (clamp16 z).
  Proof. unfold is_int16, clamp16. lia. Qed.

Lemma scaled_range (vol : float) (s z : Z) : scaled vol s = Some z -> is_int16 z.
  Proof.
    unfold scaled, clamp_trunc.
    destruct (Prim2SF _) as [sg|sg| |sg m e]; simpl; intros Hz;
      try discriminate Hz; injection Hz as <-.
    - apply clamp16_range.
    - destruct sg; unfold is_int16; lia.
    - apply clamp16_range.
  Qed.

Lemma scale_sample_range u (vol : float) (s : Z) :
    finite_nonneg vol -> is_int16 s -> is_int16 (scale_sample u vol s).
  Proof.
    intros Hvol Hs. apply (scaled_range vol s).
    apply scale_sample_scaled; assumption.
  Qed.

  (** The samples that the loop writes are the scaled samples. *)
Lemma samples_scale_pairs_scaled u (vol : float) (bs : list byte) :
    finite_nonneg vol ->
    Some <$> samples (scale_pairs (scale_sample u vol) bs)
    = map (scaled vol) (samples bs).
  Proof.
    intros Hvol. rewrite samples_scale_pairs.
    pose proof (samples_range bs) as Hr.
    induction Hr as [|s l Hs _ IH]; [reflexivity|].
    cbn [map fmap list_fmap]. f_equal; [|exact IH].
    rewrite int16_uint16 by (apply scale_sample_range; assumption).
    symmetry. apply scale_sample_scaled; assumption.
  Qed.

Lemma even_floor (n : nat) : Nat.even (n - n mod 2) = true.
  Proof.
    pose proof (Nat.div_mod_eq n 2) as Hn.
    replace (n - n mod 2)%nat with (2 * (n / 2))%nat by lia.
    rewrite Nat.even_mul. reflexivity.
  Qed.

Lemma mod2_cases (n : nat) : (n mod 2 = 0 \/ n mod 2 = 1)%nat.
  Proof. pose proof (Nat.mod_upper_bound n 2). lia. Qed.

Lemma drop_last_at (l : list byte) :
    (0 < length l)%nat -> drop (length l - 1) l = [at_ l (length l - 1)].
  Proof.
    intros Hl. unfold at_.
    destruct (l !! (length l - 1)%nat) as [x|] eqn:Hx.
    - apply (drop_S l x) in Hx as Hd. rewrite Hd.
      replace (S (length l - 1)) with (length l) by lia.
      rewrite drop_all. reflexivity.
    - apply lookup_ge_None in Hx. lia.
  Qed.

  Section ReadFacts.
    Variable u : float -> Z.
    Context {R : Type} `{Reader R}.

    (** What one pass of the sample loop makes of a run of whole samples. *)
Definition processed (vol : float) (bs : list byte) : list byte :=
      if must_scale vol then scale_pairs (scale_sample u vol) bs else bs.

Lemma processed_length (vol : float) (bs : list byte) :
      length (processed vol bs) = length bs.
    Proof.
      unfold processed. destruct (must_scale vol); [apply scale_pairs_length|reflexivity].
    Qed.

    (** Steps 2 and 3 of [Read], on the bytes at hand: the [k] bytes
        already placed followed by what the source returns. *)
Lemma read_rest_spec (v : PCMVolume R) (p : list byte) (k : nat)
          (data : list byte) (err : option error) (r' : R) :
      (k <= length p)%nat ->
      rd_read (src v) (length p - k) = (data, err, r') ->
      let total := take k p ++ data in
      let n := length total in
      let ne := (n - n mod 2)%nat in
      read_rest u v p k k
      = (mkPCMVolume r' (volume v)
           (if decide (n mod 2 = 0)%nat then leftover v else drop ne total),
         processed (volume v) (take ne total) ++ drop ne total ++ drop n p,
         (ne, err)).
    Proof.
      intros Hk Hrd total n ne. unfold read_rest. rewrite Hrd.
      assert (Hn : n = (k + length data)%nat).
      { unfold n, total. rewrite length_app, length_take. lia. }
      rewrite <- Hn.
      assert (Hp2 : take k p ++ data ++ drop n p = total ++ drop n p)
        by (unfold total; rewrite <- app_assoc; reflexivity).
      rewrite Hp2.
      assert (Hne : (ne <= n)%nat) by (unfold ne; lia).
      assert (Hsplit : total ++ drop n p
                       = take ne total ++ drop ne total ++ drop n p)
        by (rewrite app_assoc, take_drop; reflexivity).
      assert (Hlen : length (take ne total) = ne)
        by (rewrite length_take; fold n; lia).
      case_decide as Hpos.
      - assert (Hloop : (if must_scale (volume v)
                         then scale_loop u ne (volume v) ne 0 (total ++ drop n p)
                         else total ++ drop n p)
                        = processed (volume v) (take ne total)
                            ++ drop ne total ++ drop n p).
        { unfold processed. destruct (must_scale (volume v)); [|exact Hsplit].
          rewrite Hsplit.
          pose proof (scale_loop_app u (volume v) ne [] (take ne total)
                        (drop ne total ++ drop n p)) as Hl.
          rewrite Hlen in Hl. cbn [length app Nat.add] in Hl.
          apply Hl; [apply even_floor|lia]. }
        destruct (mod2_cases n) as [Hev|Hodd].
        + assert (ne = n) as Hnn by (unfold ne; lia).
          case_decide as Hd; [lia|]. case_decide as Hd'; [|lia].
          cbv beta iota zeta. rewrite Hnn in Hloop |- *.
          rewrite Hloop. reflexivity.
        + assert (ne = (n - 1)%nat) as Hnn by (unfold ne; lia).
          case_decide as Hd; [|lia]. case_decide as Hd'; [lia|].
          cbv beta iota zeta. rewrite Hnn in Hloop |- *.
          rewrite Hloop. f_equal. f_equal. f_equal.
          unfold n. rewrite drop_last_at by (fold n; lia).
          f_equal. unfold at_. rewrite lookup_app_l by (fold n; lia).
          reflexivity.
      - assert (n = 0%nat) as Hn0 by lia.
        assert (ne = 0%nat) as Hne0 by lia.
        rewrite Hne0, Hn0. case_decide as Hd; [|simpl in Hd; lia].
        assert (total = []) as Ht by (apply length_zero_iff_nil; exact Hn0).
        rewrite Ht. unfold processed. cbn [take drop app].
        destruct (must_scale (volume v)); reflexivity.
    Qed.

    (** The byte, if any, that the previous call held back. *)
Definition held (v : PCMVolume R) : list byte :=
      match leftover v with b :: _ => [b] | [] => [] end.

    (** One call of [Read] whose buffer has room for the held byte
        and at least one more. *)
Lemma Read_spec (v : PCMVolume R) (p : list byte)
          (data : list byte) (err : option error) (r' : R) :
      (length (held v) < length p)%nat ->
      rd_read (src v) (length p - length (held v)) = (data, err, r') ->
      let total := held v ++ data in
      let n := length total in
      let ne := (n - n mod 2)%nat in
      Read u v p
      = (mkPCMVolume r' (volume v)
           (if decide (n mod 2 = 0)%nat then [] else drop ne total),
         processed (volume v) (take ne total) ++ drop ne total ++ drop n p,
         (ne, err)).
    Proof.
      unfold held, Read. intros Hlen Hrd.
      case_decide as Hz; [lia|].
      destruct (leftover v) as [|b lo] eqn:Hlo.
      - cbn [length] in Hrd, Hlen. rewrite Nat.sub_0_r in Hrd.
        pose proof (read_rest_spec v p 0 data err r' ltac:(lia)) as Hs.
        rewrite Nat.sub_0_r in Hs. specialize (Hs Hrd).
        cbn [take app] in Hs. rewrite Hlo in Hs. cbn [app]. exact Hs.
      - cbn [length] in Hrd, Hlen. cbv zeta.
        rewrite length_insert. case_decide as H1; [lia|].
        pose proof (read_rest_spec (mkPCMVolume (src v) (volume v) [])
                      (<[0%nat:=b]> p) 1 data err r') as Hs.
        rewrite length_insert in Hs. cbn [src volume leftover] in Hs.
        specialize (Hs ltac:(lia) Hrd).
        destruct p as [|x p]; [simpl in Hlen; lia|].
        cbn [list_insert insert take] in Hs. cbn [list_insert insert].
        rewrite Hs. cbn [app length]. f_equal.
    Qed.

  End ReadFacts.

End VolumeFacts.

(** ** The volume scaler: what a read delivers *)

Module VolumeClaims.

  Import F64 Volume VolumeSpec BytesFacts F64Facts MulFacts VolumeFacts.

Lemma must_scale_one : must_scale 1%float = false.
  Proof. reflexivity. Qed.

  (** C1 (as the code has it): for a buffer of whole little-endian int16
      samples read through the scaler with a finite factor f >= 0 and no
      byte held back, the read delivers as many bytes as the source
      gave; when |f - 1| > 0.001 each output sample is the float64
      product input*f clamped to [-32768, 32767] and truncated toward
      zero (not rounded); otherwise, and in particular for f = 1.0, the
      output bytes are the input bytes. *)
Theorem Read_scales_by_truncation
      (u : float -> Z) {R : Type} `{Reader R}
      (v : PCMVolume R) (p data : list byte) (err : option error) (r' : R) :
    finite_nonneg (volume v) ->
    leftover v = [] ->
    (0 < length p)%nat ->
    rd_read (src v) (length p) = (data, err, r') ->
    Nat.even (length data) = true ->
    let res := Read u v p in
    res.2 = (length data, err)
    /\ length (delivered res) = length data
    /\ (must_scale (volume v) = true ->
        Some <$> samples (delivered res) = map (scaled (volume v)) (samples data))
    /\ (must_scale (volume v) = false -> delivered res = data)
    /\ (volume v = 1%float -> delivered res = data).
  Proof.
    intros Hvol Hlo Hp Hrd Hev res.
    assert (Hheld : held v = []) by (unfold held; rewrite Hlo; reflexivity).
    pose proof (Read_spec u v p data err r') as Hs.
    rewrite Hheld in Hs. cbn [length app] in Hs. rewrite Nat.sub_0_r in Hs.
    specialize (Hs Hp Hrd).
    assert (Hmod : (length data mod 2 = 0)%nat).
    { destruct (mod2_cases (length data)) as [Hm|Hm]; [exact Hm|].
      pose proof (Nat.div_mod_eq (length data) 2) as Hd.
      rewrite Hd, Hm in Hev.
      rewrite Nat.even_add, Nat.even_mul in Hev. discriminate Hev. }
    rewrite Hmod, Nat.sub_0_r in Hs. rewrite firstn_all, drop_all in Hs.
    cbn [app] in Hs.
    assert (Hdel : delivered res = processed u (volume v) data).
    { unfold delivered, res. rewrite Hs. cbn [fst snd].
      rewrite <- (processed_length u (volume v) data).
      rewrite take_app_length. reflexivity. }
    assert (Hpass : must_scale (volume v) = false -> delivered res = data)
      by (intros Hm; rewrite Hdel; unfold processed; rewrite Hm; reflexivity).
    split; [unfold res; rewrite Hs; reflexivity|].
    split; [rewrite Hdel; apply processed_length|].
    split; [|split].
    - intros Hm. rewrite Hdel. unfold processed. rewrite Hm.
      apply samples_scale_pairs_scaled. exact Hvol.
    - exact Hpass.
    - intros H1. apply Hpass. rewrite H1. exact must_scale_one.
  Qed.

Definition u0 : float -> Z := fun _ => 0.

Lemma Read_scales_by_truncation_witness :
    let v := mkPCMVolume
               ([([Byte.x03; Byte.x00; Byte.xff; Byte.xff], None)] : ScriptReader.t)
               0.5%float [] in
    let res := Read u0 v (replicate 4 Byte.x00) in
    res.2 = (4%nat, None)
    /\ length (delivered res) = 4%nat
    /\ (must_scale 0.5%float = true ->
        Some <$> samples (delivered res)
        = map (scaled 0.5%float) (samples [Byte.x03; Byte.x00; Byte.xff; Byte.xff]))
    /\ (must_scale 0.5%float = false ->
        delivered res = [Byte.x03; Byte.x00; Byte.xff; Byte.xff])
    /\ (0.5%float = 1%float ->
        delivered res = [Byte.x03; Byte.x00; Byte.xff; Byte.xff]).
  Proof.
    apply (Read_scales_by_truncation u0
             (mkPCMVolume
                ([([Byte.x03; Byte.x00; Byte.xff; Byte.xff], None)] : ScriptReader.t)
                0.5%float [])
             (replicate 4 Byte.x00)
             [Byte.x03; Byte.x00; Byte.xff; Byte.xff] None []).
    - split; reflexivity.
    - reflexivity.
    - simpl. lia.
    - reflexivity.
    - reflexivity.
  Defined.

  (** C1 as stated fails: with factor 0.75 the sample 1 comes out as
      0 (0.75 truncated), where rounding would give 1. *)
Lemma Read_does_not_round :
    let data := [Byte.x01; Byte.x00] in
    let v := mkPCMVolume ([(data, None)] : ScriptReader.t) 0.75%float [] in
    let res := Read u0 v (replicate 2 Byte.x00) in
    finite_nonneg 0.75%float
    /\ samples data = [1]
    /\ samples (delivered res) = [0]
    /\ map (rounded 0.75%float) (samples data) = [Some 1]
    /\ Some <$> samples (delivered res) <> map (rounded 0.75%float) (samples data).
  Proof.
    cbv zeta. split; [split; reflexivity|].
    split; [reflexivity|]. split; [vm_compute; reflexivity|].
    split; [vm_compute; reflexivity|].
    vm_compute. intros Hc. discriminate Hc.
  Qed.

  (** C2, at the failing input: a source that yields three bytes and
      then ends. The pump's reads deliver two bytes, then nothing with
      EOF, while the third byte is still held back; a further read does
      the same. The byte is never delivered. *)
Lemma Read_drops_trailing_byte :
    let source : ScriptReader.t := [([Byte.x01; Byte.x02; Byte.x03], None)] in
    let r1 := Read u0 (NewPCMVolume source) (replicate 3840 Byte.x00) in
    let r2 := Read u0 r1.1.1 r1.1.2 in
    let r3 := Read u0 r2.1.1 r2.1.2 in
    (delivered r1 = [Byte.x01; Byte.x02] /\ r1.2.2 = None)
    /\ (delivered r2 = [] /\ r2.2.2 = Some EOF /\ leftover r2.1.1 = [Byte.x03])
    /\ (delivered r3 = [] /\ r3.2.2 = Some EOF /\ leftover r3.1.1 = [Byte.x03]).
  Proof. vm_compute. repeat split. Qed.

End VolumeClaims.

(** ** The header parser *)

Module WavFacts.

  Import Wav WavSpec BytesFacts.

Lemma ReadFull_app (hd s : list byte) :
    ReadFull (hd ++ s) (length hd) = inr (hd, s).
  Proof.
    unfold ReadFull. rewrite length_app.
    case_decide; [|lia]. rewrite take_app_length, drop_app_length. reflexivity.
  Qed.

Lemma ReadFull_short (s : list byte) (n : nat) :
    (length s < n)%nat -> ReadFull s n = inl (short_error s).
  Proof. intros Hs. unfold ReadFull. case_decide; [lia|reflexivity]. Qed.

Lemma ReadFull_inl (s : list byte) (n : nat) (e : error) :
    ReadFull s n = inl e -> (length s < n)%nat /\ e = short_error s.
  Proof.
    unfold ReadFull. case_decide; [discriminate|].
    intros [= <-]. split; [lia|reflexivity].
  Qed.

Lemma ReadFull_inr (s a b : list byte) (n : nat) :
    ReadFull s n = inr (a, b) -> s = a ++ b /\ length a = n.
  Proof.
    unfold ReadFull. case_decide; [|discriminate].
    intros [= <- <-]. split; [symmetry; apply take_drop|].
    rewrite length_take. lia.
  Qed.

Lemma CopyN_app (pl s : list byte) :
    CopyN_Discard (pl ++ s) (length pl) = (true, s).
  Proof.
    unfold CopyN_Discard. rewrite drop_app_length, length_app.
    rewrite bool_decide_eq_true_2 by lia. reflexivity.
  Qed.

Lemma CopyN_short (s : list byte) (n : nat) :
    (length s < n)%nat -> (CopyN_Discard s n).1 = false.
  Proof.
    intros Hs. unfold CopyN_Discard. cbn [fst].
    apply bool_decide_eq_false_2. lia.
  Qed.

Lemma CopyN_inv (s s' : list byte) (n : nat) :
    CopyN_Discard s n = (true, s') -> s = take n s ++ s' /\ length (take n s) = n.
  Proof.
    unfold CopyN_Discard. intros [= Hb <-].
    apply bool_decide_eq_true_1 in Hb.
    split; [symmetry; apply take_drop|]. rewrite length_take. lia.
  Qed.

  (** The pad step of the loop is [after_pad]. *)
Lemma pad_after_pad (size : Z) (s : list byte) :
    (if decide (size mod 2 <> 0) then (CopyN_Discard s 1).2 else s)
    = after_pad size s.
  Proof. reflexivity. Qed.

  (** The parser agrees with every outcome of the format relation. *)
Lemma chunks_complete (h : WavHeader) (seen : bool) (s : list byte) (r : result) :
    Scan h seen s r ->
    forall fuel, (length s < fuel)%nat -> chunks fuel h seen s = Some r.
  Proof.
    induction 1 as
      [h seen s Hs
      |h seen hd s Hhd Htag Hsz
      |h seen hd s Hhd Htag Hsz Hs
      |h seen hd pl s r Hhd Htag Hsz Hpl _ IH
      |h hd s Hhd Htag
      |h hd s Hhd Htag Hun
      |h hd s Hhd Htag Hsup
      |h seen hd s Hhd Hnf Hnd Hs
      |h seen hd pl s r Hhd Hnf Hnd Hpl _ IH];
      intros [|fuel] Hfuel; try lia; cbn [chunks].
    - rewrite ReadFull_short by lia. reflexivity.
    - rewrite <- Hhd, ReadFull_app. cbv zeta.
      case_decide; [|contradiction]. case_decide; [reflexivity|lia].
    - rewrite <- Hhd, ReadFull_app. cbv zeta.
      case_decide; [|contradiction]. case_decide; [lia|].
      rewrite ReadFull_short by lia. reflexivity.
    - rewrite <- Hhd, ReadFull_app. cbv zeta.
      case_decide; [|contradiction]. case_decide; [lia|].
      rewrite <- Hpl, ReadFull_app. rewrite pad_after_pad.
      apply IH. rewrite !length_app in Hfuel.
      unfold after_pad. case_decide; [rewrite length_drop|]; lia.
    - rewrite <- Hhd, ReadFull_app. cbv zeta.
      case_decide as Hf; [rewrite Htag in Hf; discriminate Hf|].
      case_decide; [|contradiction]. reflexivity.
    - rewrite <- Hhd, ReadFull_app. cbv zeta.
      case_decide as Hf; [rewrite Htag in Hf; discriminate Hf|].
      case_decide; [|contradiction]. cbn [negb].
      case_decide as Hc; [reflexivity|].
      exfalso. apply Hun. unfold supported. lia.
    - rewrite <- Hhd, ReadFull_app. cbv zeta.
      case_decide as Hf; [rewrite Htag in Hf; discriminate Hf|].
      case_decide; [|contradiction]. cbn [negb].
      case_decide as Hc; [|reflexivity].
      exfalso. unfold supported in Hsup. lia.
    - rewrite <- Hhd, ReadFull_app. cbv zeta.
      case_decide; [contradiction|]. case_decide; [contradiction|].
      pose proof (CopyN_short s (Z.to_nat (le32 hd 4)) Hs) as Hc.
      destruct (CopyN_Discard s (Z.to_nat (le32 hd 4))) as [b s']. cbn [fst] in Hc.
      rewrite Hc. reflexivity.
    - rewrite <- Hhd, ReadFull_app. cbv zeta.
      case_decide; [contradiction|]. case_decide; [contradiction|].
      rewrite <- Hpl, CopyN_app. rewrite pad_after_pad.
      apply IH. rewrite !length_app in Hfuel.
      unfold after_pad. case_decide; [rewrite length_drop|]; lia.
  Qed.

  (** Every result of the parser is an outcome of the format relation. *)
Lemma chunks_sound (fuel : nat) :
    forall (h : WavHeader) (seen : bool) (s : list byte) (r : result),
      chunks fuel h seen s = Some r -> Scan h seen s r.
  Proof.
    induction fuel as [|fuel IH]; intros h seen s r; [discriminate|].
    cbn [chunks].
    destruct (ReadFull s 8) as [e|[hd s1]] eqn:Hrf.
    - apply ReadFull_inl in Hrf as [Hlen ->]. intros [= <-].
      apply Scan_header_short. exact Hlen.
    - apply ReadFull_inr in Hrf as [-> Hhd]. cbv zeta.
      case_decide as Hfmt.
      + case_decide as Hsz.
        * intros [= <-]. apply Scan_fmt_small; assumption.
        * destruct (ReadFull s1 (Z.to_nat (le32 hd 4))) as [e|[pl s2]] eqn:Hrp.
          -- apply ReadFull_inl in Hrp as [Hlen ->]. intros [= <-].
             apply Scan_fmt_short; [assumption..|lia|exact Hlen].
          -- apply ReadFull_inr in Hrp as [-> Hpl]. rewrite pad_after_pad.
             intros Hc. apply IH in Hc.
             apply Scan_fmt; [assumption..|lia|exact Hpl|exact Hc].
      + case_decide as Hdata.
        * destruct seen; cbn [negb].
          -- case_decide as Hc; intros [= <-].
             ++ apply Scan_data_unsupported; [assumption..|].
                unfold supported. lia.
             ++ apply Scan_data; [assumption..|].
                unfold supported.
                destruct (decide (AudioFormat h = 1)) as [?|?]; [left; assumption|].
                destruct (decide (AudioFormat h = 65534)) as [?|?]; [right; assumption|].
                exfalso. apply Hc. split; assumption.
          -- intros [= <-]. apply Scan_data_early; assumption.
        * destruct (CopyN_Discard s1 (Z.to_nat (le32 hd 4))) as [[|] s2] eqn:Hcp.
          -- apply CopyN_inv in Hcp as [Hs1 Hpl]. rewrite pad_after_pad.
             intros Hc. apply IH in Hc. rewrite Hs1.
             apply Scan_skip; assumption.
          -- intros [= <-]. apply Scan_skip_short; [assumption..|].
             unfold CopyN_Discard in Hcp. injection Hcp as Hb _.
             apply bool_decide_eq_false_1 in Hb. lia.
  Qed.

  (** The loop always ends within its fuel: it has a result. *)
Lemma chunks_total (fuel : nat) :
    forall (h : WavHeader) (seen : bool) (s : list byte),
      (length s < fuel)%nat -> is_Some (chunks fuel h seen s).
  Proof.
    induction fuel as [|fuel IH]; intros h seen s Hfuel; [lia|].
    cbn [chunks].
    destruct (ReadFull s 8) as [e|[hd s1]] eqn:Hrf; [eexists; reflexivity|].
    apply ReadFull_inr in Hrf as [-> Hhd]. rewrite length_app in Hfuel. cbv zeta.
    assert (Hpad : forall size t, (length (after_pad size t) <= length t)%nat).
    { intros size t. unfold after_pad. case_decide; [rewrite length_drop|]; lia. }
    case_decide as Hfmt.
    - case_decide as Hsz; [eexists; reflexivity|].
      destruct (ReadFull s1 (Z.to_nat (le32 hd 4))) as [e|[pl s2]] eqn:Hrp;
        [eexists; reflexivity|].
      apply ReadFull_inr in Hrp as [-> Hpl]. rewrite pad_after_pad.
      apply IH. rewrite length_app in Hfuel.
      specialize (Hpad (le32 hd 4) s2). lia.
    - case_decide as Hdata.
      + destruct (negb seen); [eexists; reflexivity|].
        case_decide; eexists; reflexivity.
      + destruct (CopyN_Discard s1 (Z.to_nat (le32 hd 4))) as [[|] s2] eqn:Hcp;
          [|eexists; reflexivity].
        rewrite pad_after_pad. apply IH.
        unfold CopyN_Discard in Hcp. injection Hcp as _ <-.
        specialize (Hpad (le32 hd 4) (drop (Z.to_nat (le32 hd 4)) s1)).
        rewrite length_drop in Hpad. lia.
  Qed.

  (** [ReadWavHeader] always returns, with a header or an error. *)
Lemma ReadWavHeader_total (s : list byte) : is_Some (ReadWavHeader s).
  Proof.
    unfold ReadWavHeader.
    destruct (ReadFull s 12) as [e|[riff s1]]; [eexists; reflexivity|].
    case_decide; [eexists; reflexivity|].
    case_decide; [eexists; reflexivity|].
    apply chunks_total. lia.
  Qed.

  (** The parser computes exactly the outcomes of the format relation. *)
Lemma ReadWavHeader_Parse (s : list byte) (r : result) :
    ReadWavHeader s = Some r <-> Parse s r.
  Proof.
    unfold ReadWavHeader. split.
    - destruct (ReadFull s 12) as [e|[riff s1]] eqn:Hrf.
      + apply ReadFull_inl in Hrf as [Hlen ->]. intros [= <-].
        apply Parse_prologue_short. exact Hlen.
      + apply ReadFull_inr in Hrf as [-> Hriff].
        case_decide as HR; [intros [= <-]; apply Parse_missing_RIFF; assumption|].
        case_decide as HW; [intros [= <-]; apply Parse_missing_WAVE; assumption|].
        intros Hc. apply chunks_sound in Hc. apply Parse_chunks; assumption.
    - intros HP. destruct HP as [s Hs|riff s Hriff HR|riff s Hriff HR HW|riff s r Hriff HR HW Hsc].
      + rewrite ReadFull_short by lia. reflexivity.
      + rewrite <- Hriff, ReadFull_app. case_decide; [reflexivity|contradiction].
      + rewrite <- Hriff, ReadFull_app. case_decide; [contradiction|].
        case_decide; [reflexivity|contradiction].
      + rewrite <- Hriff, ReadFull_app. case_decide; [contradiction|].
        case_decide; [contradiction|].
        apply chunks_complete; [exact Hsc|lia].
  Qed.

End WavFacts.

(** ** The header parser on well-formed and on broken streams *)

Module WavClaims.

  Import Wav WavSpec BytesFacts WavFacts.

Lemma header_of_chunk (c : Chunk) :
    well_formed c ->
    length (tag c ++ size_field c) = 8%nat
    /\ take 4 (tag c ++ size_field c) = tag c
    /\ le32 (tag c ++ size_field c) 4 = Z.of_nat (length (payload c)).
  Proof.
    intros (Ht & Hs & Hd & _). split; [rewrite length_app; lia|]. split.
    - rewrite <- Ht. apply take_app_length.
    - rewrite <- Hd. unfold le32, declared_size, at_.
      rewrite !lookup_app_r by lia. rewrite Ht.
      replace (4 - 4)%nat with 0%nat by lia.
      replace (4 + 1 - 4)%nat with 1%nat by lia.
      replace (4 + 2 - 4)%nat with 2%nat by lia.
      replace (4 + 3 - 4)%nat with 3%nat by lia.
      reflexivity.
  Qed.

Lemma after_pad_padding (c : Chunk) (s : list byte) :
    well_formed c ->
    after_pad (Z.of_nat (length (payload c))) (padding c ++ s) = s.
  Proof.
    intros (_ & _ & _ & Hp). unfold after_pad.
    assert (Hm : Z.of_nat (length (payload c)) mod 2
                 = Z.of_nat (length (payload c) mod 2))
      by (rewrite Nat2Z.inj_mod; reflexivity).
    pose proof (Nat.mod_upper_bound (length (payload c)) 2 ltac:(lia)) as Hb.
    case_decide as Hodd.
    - assert (length (padding c) = 1%nat) as H1 by lia.
      rewrite <- H1. apply drop_app_length.
    - assert (length (padding c) = 0%nat) as H0 by lia.
      apply length_zero_iff_nil in H0. rewrite H0. reflexivity.
  Qed.

Lemma encode_assoc (c : Chunk) (s : list byte) :
    encode c ++ s = (tag c ++ size_field c) ++ payload c ++ padding c ++ s.
  Proof. unfold encode. rewrite <- !app_assoc. reflexivity. Qed.

  (** An ignorable chunk is stepped over, padding included. *)
Lemma Scan_over_ignorable (c : Chunk) h seen (s : list byte) (r : result) :
    ignorable c -> Scan h seen s r -> Scan h seen (encode c ++ s) r.
  Proof.
    intros (Hwf & Hnf & Hnd) Hs.
    destruct (header_of_chunk c Hwf) as (Hlen & Htag & Hsz).
    rewrite encode_assoc.
    apply Scan_skip; rewrite ?Htag, ?Hsz, ?Nat2Z.id; try assumption; try reflexivity.
    rewrite after_pad_padding by exact Hwf. exact Hs.
  Qed.

Lemma Scan_over_ignorables (cs : list Chunk) h seen (s : list byte) (r : result) :
    Forall ignorable cs -> Scan h seen s r ->
    Scan h seen (concat (map encode cs) ++ s) r.
  Proof.
    intros Hcs Hs. induction Hcs as [|c cs Hc _ IH]; [exact Hs|].
    cbn [map concat]. rewrite <- app_assoc.
    apply Scan_over_ignorable; assumption.
  Qed.

  (** A format chunk is read and its fields kept. *)
Lemma Scan_over_fmt (c : Chunk) h seen (s : list byte) (r : result) :
    well_formed c -> tag c = tag_fmt -> (16 <= length (payload c))%nat ->
    Scan (parse_fmt (payload c)) true s r -> Scan h seen (encode c ++ s) r.
  Proof.
    intros Hwf Hfmt H16 Hs.
    destruct (header_of_chunk c Hwf) as (Hlen & Htag & Hsz).
    rewrite encode_assoc.
    apply Scan_fmt; rewrite ?Htag, ?Hsz, ?Nat2Z.id; try assumption; try reflexivity.
    - lia.
    - rewrite after_pad_padding by exact Hwf. exact Hs.
  Qed.

Lemma le_bytes_2 (v : Z) (pre s l : list byte) :
    0 <= v < 65536 -> l = pre ++ le_bytes 2 v ++ s ->
    le16 l (length pre) = v.
  Proof.
    intros Hv ->. unfold le16, at_.
    rewrite (lookup_app_r pre _ (length pre)) by lia.
    rewrite (lookup_app_r pre _ (length pre + 1)) by lia.
    replace (length pre - length pre)%nat with 0%nat by lia.
    replace (length pre + 1 - length pre)%nat with 1%nat by lia.
    cbn [le_bytes app lookup list_lookup from_option id].
    rewrite Uint16_add, !Z_of_byte_of_Z, !Z.mod_mod by lia.
    pose proof (Z.div_mod v 256 ltac:(lia)) as H0.
    pose proof (Z.mod_pos_bound v 256 ltac:(lia)) as B0.
    rewrite (Z.mod_small (v / 256)) by lia. lia.
  Qed.

Lemma le_bytes_4 (v : Z) (pre s l : list byte) :
    0 <= v < 4294967296 -> l = pre ++ le_bytes 4 v ++ s ->
    le32 l (length pre) = v.
  Proof.
    intros Hv ->. unfold le32, at_.
    rewrite (lookup_app_r pre _ (length pre)) by lia.
    rewrite (lookup_app_r pre _ (length pre + 1)) by lia.
    rewrite (lookup_app_r pre _ (length pre + 2)) by lia.
    rewrite (lookup_app_r pre _ (length pre + 3)) by lia.
    replace (length pre - length pre)%nat with 0%nat by lia.
    replace (length pre + 1 - length pre)%nat with 1%nat by lia.
    replace (length pre + 2 - length pre)%nat with 2%nat by lia.
    replace (length pre + 3 - length pre)%nat with 3%nat by lia.
    cbn [le_bytes app lookup list_lookup from_option id].
    rewrite Uint32_add, !Z_of_byte_of_Z, !Z.mod_mod by lia.
    pose proof (Z.div_mod v 256 ltac:(lia)) as H0.
    pose proof (Z.mod_pos_bound v 256 ltac:(lia)) as B0.
    pose proof (Z.div_mod (v / 256) 256 ltac:(lia)) as H1.
    pose proof (Z.mod_pos_bound (v / 256) 256 ltac:(lia)) as B1.
    pose proof (Z.div_mod (v / 256 / 256) 256 ltac:(lia)) as H2.
    pose proof (Z.mod_pos_bound (v / 256 / 256) 256 ltac:(lia)) as B2.
    rewrite (Z.mod_small (v / 256 / 256 / 256)) by lia. lia.
  Qed.

Lemma length_le_bytes (n : nat) : forall v, length (le_bytes n v) = n.
  Proof. induction n as [|n IH]; intros v; [reflexivity|]. cbn. rewrite IH. reflexivity. Qed.

  (** The parser's reading of the sixteen bytes gives back the values
      that were laid out in them. *)
Lemma parse_fmt_fields (h : WavHeader) (extension : list byte) :
    fits h -> parse_fmt (fmt_fields h ++ extension) = h.
  Proof.
    destruct h as [af nc sr br ba bps]. unfold fits, fmt_fields, parse_fmt. cbn -[le_bytes le16 le32].
    intros (Haf & Hnc & Hsr & Hbr & Hba & Hbps).
    rewrite <- !app_assoc.
    f_equal.
    - eapply (le_bytes_2 af []); [exact Haf|reflexivity].
    - eapply (le_bytes_2 nc (le_bytes 2 af)); [exact Hnc|reflexivity].
    - eapply (le_bytes_4 sr (le_bytes 2 af ++ le_bytes 2 nc)); [exact Hsr|].
      rewrite <- !app_assoc. reflexivity.
    - eapply (le_bytes_4 br (le_bytes 2 af ++ le_bytes 2 nc ++ le_bytes 4 sr));
        [exact Hbr|].
      rewrite <- !app_assoc. reflexivity.
    - eapply (le_bytes_2 ba (le_bytes 2 af ++ le_bytes 2 nc ++ le_bytes 4 sr
                               ++ le_bytes 4 br)); [exact Hba|].
      rewrite <- !app_assoc. reflexivity.
    - eapply (le_bytes_2 bps (le_bytes 2 af ++ le_bytes 2 nc ++ le_bytes 4 sr
                                ++ le_bytes 4 br ++ le_bytes 2 ba)); [exact Hbps|].
      rewrite <- !app_assoc. reflexivity.
  Qed.

  (** C4 (as the code has it): take a well-formed stream whose chunks
      are a format chunk, then any ignorable chunks, then the data
      chunk, the format chunk beginning with the sixteen bytes that lay
      out a format code, channels, a sample rate, a byte rate, a block
      alignment and bits per sample, least significant byte first. If
      the format code is 1 or 0xFFFE the parser returns exactly these
      values, and leaves the stream at the first byte after the data
      chunk's header: each ignorable chunk is stepped over by its
      declared size plus one padding byte when that size is odd. With
      any other format code the parser fails at the data chunk, with
      the error that names the code. *)
Theorem ReadWavHeader_fmt_ignorable_data
      (riff_size : list byte) (fmt : Chunk) (h : WavHeader) (extension : list byte)
      (cs : list Chunk) (data_size rest : list byte) :
    length riff_size = 4%nat ->
    well_formed fmt -> tag fmt = tag_fmt ->
    fits h -> payload fmt = fmt_fields h ++ extension ->
    Forall ignorable cs ->
    length data_size = 4%nat ->
    let s := tag_RIFF ++ riff_size ++ tag_WAVE
               ++ encode fmt ++ concat (map encode cs)
               ++ tag_data ++ data_size ++ rest in
    (supported (AudioFormat h) -> ReadWavHeader s = Some (inr (h, rest)))
    /\ (~ supported (AudioFormat h) ->
        ReadWavHeader s = Some (inl (ErrUnsupported (AudioFormat h)))).
  Proof.
    intros Hrs Hwf Hfmt Hfits Hpl Hcs Hds s.
    assert (H16 : (16 <= length (payload fmt))%nat).
    { rewrite Hpl, length_app. unfold fmt_fields.
      rewrite !length_app, !length_le_bytes. lia. }
    assert (Hh : parse_fmt (payload fmt) = h)
      by (rewrite Hpl; apply parse_fmt_fields; exact Hfits).
    assert (Hwalk : forall r,
               Scan h true ((tag_data ++ data_size) ++ rest) r ->
               ReadWavHeader s = Some r).
    { intros r Hr. apply ReadWavHeader_Parse. subst s.
      replace (tag_RIFF ++ riff_size ++ tag_WAVE ++ encode fmt
                 ++ concat (map encode cs) ++ tag_data ++ data_size ++ rest)
        with ((tag_RIFF ++ riff_size ++ tag_WAVE) ++ encode fmt
                 ++ concat (map encode cs) ++ (tag_data ++ data_size) ++ rest)
        by (rewrite <- !app_assoc; reflexivity).
      apply Parse_chunks.
      - rewrite !length_app, Hrs. reflexivity.
      - reflexivity.
      - rewrite app_assoc, drop_app_length'
          by (rewrite length_app, Hrs; reflexivity).
        reflexivity.
      - apply Scan_over_fmt; [assumption..|]. rewrite Hh.
        apply Scan_over_ignorables; assumption. }
    assert (Hlen : length (tag_data ++ data_size) = 8%nat)
      by (rewrite length_app, Hds; reflexivity).
    split; intros Hsup; apply Hwalk.
    - apply Scan_data; [exact Hlen|apply (take_app_length tag_data)|exact Hsup].
    - apply Scan_data_unsupported;
        [exact Hlen|apply (take_app_length tag_data)|exact Hsup].
  Qed.

  (** A format chunk: PCM, 2 channels, 48000 Hz, 16 bits. *)
Definition fmt_example : Chunk :=
    mkChunk tag_fmt
      [Byte.x10; Byte.x00; Byte.x00; Byte.x00]
      [Byte.x01; Byte.x00; Byte.x02; Byte.x00;
       Byte.x80; Byte.xbb; Byte.x00; Byte.x00;
       Byte.x00; Byte.xee; Byte.x02; Byte.x00;
       Byte.x04; Byte.x00; Byte.x10; Byte.x00]
      [].

  (** A LIST chunk of three bytes, with its padding byte. *)
Definition list_example : Chunk :=
    mkChunk (list_byte_of_string "LIST")
      [Byte.x03; Byte.x00; Byte.x00; Byte.x00]
      [Byte.x61; Byte.x62; Byte.x63]
      [Byte.x00].

  (** The header of [fmt_example]. *)
Definition header_example : WavHeader := mkWavHeader 1 2 48000 192000 4 16.

  (** A format chunk of 18 bytes: IEEE float (format code 3), 1
      channel, 44100 Hz, 32 bits, and an empty extension. *)
Definition fmt_float_example : Chunk :=
    mkChunk tag_fmt
      [Byte.x12; Byte.x00; Byte.x00; Byte.x00]
      [Byte.x03; Byte.x00; Byte.x01; Byte.x00;
       Byte.x44; Byte.xac; Byte.x00; Byte.x00;
       Byte.x10; Byte.xb1; Byte.x02; Byte.x00;
       Byte.x04; Byte.x00; Byte.x20; Byte.x00;
       Byte.x00; Byte.x00]
      [].

Lemma ReadWavHeader_fmt_ignorable_data_witness :
    exists h,
      ReadWavHeader (tag_RIFF ++ replicate 4 Byte.xff ++ tag_WAVE
                       ++ encode fmt_example ++ concat (map encode [list_example])
                       ++ tag_data ++ replicate 4 Byte.xff ++ [Byte.x07; Byte.x08])
      = Some (inr (h, [Byte.x07; Byte.x08]))
      /\ AudioFormat h = 1 /\ NumChannels h = 2 /\ SampleRate h = 48000
      /\ BitsPerSample h = 16.
  Proof.
    exists header_example. split; [|repeat split].
    apply (ReadWavHeader_fmt_ignorable_data (replicate 4 Byte.xff) fmt_example
             header_example [] [list_example] (replicate 4 Byte.xff)
             [Byte.x07; Byte.x08]).
    - reflexivity.
    - repeat split.
    - reflexivity.
    - unfold fits. cbn. lia.
    - reflexivity.
    - constructor; [|constructor].
      split; [repeat split|]. split; intros Hc; discriminate Hc.
    - reflexivity.
    - left. reflexivity.
  Defined.

  (** C4 as stated fails: a well-formed stream whose chunks are a
      format chunk, a LIST chunk and the data chunk, the format chunk
      saying IEEE float (format code 3), 1 channel, 44100 Hz, 32 bits:
      the parser returns no channels, rate or bits per sample, it fails
      with the error for an unsupported format. *)
Lemma ReadWavHeader_refuses_float_format :
    let s := tag_RIFF ++ replicate 4 Byte.xff ++ tag_WAVE
               ++ encode fmt_float_example ++ encode list_example
               ++ tag_data ++ [Byte.x02; Byte.x00; Byte.x00; Byte.x00]
               ++ [Byte.x07; Byte.x08] in
    well_formed fmt_float_example /\ tag fmt_float_example = tag_fmt
    /\ payload fmt_float_example
       = fmt_fields (mkWavHeader 3 1 44100 176400 4 32) ++ [Byte.x00; Byte.x00]
    /\ ignorable list_example
    /\ ReadWavHeader s = Some (inl (ErrUnsupported 3)).
  Proof.
    cbv zeta. split; [repeat split|]. split; [reflexivity|].
    split; [reflexivity|]. split.
    - split; [repeat split|]. split; intros Hc; discriminate Hc.
    - vm_compute. reflexivity.
  Qed.

  (** C5 (as the code has it): the parser always returns, and it fails
      with a given error exactly when the format relation does: the
      stream ends before the prologue, a chunk header, a format payload
      or a skipped payload is complete; or the magic is wrong; or the
      data chunk comes before any format chunk; or the format code at
      the data chunk is neither 1 nor 0xFFFE; or a format chunk
      declares fewer than 16 bytes. *)
Theorem ReadWavHeader_fails_exactly_when (s : list byte) :
    is_Some (ReadWavHeader s)
    /\ (forall e, ReadWavHeader s = Some (inl e) <-> Parse s (inl e)).
  Proof.
    split; [apply ReadWavHeader_total|].
    intros e. apply ReadWavHeader_Parse.
  Qed.

  (** C5 as stated fails: a stream that is just a correct prologue
      makes the parser fail with EOF, although the magic is right and
      there is no chunk at all, so none of the four listed reasons. *)
Lemma ReadWavHeader_fails_on_truncated :
    let s := tag_RIFF ++ replicate 4 Byte.x00 ++ tag_WAVE in
    ReadWavHeader s = Some (inl (ErrIO EOF))
    /\ take 4 s = tag_RIFF /\ take 4 (drop 8 s) = tag_WAVE /\ drop 12 s = [].
  Proof. vm_compute. repeat split. Qed.

End WavClaims.

(** ** The player's operations *)

Module PlayerClaims.

  Import Player.



  (** C8 (as the code has it): [SetVolume(level)] stores [level]
      clamped into [0, 256], so 1000 gives 256 and -5 gives 0, and
      then takes the slot of the volume channel whether or not a
      session is active; when the slot is already taken the post is
      dropped and nothing but the volume changes. It never waits. *)
Theorem SetVolume_spec (level : Z) (p : Player) :
    Volume (SetVolume level p) = Z.max 0 (Z.min 256 level)
    /\ volumeChangeChan (SetVolume level p) = true
    /\ (volumeChangeChan p = true ->
        SetVolume level p = set_Volume (Z.max 0 (Z.min 256 level)) p)
    /\ Queue (SetVolume level p) = Queue p
    /\ encoding (SetVolume level p) = encoding p
    /\ stream (SetVolume level p) = stream p
    /\ Volume (SetVolume 1000 p) = 256
    /\ Volume (SetVolume (-5) p) = 0.
  Proof.
    assert (Hclamp : (let vol := if level <? 0 then 0 else level in
                      if 256 <? vol then 256 else vol)
                     = Z.max 0 (Z.min 256 level)).
    { cbv zeta. destruct (Z.ltb_spec level 0); destruct (Z.ltb_spec 256 level);
        try lia; destruct (Z.ltb_spec 256 0); lia. }
    unfold SetVolume. cbv zeta in Hclamp |- *. rewrite Hclamp.
    destruct p as [g vc q np ip ipa v h lm lc st sk vch dn en sm].
    cbn. destruct vch; cbn; repeat split; intros; try discriminate; reflexivity.
  Qed.

  (** C8 as stated fails: on a player that was just made, with no
      session, [SetVolume] still posts the notification. *)
Lemma SetVolume_posts_without_session :
    let p := NewPlayer "guild" 256 in
    encoding p = None /\ stream p = None /\ volumeChangeChan p = false
    /\ volumeChangeChan (SetVolume 100 p) = true.
  Proof. repeat split. Qed.

End PlayerClaims.

(** ** The manager *)

Module ManagerClaims.

  Import Manager.

  (** C9 (as the code has it): [Shutdown] starts one [Stop], in a
      goroutine of its own, for every registered player and for no
      other, and returns without waiting for them; it detaches
      nothing: the registry afterwards is the registry before, and
      every player can still be looked up. *)
Theorem Shutdown_spec (m : Manager) :
    (Shutdown m).1 = m
    /\ length (Shutdown m).2 = size (players m)
    /\ (forall h, h ∈ (Shutdown m).2 <-> exists g, GetPlayer g m = Some h)
    /\ (forall g, GetPlayer g (Shutdown m).1 = GetPlayer g m).
  Proof.
    unfold Shutdown, GetPlayer. cbn [fst snd].
    split; [reflexivity|]. split; [|split; [|reflexivity]].
    - rewrite length_fmap. apply length_map_to_list.
    - intros h. rewrite list_elem_of_fmap. split.
      + intros ([g h'] & -> & Hin). exists g.
        apply elem_of_map_to_list. exact Hin.
      + intros [g Hg]. exists (g, h). split; [reflexivity|].
        apply elem_of_map_to_list. exact Hg.
  Qed.

  (** C9 as stated fails: after [Shutdown] the registry still holds
      the player. *)
Lemma Shutdown_keeps_players :
    let m := (GetOrCreatePlayer "guild" NewManager).2 in
    GetPlayer "guild" m = Some 0%nat
    /\ GetPlayer "guild" (Shutdown m).1 = Some 0%nat
    /\ (Shutdown m).2 = [0%nat].
  Proof. vm_compute. repeat split. Qed.

End ManagerClaims.

(** ** One song: the teardown *)

Module StreamClaims.

  Import Player Stream.

Definition volume_update (a : Action) : Prop := exists vol, a = ScalerSetVolume vol.

  (** The control loop touches the volume slot and the scaler only; it
      can panic in a volume update and nowhere else, and once a
      terminating event is among those that arrive it does not wait. *)
Lemma control_loop_exit (env : Env) (evs : list Event) :
    forall p,
      let res := control_loop env evs p in
      encoding res.1.1 = encoding p /\ stream res.1.1 = stream p
      /\ Forall volume_update res.1.2
      /\ (forall site, res.2 = Panicked site ->
            site = AtVolumeUpdate /\ panic_at env = Some AtVolumeUpdate)
      /\ (Exists (fun ev => terminating ev = true) evs -> res.2 <> Waiting).
  Proof.
    induction evs as [|ev evs IH]; intros p; cbv zeta.
    - cbn. repeat split; try constructor; try discriminate.
      intros Hex. inversion Hex.
    - destruct ev; cbn [control_loop];
        try (cbn; repeat split; try constructor; discriminate).
      destruct (panics env AtVolumeUpdate) eqn:Hpan.
      + cbn [fst snd].
        split; [destruct p; reflexivity|]. split; [destruct p; reflexivity|].
        split; [constructor|]. split; [|discriminate].
        intros site [= <-]. split; [reflexivity|].
        unfold panics in Hpan.
        destruct (panic_at env) as [[]|]; try discriminate Hpan. reflexivity.
      + specialize (IH (set_volumeChangeChan false p)). cbv zeta in IH.
        destruct (control_loop env evs (set_volumeChangeChan false p)) as [[p' acts] ex].
        cbn [fst snd] in *. destruct IH as (Henc & Hstr & Hacts & Hsite & Hex).
        split; [rewrite Henc; destruct p; reflexivity|].
        split; [rewrite Hstr; destruct p; reflexivity|].
        split; [constructor; [eexists; reflexivity|exact Hacts]|].
        split; [exact Hsite|].
        intros HE. apply Hex.
        inversion HE as [? ? Hc|]; [discriminate Hc|assumption].
  Qed.

Lemma not_volume_update (a : Action) (acts : list Action) :
    Forall volume_update acts -> ~ volume_update a -> a ∉ acts.
  Proof.
    intros Hacts Ha Hin.
    exact (Ha (proj1 (Forall_forall _ _) Hacts a Hin)).
  Qed.

  (** Where an action that is no volume update is, in a list that ends
      in volume updates. *)
Ltac not_among Hacts :=
    let Hin := fresh "Hin" in
    intros Hin;
    repeat (first [apply elem_of_app in Hin as [Hin|Hin]
                  |apply elem_of_cons in Hin as [Hin|Hin]; [discriminate Hin|]
                  |apply elem_of_nil in Hin; contradiction]);
    try (revert Hin; apply (not_volume_update _ _ Hacts);
         intros [vol Hvol]; discriminate Hvol);
    repeat (first [apply elem_of_cons in Hin as [Hin|Hin]; [discriminate Hin|]
                  |apply elem_of_nil in Hin; contradiction]).

  (** The body once the session exists, exit by exit. *)
Lemma with_session_exit (env : Env) (p : Player) :
    let res := with_session env p in
    (Exists (fun ev => terminating ev = true) (events env) ->
       res.2 <> Waiting /\ (panic_at env = None -> res.2 = Returned))
    /\ (res.2 = Returned ->
          (exists before, res.1.2 = before ++ [Cleanup; Speaking false]
                          /\ (Cleanup ∉ before) /\ (Speaking false ∉ before))
          /\ encoding res.1.1 = None /\ stream res.1.1 = None)
    /\ (forall site, res.2 = Panicked site ->
          panic_at env = Some site
          /\ (Speaking false ∉ res.1.2)
          /\ (site <> AtSpeakingFalse ->
                (Cleanup ∉ res.1.2) /\ encoding res.1.1 = Some (session env))
          /\ (site = AtSpeakingFalse ->
                (exists before, res.1.2 = before ++ [Cleanup] /\ (Cleanup ∉ before))
                /\ encoding res.1.1 = None /\ stream res.1.1 = None)).
  Proof.
    cbv zeta. unfold with_session.
    pose proof (control_loop_exit env (events env)
                  (set_stream (Some (session env))
                     (set_encoding (Some (session env)) p))) as Hl.
    cbv zeta in Hl.
    destruct (control_loop env (events env) _) as [[p' acts] ex].
    cbn [fst snd] in Hl. destruct Hl as (Henc & Hstr & Hacts & Hsite & Hex).
    assert (Henc' : encoding p' = Some (session env))
      by (rewrite Henc; destruct p; reflexivity).
    assert (Hp0 : encoding (set_encoding (Some (session env)) p) = Some (session env))
      by (destruct p; reflexivity).
    unfold panics.
    destruct (panic_at env) as [[]|] eqn:Hp; cbn [fst snd].
    - (* Speaking(true) *)
      split; [intros _; split; [discriminate|intros Hc; discriminate Hc]|].
      split; [intros Hc; discriminate Hc|].
      intros site [= <-]. split; [reflexivity|].
      split; [apply not_elem_of_nil|].
      split; [intros _; split; [apply not_elem_of_nil|exact Hp0]|].
      intros Hc; discriminate Hc.
    - (* the scaler's SetVolume *)
      split; [intros _; split; [discriminate|intros Hc; discriminate Hc]|].
      split; [intros Hc; discriminate Hc|].
      intros site [= <-]. split; [reflexivity|].
      split; [not_among Hacts|].
      split; [intros _; split; [not_among Hacts|exact Hp0]|].
      intros Hc; discriminate Hc.
    - (* NewStream *)
      split; [intros _; split; [discriminate|intros Hc; discriminate Hc]|].
      split; [intros Hc; discriminate Hc|].
      intros site [= <-]. split; [reflexivity|].
      split; [not_among Hacts|].
      split; [intros _; split; [not_among Hacts|exact Hp0]|].
      intros Hc; discriminate Hc.
    - (* a volume update *)
      destruct ex as [|site0|]; cbn [fst snd].
      + rewrite Henc'. destruct (decide (Some (session env) = Some (session env)));
          [|contradiction].
        split; [intros _; split; [discriminate|intros Hc; discriminate Hc]|].
        split; [|intros site Hc; discriminate Hc].
        intros _. split; [|destruct p'; split; reflexivity].
        eexists ([Speaking true; ScalerSetVolume _; MakeStream] ++ acts).
        split; [rewrite <- app_assoc; reflexivity|].
        split; not_among Hacts.
      + split; [intros _; split; [discriminate|intros Hc; discriminate Hc]|].
        split; [intros Hc; discriminate Hc|].
        intros site [= <-]. destruct (Hsite site0 eq_refl) as [-> _].
        split; [reflexivity|].
        split; [not_among Hacts|].
        split; [intros _; split; [not_among Hacts|exact Henc']|].
        intros Hc; discriminate Hc.
      + split; [intros HE; exfalso; exact (Hex HE eq_refl)|].
        split; [intros Hc; discriminate Hc|intros site Hc; discriminate Hc].
    - (* Cleanup *)
      destruct ex as [|site0|]; cbn [fst snd].
      + split; [intros _; split; [discriminate|intros Hc; discriminate Hc]|].
        split; [intros Hc; discriminate Hc|].
        intros site [= <-]. split; [reflexivity|].
        split; [not_among Hacts|].
        split; [intros _; split; [not_among Hacts|exact Henc']|].
        intros Hc; discriminate Hc.
      + destruct (Hsite site0 eq_refl) as [_ Hc]. discriminate Hc.
      + split; [intros HE; exfalso; exact (Hex HE eq_refl)|].
        split; [intros Hc; discriminate Hc|intros site Hc; discriminate Hc].
    - (* Speaking(false) *)
      destruct ex as [|site0|]; cbn [fst snd].
      + rewrite Henc'. destruct (decide (Some (session env) = Some (session env)));
          [|contradiction].
        split; [intros _; split; [discriminate|intros Hc; discriminate Hc]|].
        split; [intros Hc; discriminate Hc|].
        intros site [= <-]. split; [reflexivity|].
        split; [not_among Hacts|].
        split; [intros Hc; contradiction|].
        intros _. split; [|destruct p'; split; reflexivity].
        eexists ([Speaking true; ScalerSetVolume _; MakeStream] ++ acts).
        split; [rewrite <- app_assoc; reflexivity|not_among Hacts].
      + destruct (Hsite site0 eq_refl) as [_ Hc]. discriminate Hc.
      + split; [intros HE; exfalso; exact (Hex HE eq_refl)|].
        split; [intros Hc; discriminate Hc|intros site Hc; discriminate Hc].
    - (* no panic *)
      destruct ex as [|site0|]; cbn [fst snd].
      + rewrite Henc'. destruct (decide (Some (session env) = Some (session env)));
          [|contradiction].
        split; [intros _; split; [discriminate|reflexivity]|].
        split; [|intros site Hc; discriminate Hc].
        intros _. split; [|destruct p'; split; reflexivity].
        eexists ([Speaking true; ScalerSetVolume _; MakeStream] ++ acts).
        split; [rewrite <- app_assoc; reflexivity|].
        split; not_among Hacts.
      + destruct (Hsite site0 eq_refl) as [_ Hc]. discriminate Hc.
      + split; [intros HE; exfalso; exact (Hex HE eq_refl)|].
        split; [intros Hc; discriminate Hc|intros site Hc; discriminate Hc].
  Qed.

  (** C6 (as the code has it): once the encoder session exists,
      [streamSong] ends as soon as a stop, a skip or the encoder's end
      or error arrives, volume changes apart, and it ends in one of two
      ways.
      If no call panics it returns, and whenever it returns the
      teardown has run: the encoder session is released, the transport
      is told to stop sending, and the player's [encoding] and [stream]
      references are cleared.
      If a call panics, it is the two deferred calls that run: the
      response body is closed and the transport is told to stop
      sending, which it had not been told before. When the call that
      panics is one made before the session is released
      ([Speaking(true)], a [SetVolume] of the scaler, [NewStream], the
      session's [Cleanup]), the session is not released and the
      player's [encoding] reference still holds it. Only when it is the
      [Speaking(false)] after [cleanupSession()] that panics has the
      session been released and have the references been cleared. *)
Theorem streamSong_teardown (env : Env) (p : Player) :
    fetch_ok env = true -> header_ok env = true -> encode_ok env = true ->
    let res := streamSong env p in
    (Exists (fun ev => terminating ev = true) (events env) ->
       res.2 <> Waiting /\ (panic_at env = None -> res.2 = Returned))
    /\ (res.2 = Returned -> torn_down res)
    /\ (forall site, res.2 = Panicked site ->
          panic_at env = Some site
          /\ (exists acts, res.1.2 = acts ++ [BodyClose; Speaking false]
                           /\ (Speaking false ∉ acts))
          /\ (site <> AtSpeakingFalse ->
                (Cleanup ∉ res.1.2) /\ encoding res.1.1 = Some (session env))
          /\ (site = AtSpeakingFalse -> torn_down res)).
  Proof.
    intros Hf Hh He. cbv zeta.
    unfold streamSong. rewrite Hf, Hh, He. cbn [negb].
    pose proof (with_session_exit env p) as Hw. cbv zeta in Hw.
    destruct (with_session env p) as [[p' acts] ex]. cbn [fst snd] in *.
    destruct Hw as (Hends & Hret & Hpan).
    split; [exact Hends|]. split.
    - intros ->. destruct (Hret eq_refl) as ((before & -> & _ & _) & Henc & Hstr).
      split; [|split; assumption].
      exists ([Get; ParseHeader; StartPump; Encode] ++ before),
             ([Speaking false] ++ [BodyClose; Speaking false]).
      split; [rewrite <- !app_assoc; reflexivity|].
      apply elem_of_cons. left. reflexivity.
    - intros site ->.
      destruct (Hpan site eq_refl) as (Hat & Hns & Hbefore & Hafter).
      split; [exact Hat|]. split.
      + exists ([Get; ParseHeader; StartPump; Encode] ++ acts).
        split; [rewrite <- app_assoc; reflexivity|].
        intros Hin. apply elem_of_app in Hin as [Hin|Hin]; [|exact (Hns Hin)].
        repeat (apply elem_of_cons in Hin as [Hin|Hin]; [discriminate Hin|]).
        inversion Hin.
      + split.
        * intros Hne. destruct (Hbefore Hne) as [Hnc Henc].
          split; [|exact Henc].
          intros Hin. apply elem_of_app in Hin as [Hin|Hin].
          { repeat (apply elem_of_cons in Hin as [Hin|Hin]; [discriminate Hin|]).
            inversion Hin. }
          apply elem_of_app in Hin as [Hin|Hin]; [exact (Hnc Hin)|].
          repeat (apply elem_of_cons in Hin as [Hin|Hin]; [discriminate Hin|]).
          inversion Hin.
        * intros Heq. destruct (Hafter Heq) as ((before & -> & _) & Henc & Hstr).
          split; [|split; assumption].
          exists ([Get; ParseHeader; StartPump; Encode] ++ before),
                 [BodyClose; Speaking false].
          split; [rewrite <- !app_assoc; reflexivity|].
          apply elem_of_cons. right. apply elem_of_cons. left. reflexivity.
  Qed.

Definition song_env (at_site : option Site) (evs : list Event) : Env :=
    mkEnv true true true 7 at_site evs.

  (** A change of volume, then a skip: with no panic the teardown has
      run; with a panic in the [Speaking(false)] that follows the
      cleanup the deferred calls run after it. *)
Lemma streamSong_teardown_witness :
    ((streamSong (song_env None [EvVolume; EvSkip]) (NewPlayer "guild" 256)).2 = Returned
     /\ torn_down (streamSong (song_env None [EvVolume; EvSkip]) (NewPlayer "guild" 256)))
    /\ ((streamSong (song_env (Some AtSpeakingFalse) [EvVolume; EvSkip])
           (NewPlayer "guild" 256)).1.2
        = [Get; ParseHeader; StartPump; Encode; Speaking true; ScalerSetVolume 256;
           MakeStream; ScalerSetVolume 256; Cleanup; BodyClose; Speaking false]
        /\ torn_down (streamSong (song_env (Some AtSpeakingFalse) [EvVolume; EvSkip])
                        (NewPlayer "guild" 256))).
  Proof.
    split.
    - destruct (streamSong_teardown (song_env None [EvVolume; EvSkip])
                  (NewPlayer "guild" 256) eq_refl eq_refl eq_refl)
        as (Hends & Hret & _).
      destruct (Hends ltac:(apply Exists_cons_tl, Exists_cons_hd; reflexivity))
        as [_ Hr].
      split; [exact (Hr eq_refl)|exact (Hret (Hr eq_refl))].
    - split; [reflexivity|].
      destruct (streamSong_teardown (song_env (Some AtSpeakingFalse) [EvVolume; EvSkip])
                  (NewPlayer "guild" 256) eq_refl eq_refl eq_refl)
        as (_ & _ & Hpan).
      destruct (Hpan AtSpeakingFalse eq_refl) as (_ & _ & _ & Hafter).
      exact (Hafter eq_refl).
  Defined.

  (** C6 as stated fails: when the call that makes the stream panics,
      the deferred calls run (the transport is told to stop sending)
      but the encoder session is never released and the player still
      refers to it. *)
Lemma streamSong_panic_skips_cleanup :
    let res := streamSong (song_env (Some AtMakeStream) [EvStop]) (NewPlayer "guild" 256) in
    res.2 = Panicked AtMakeStream
    /\ Speaking false ∈ res.1.2
    /\ (Cleanup ∉ res.1.2)
    /\ encoding res.1.1 = Some 7%nat
    /\ (~ torn_down res).
  Proof.
    cbv zeta.
    assert (Hnc : Cleanup ∉ (streamSong (song_env (Some AtMakeStream) [EvStop])
                               (NewPlayer "guild" 256)).1.2).
    { vm_compute. intros Hin.
      repeat (apply elem_of_cons in Hin as [Hd|Hin]; [discriminate Hd|]).
      inversion Hin. }
    split; [reflexivity|]. split.
    - apply list_elem_of_In. vm_compute. repeat (first [left; reflexivity|right]).
    - split; [exact Hnc|]. split; [reflexivity|].
      intros [(before & after & Heq & _) _]. apply Hnc. rewrite Heq.
      apply elem_of_app. right. apply elem_of_cons. left. reflexivity.
  Qed.

End StreamClaims.

(** ** Stop against the playback loop *)

Module ConcFacts.

  Import Player Conc.

Lemma disconnect_done (w : World) : done (player (disconnect w)) = done (player w).
  Proof. unfold disconnect. destruct (VoiceConn (player w)); reflexivity. Qed.

Lemma terminal_edit_done (msg : string) (w : World) :
    done (player (terminal_edit msg w)) = done (player w).
  Proof. unfold terminal_edit. destruct (_ && _); reflexivity. Qed.

  (** No step of [Stop] touches the [done] channel. *)
Lemma step_stop_done (pc pc' : stop_pc) (w w' : World) :
    step_stop pc w = Some (pc', w') -> done (player w') = done (player w).
  Proof.
    destruct pc; cbn [step_stop]; intros Hs.
    - injection Hs as _ <-. reflexivity.
    - injection Hs as _ <-. reflexivity.
    - destruct (stopChan (player w)); injection Hs as _ <-; reflexivity.
    - destruct (done (player w)) eqn:Hd; [injection Hs as _ <-; congruence|discriminate].
    - injection Hs as _ <-. apply disconnect_done.
    - injection Hs as _ <-. rewrite terminal_edit_done. reflexivity.
    - discriminate.
  Qed.

  (** A call of [Stop] gets past its wait only when [done] is closed. *)
Lemma step_stop_past_wait (pc pc' : stop_pc) (w w' : World) :
    step_stop pc w = Some (pc', w') ->
    stop_past_wait pc = false -> stop_past_wait pc' = true ->
    done (player w) = true.
  Proof.
    destruct pc; cbn [step_stop stop_past_wait]; intros Hs Hpc Hpc'; try discriminate.
    - injection Hs as <- _. discriminate.
    - injection Hs as <- _. destruct (stopChan (player w)); discriminate.
    - destruct (stopChan (player w)); injection Hs as <- _; discriminate.
    - destruct (done (player w)) eqn:Hd; [reflexivity|discriminate].
  Qed.

  (** While no loop runs and [done] is open, a step keeps it so. *)
Lemma step_never_started (i : nat) (ends : bool) (c c' : Config) :
    never_started c -> step i ends c = Some c' -> never_started c'.
  Proof.
    intros [Hdone Hall]. unfold step.
    destruct (panicked (world c)); [discriminate|].
    destruct (threads c !! i) as [t|] eqn:Hi; [|discriminate]. cbn.
    pose proof (proj1 (Forall_lookup _ _) Hall i t Hi) as [Hloop Hpast].
    destruct (step_thread ends t (world c)) as [[[t' w'] sp]|] eqn:Hst; [|discriminate].
    cbn. intros [= <-]. unfold never_started. cbn [world threads].
    assert (Hgoal : done (player w') = false
                    /\ (is_loop t' = false /\ past_wait t' = false)
                    /\ Forall (fun t => is_loop t = false /\ past_wait t = false) sp).
    { destruct t as [pc|pc|[|pc|b]|[|]]; cbn [step_thread] in Hst.
      - destruct (step_stop pc (world c)) as [[pc' w'']|] eqn:Hss; [|discriminate].
        cbn in Hst. injection Hst as <- <- <-.
        pose proof (step_stop_done _ _ _ _ Hss) as Hd.
        split; [congruence|]. split; [|constructor].
        split; [reflexivity|]. cbn [past_wait] in *.
        destruct (stop_past_wait pc') eqn:Hp'; [|reflexivity].
        pose proof (step_stop_past_wait _ _ _ _ Hss Hpast Hp'). congruence.
      - discriminate Hloop.
      - destruct (registered (world c)); injection Hst as <- <- <-;
          (split; [exact Hdone|]); (split; [split; reflexivity|constructor]).
      - destruct pc; cbn [past_wait stop_past_wait] in Hpast; try discriminate Hpast.
        all: match type of Hst with
             | context [step_stop ?pc0 _] =>
                 destruct (step_stop pc0 (world c)) as [[pc' w'']|] eqn:Hss;
                 [|discriminate]
             end.
        all: cbn in Hst; injection Hst as <- <- <-.
        all: pose proof (step_stop_done _ _ _ _ Hss) as Hd.
        all: split; [congruence|]; split; [|constructor].
        all: split; [reflexivity|]; cbn [past_wait].
        all: destruct (stop_past_wait pc') eqn:Hp'; [|reflexivity].
        all: pose proof (step_stop_past_wait _ _ _ _ Hss eq_refl Hp'); congruence.
      - discriminate Hst.
      - discriminate Hst.
      - injection Hst as <- <- <-. split; [exact Hdone|].
        split; [split; reflexivity|].
        destruct (registered (world c)); repeat constructor. }
    destruct Hgoal as (Hd & Ht & Hsp).
    split; [exact Hd|]. apply Forall_app. split; [|exact Hsp].
    apply Forall_insert; assumption.
  Qed.

Lemma run_never_started (sched : list (nat * bool)) :
    forall c c', never_started c -> run sched c = Some c' -> never_started c'.
  Proof.
    induction sched as [|[i ends] sched IH]; intros c c' Hn; cbn [run].
    - intros [= <-]. exact Hn.
    - destruct (step i ends c) as [c1|] eqn:Hs; [|discriminate]. cbn.
      apply IH. eapply step_never_started; eassumption.
  Qed.

Lemma disconnect_done_mono (w : World) :
    done (player w) = true -> done (player (disconnect w)) = true.
  Proof. rewrite disconnect_done. auto. Qed.

  (** [done] is never reopened. *)
Lemma step_thread_done_mono (ends : bool) (t t' : thread) (w w' : World) sp :
    step_thread ends t w = Some (t', w', sp) ->
    done (player w) = true -> done (player w') = true.
  Proof.
    intros Hst Hd.
    assert (Hstop : forall pc pc' w'', step_stop pc w = Some (pc', w'') ->
                                       done (player w'') = true)
      by (intros pc pc' w'' Hs; rewrite (step_stop_done _ _ _ _ Hs); exact Hd).
    destruct t as [pc|pc|[|pc|b]|[|]]; cbn [step_thread] in Hst.
    - destruct (step_stop pc w) as [[pc' w'']|] eqn:Hss; [|discriminate].
      cbn in Hst. injection Hst as _ <- _. eapply Hstop; eassumption.
    - destruct (step_loop ends pc w) as [[pc' w'']|] eqn:Hsl; [|discriminate].
      cbn in Hst. injection Hst as _ <- _.
      destruct pc; cbn [step_loop] in Hsl;
        try (injection Hsl as _ <-; try exact Hd; try reflexivity).
      + destruct (dequeue (player w)) as [[song|] p'] eqn:Hdq;
          injection Hsl as _ <-; [|exact Hd].
        unfold dequeue in Hdq. destruct (Queue (player w)); [discriminate|].
        injection Hdq as _ <-. exact Hd.
      + rewrite disconnect_done. exact Hd.
      + rewrite terminal_edit_done. exact Hd.
      + destruct (_ || _); [injection Hsl as _ <-; exact Hd|discriminate].
      + destruct (done (player w)) eqn:Hdw; injection Hsl as _ <-; [exact Hdw|reflexivity].
      + discriminate.
    - destruct (registered w); injection Hst as _ <- _; exact Hd.
    - destruct pc;
        try (injection Hst as _ <- _; exact Hd);
        match type of Hst with
        | context [step_stop ?pc0 _] =>
            destruct (step_stop pc0 w) as [[pc' w'']|] eqn:Hss; [|discriminate]
        end;
        cbn in Hst; injection Hst as _ <- _; eapply Hstop; eassumption.
    - discriminate.
    - discriminate.
    - injection Hst as _ <- _. exact Hd.
  Qed.

  (** [done] is closed by the loop's exit and by nothing else. *)
Lemma step_thread_closes_done (ends : bool) (t t' : thread) (w w' : World) sp :
    step_thread ends t w = Some (t', w', sp) ->
    done (player w) = false -> done (player w') = true ->
    t' = T_Loop L_done.
  Proof.
    intros Hst Hd Hd'.
    assert (Hstop : forall pc pc' w'', step_stop pc w = Some (pc', w'') ->
                                       done (player w'') = false)
      by (intros pc pc' w'' Hs; rewrite (step_stop_done _ _ _ _ Hs); exact Hd).
    destruct t as [pc|pc|[|pc|b]|[|]]; cbn [step_thread] in Hst.
    - destruct (step_stop pc w) as [[pc' w'']|] eqn:Hss; [|discriminate].
      cbn in Hst. injection Hst as _ <- _.
      rewrite (Hstop _ _ _ Hss) in Hd'. discriminate.
    - destruct (step_loop ends pc w) as [[pc' w'']|] eqn:Hsl; [|discriminate].
      cbn in Hst. injection Hst as <- <- _.
      destruct pc; cbn [step_loop] in Hsl;
        try (injection Hsl as _ <-; cbn in Hd'; congruence).
      + destruct (dequeue (player w)) as [[song|] p'] eqn:Hdq;
          injection Hsl as _ <-; [|congruence].
        unfold dequeue in Hdq. destruct (Queue (player w)); [discriminate|].
        injection Hdq as _ <-. cbn in Hd'. congruence.
      + injection Hsl as _ <-. rewrite disconnect_done in Hd'. congruence.
      + injection Hsl as _ <-. rewrite terminal_edit_done in Hd'. congruence.
      + destruct (_ || _); [injection Hsl as _ <-; congruence|discriminate].
      + destruct (done (player w)); [discriminate Hd|].
        injection Hsl as <- _. reflexivity.
      + discriminate.
    - destruct (registered w); injection Hst as _ <- _; cbn in Hd'; congruence.
    - destruct pc;
        try (injection Hst as _ <- _; congruence);
        match type of Hst with
        | context [step_stop ?pc0 _] =>
            destruct (step_stop pc0 w) as [[pc' w'']|] eqn:Hss; [|discriminate]
        end;
        cbn in Hst; injection Hst as _ <- _;
        rewrite (Hstop _ _ _ Hss) in Hd'; discriminate.
    - discriminate.
    - discriminate.
    - injection Hst as _ <- _. congruence.
  Qed.

End ConcFacts.

Module ConcClaims.

  Import Player Conc ConcFacts.

  (** What holds of every state reached from one where [done] is open
      and no [Stop] is past its wait: a [Stop] past its wait has seen
      [done] closed, and [done] is closed only once the loop is over. *)
Definition stop_waits (c : Config) : Prop :=
    Forall (fun t => past_wait t = true -> done (player (world c)) = true) (threads c)
    /\ (done (player (world c)) = true -> T_Loop L_done ∈ threads c).

Lemma step_thread_past_wait (ends : bool) (t t' : thread) (w w' : World) sp :
    step_thread ends t w = Some (t', w', sp) ->
    past_wait t = false -> past_wait t' = true -> done (player w) = true.
  Proof.
    intros Hst Hp Hp'.
    destruct t as [pc|pc|[|pc|b]|[|]]; cbn [step_thread] in Hst.
    - destruct (step_stop pc w) as [[pc' w'']|] eqn:Hss; [|discriminate].
      cbn in Hst. injection Hst as <- _ _.
      eapply step_stop_past_wait; eassumption.
    - destruct (step_loop ends pc w) as [[pc' w'']|]; [|discriminate].
      cbn in Hst. injection Hst as <- _ _. discriminate Hp'.
    - destruct (registered w); injection Hst as <- _ _; discriminate Hp'.
    - destruct pc; cbn [past_wait stop_past_wait] in Hp; try discriminate Hp;
        match type of Hst with
        | context [step_stop ?pc0 _] =>
            destruct (step_stop pc0 w) as [[pc' w'']|] eqn:Hss; [|discriminate]
        end;
        cbn in Hst; injection Hst as <- _ _;
        eapply step_stop_past_wait; try eassumption; reflexivity.
    - discriminate.
    - discriminate.
    - injection Hst as <- _ _. discriminate Hp'.
  Qed.

Lemma spawned_not_past_wait (ends : bool) (t t' : thread) (w w' : World) sp :
    step_thread ends t w = Some (t', w', sp) ->
    Forall (fun s => past_wait s = false) sp.
  Proof.
    intros Hst.
    destruct t as [pc|pc|[|pc|b]|[|]]; cbn [step_thread] in Hst.
    - destruct (step_stop pc w) as [[? ?]|]; [|discriminate].
      cbn in Hst. injection Hst as _ _ <-. constructor.
    - destruct (step_loop ends pc w) as [[? ?]|]; [|discriminate].
      cbn in Hst. injection Hst as _ _ <-. constructor.
    - destruct (registered w); injection Hst as _ _ <-; constructor.
    - destruct pc; try (injection Hst as _ _ <-; constructor);
        match type of Hst with
        | context [step_stop ?pc0 _] =>
            destruct (step_stop pc0 w) as [[? ?]|]; [|discriminate]
        end;
        cbn in Hst; injection Hst as _ _ <-; constructor.
    - discriminate.
    - discriminate.
    - injection Hst as _ _ <-. destruct (registered w); repeat constructor.
  Qed.

Lemma step_stop_waits (i : nat) (ends : bool) (c c' : Config) :
    stop_waits c -> step i ends c = Some c' -> stop_waits c'.
  Proof.
    intros [Hall Hloop]. unfold step.
    destruct (panicked (world c)); [discriminate|].
    destruct (threads c !! i) as [t|] eqn:Hi; [|discriminate]. cbn.
    destruct (step_thread ends t (world c)) as [[[t' w'] sp]|] eqn:Hst; [|discriminate].
    cbn. intros [= <-]. unfold stop_waits. cbn [world threads].
    pose proof (step_thread_done_mono _ _ _ _ _ _ Hst) as Hmono.
    pose proof (proj1 (Forall_lookup _ _) Hall i t Hi) as Ht.
    split.
    - apply Forall_app. split.
      + apply Forall_insert.
        * eapply Forall_impl; [exact Hall|]. cbn. intros s Hs Hp. auto.
        * intros Hp'. destruct (past_wait t) eqn:Hp; [auto|].
          apply Hmono. eapply step_thread_past_wait; eassumption.
      + eapply Forall_impl; [eapply spawned_not_past_wait; exact Hst|].
        cbn. intros s Hs Hp. congruence.
    - intros Hd'. apply elem_of_app. left.
      destruct (done (player (world c))) eqn:Hd.
      + specialize (Hloop eq_refl).
        apply list_elem_of_lookup in Hloop as [j Hj].
        apply list_elem_of_lookup. exists j.
        destruct (decide (i = j)) as [->|Hne].
        * rewrite Hi in Hj. injection Hj as ->. discriminate Hst.
        * rewrite list_lookup_insert_ne by exact Hne. exact Hj.
      + rewrite (step_thread_closes_done _ _ _ _ _ _ Hst Hd Hd').
        apply list_elem_of_lookup. exists i.
        apply list_lookup_insert_eq. eapply lookup_lt_Some; exact Hi.
  Qed.

Lemma run_stop_waits (sched : list (nat * bool)) :
    forall c c', stop_waits c -> run sched c = Some c' -> stop_waits c'.
  Proof.
    induction sched as [|[i ends] sched IH]; intros c c' Hn; cbn [run].
    - intros [= <-]. exact Hn.
    - destruct (step i ends c) as [c1|] eqn:Hs; [|discriminate]. cbn.
      apply IH. eapply step_stop_waits; eassumption.
  Qed.

  (** A player that plays: it is registered and connected, a loop
      runs, and the given songs are queued. *)
Definition playing (queue : list Song) (callers : list thread) : Config :=
    mkConfig
      (mkWorld (set_Queue queue (set_IsPlaying true (set_VoiceConn (Some 0%nat)
                  (set_LastChannelID "channel" (set_LastMsgID "message"
                     (NewPlayer "guild" 256))))))
               true [] false)
      (T_Loop L_top :: callers).

  (** C3, at the failing input: two calls of [Stop] on a playing
      player. Both find the stop channel open in their [select], both
      go on to [close] it, and the second [close] panics. *)
Lemma Stop_twice_concurrently_panics :
    let c0 := playing [] [T_Stop S_lock; T_Stop S_lock] in
    exists c,
      run [(1, false); (2, false); (1, false); (2, false); (1, false); (2, false)]%nat c0
      = Some c
      /\ panicked (world c) = true.
  Proof. eexists. split; [vm_compute; reflexivity|reflexivity]. Qed.

  (** A made, never started, registered player. *)
Definition idle (callers : list thread) : Config :=
    mkConfig (mkWorld (NewPlayer "guild" 256) true [] false) callers.

  (** C10 (as the code has it): [Stop] gets past its wait only when
      [done] is closed, which only the end of [playLoop] does. So on a
      player that was made and never started, [done] stays open and no
      call of [Stop] ever returns, whether made directly, by [Remove]
      or in a goroutine started by [Shutdown]; [Remove], which calls
      [Stop] itself, never returns once it found the player.
      [Shutdown] itself does not wait: it returns in one step. *)
Theorem Stop_never_returns_when_never_started
      (c0 c : Config) (sched : list (nat * bool)) :
    never_started c0 ->
    run sched c0 = Some c ->
    done (player (world c)) = false
    /\ Forall (fun t => t <> T_Stop S_returned /\ t <> T_Remove (R_returned true)
                        /\ past_wait t = false) (threads c)
    /\ (forall i, threads c !! i = Some (T_Shutdown false) ->
                  panicked (world c) = false ->
                  exists c', step i false c = Some c'
                             /\ threads c' !! i = Some (T_Shutdown true)).
  Proof.
    intros Hn Hrun.
    pose proof (run_never_started sched c0 c Hn Hrun) as [Hd Hall].
    split; [exact Hd|]. split.
    - eapply Forall_impl; [exact Hall|]. cbn. intros t [_ Hp].
      repeat split; [intros ->; discriminate Hp..|exact Hp].
    - intros i Hi Hpan. unfold step. rewrite Hpan, Hi. cbn.
      eexists. split; [reflexivity|]. cbn [threads].
      rewrite lookup_app_l
        by (rewrite length_insert; eapply lookup_lt_Some; exact Hi).
      apply list_lookup_insert_eq. eapply lookup_lt_Some; exact Hi.
  Qed.

Lemma Stop_never_returns_when_never_started_witness :
    exists c,
      run [(0, false); (0, false); (0, false); (0, false); (1, false)]%nat
          (idle [T_Remove R_lock; T_Stop S_lock]) = Some c
      /\ done (player (world c)) = false
      /\ Forall (fun t => t <> T_Stop S_returned /\ t <> T_Remove (R_returned true)
                          /\ past_wait t = false) (threads c)
      /\ (forall i, threads c !! i = Some (T_Shutdown false) ->
                    panicked (world c) = false ->
                    exists c', step i false c = Some c'
                               /\ threads c' !! i = Some (T_Shutdown true)).
  Proof.
    eexists. split; [vm_compute; reflexivity|].
    apply (Stop_never_returns_when_never_started
             (idle [T_Remove R_lock; T_Stop S_lock]) _
             [(0, false); (0, false); (0, false); (0, false); (1, false)]%nat).
    - split; [reflexivity|]. repeat constructor.
    - vm_compute. reflexivity.
  Defined.

  (** C10 as stated fails for [Shutdown]: on a never started player
      it returns at its first step, leaving behind the goroutine whose
      [Stop] will wait for ever. *)
Lemma Shutdown_does_not_block :
    never_started (idle [T_Shutdown false])
    /\ exists c, run [(0%nat, false)] (idle [T_Shutdown false]) = Some c
                 /\ threads c = [T_Shutdown true; T_Stop S_lock].
  Proof.
    split; [split; [reflexivity|repeat constructor]|].
    eexists. split; [vm_compute; reflexivity|reflexivity].
  Qed.

End ConcClaims.

(** ** More on the volume scaler *)

Module VolumeMore.

  Import F64 Volume VolumeSpec BytesFacts F64Facts MulFacts VolumeFacts.

Lemma floor_even (n : nat) : (n - n mod 2 = 2 * (n / 2))%nat.
  Proof. pose proof (Nat.div_mod_eq n 2). lia. Qed.

  (** A conversion of the values that [int16] cannot hold, to run the
      examples with: none of their inputs reaches it, and the theorems
      hold for every conversion. It is not what a machine does: on
      amd64 the code converts a NaN to 0. *)
Definition u_min : float -> Z := fun _ => -32768.

  (** A scaler holding one byte back, over a source with three more. *)
Definition odd_scaler (vol : float) : PCMVolume ScriptReader.t :=
    mkPCMVolume [([Byte.x02; Byte.x03; Byte.x04], None)] vol [Byte.x01].

Definition frame : list byte := replicate 8 Byte.x00.

Lemma Read_shape
      (u : float -> Z) {R : Type} `{Reader R}
      (v : PCMVolume R) (p data : list byte) (err : option error) (r' : R) :
    (length (held v) < length p)%nat ->
    rd_read (src v) (length p - length (held v)) = (data, err, r') ->
    let total := (length (held v) + length data)%nat in
    (Read u v p).2 = ((2 * (total / 2))%nat, err)
    /\ length (leftover (Read u v p).1.1) = (total mod 2)%nat
    /\ src (Read u v p).1.1 = r'
    /\ volume (Read u v p).1.1 = volume v
    /\ length (Read u v p).1.2 = length p.
  Proof.
    intros Hlen Hrd total.
    pose proof (rd_bound (src v) (length p - length (held v))) as Hb.
    rewrite Hrd in Hb. cbn [fst] in Hb.
    rewrite (Read_spec u v p data err r' Hlen Hrd). cbn [fst snd src volume leftover].
    rewrite length_app. fold total.
    split; [rewrite floor_even; reflexivity|].
    split; [|split; [reflexivity|split; [reflexivity|]]].
    - pose proof (Nat.Div0.mod_le total 2) as Hle.
      destruct (mod2_cases total) as [Hm|Hm]; rewrite Hm in *.
      + case_decide; [reflexivity|lia].
      + case_decide; [lia|]. rewrite length_drop, length_app. fold total. lia.
    - rewrite !length_app, processed_length, length_take, !length_drop, length_app.
      fold total. lia.
  Qed.

Lemma Read_bytes_through
      (u : float -> Z) {R : Type} `{Reader R}
      (v : PCMVolume R) (p data : list byte) (err : option error) (r' : R) :
    (length (held v) < length p)%nat ->
    rd_read (src v) (length p - length (held v)) = (data, err, r') ->
    must_scale (volume v) = false ->
    delivered (Read u v p) ++ leftover (Read u v p).1.1 = held v ++ data.
  Proof.
    intros Hlen Hrd Hms.
    rewrite (Read_spec u v p data err r' Hlen Hrd).
    unfold delivered, processed. cbn [fst snd leftover]. rewrite Hms.
    set (total := held v ++ data).
    assert (Hle : (length total - length total mod 2 <= length total)%nat) by lia.
    rewrite take_app_le by (rewrite length_take; lia).
    rewrite take_take. rewrite Nat.min_id.
    destruct (mod2_cases (length total)) as [Hm|Hm]; rewrite Hm.
    - case_decide; [|lia]. rewrite Nat.sub_0_r, firstn_all, app_nil_r. reflexivity.
    - case_decide; [lia|]. apply take_drop.
  Qed.

  (** X1: a read into a buffer with room for the held byte and one
      more delivers a whole number of samples, the even part of the
      held byte plus what the source gave; it holds one byte back
      exactly when that total is odd, keeps the factor, and reports the
      source's error as it is. *)
Theorem Read_delivers_whole_samples
      (u : float -> Z) {R : Type} `{Reader R}
      (v : PCMVolume R) (p data : list byte) (err : option error) (r' : R) :
    (length (held v) < length p)%nat ->
    rd_read (src v) (length p - length (held v)) = (data, err, r') ->
    let total := (length (held v) + length data)%nat in
    (Read u v p).2 = ((2 * (total / 2))%nat, err)
    /\ length (delivered (Read u v p)) = (2 * (total / 2))%nat
    /\ length (leftover (Read u v p).1.1) = (total mod 2)%nat
    /\ (length (delivered (Read u v p)) + length (leftover (Read u v p).1.1) = total)%nat
    /\ src (Read u v p).1.1 = r'
    /\ volume (Read u v p).1.1 = volume v
    /\ length (Read u v p).1.2 = length p.
  Proof.
    intros Hlen Hrd total.
    destruct (Read_shape u v p data err r' Hlen Hrd) as (Hres & Hlo & Hsrc & Hvol & Hbuf).
    fold total in Hres, Hlo.
    pose proof (rd_bound (src v) (length p - length (held v))) as Hb.
    rewrite Hrd in Hb. cbn [fst] in Hb.
    pose proof (Nat.div_mod_eq total 2) as Hdm.
    assert (Hdel : length (delivered (Read u v p)) = (2 * (total / 2))%nat).
    { unfold delivered. rewrite Hres. cbn [fst]. rewrite length_take, Hbuf.
      unfold total in *. lia. }
    split; [exact Hres|]. split; [exact Hdel|]. split; [exact Hlo|].
    split; [lia|]. split; [exact Hsrc|]. split; [exact Hvol|exact Hbuf].
  Qed.

Lemma Read_delivers_whole_samples_witness :
    let total := (length (held (odd_scaler 0.5)) + length [Byte.x02; Byte.x03; Byte.x04])%nat in
    (Read u_min (odd_scaler 0.5) frame).2 = ((2 * (total / 2))%nat, None)
    /\ length (delivered (Read u_min (odd_scaler 0.5) frame)) = (2 * (total / 2))%nat
    /\ length (leftover (Read u_min (odd_scaler 0.5) frame).1.1) = (total mod 2)%nat
    /\ (length (delivered (Read u_min (odd_scaler 0.5) frame))
        + length (leftover (Read u_min (odd_scaler 0.5) frame).1.1) = total)%nat
    /\ src (Read u_min (odd_scaler 0.5) frame).1.1 = []
    /\ volume (Read u_min (odd_scaler 0.5) frame).1.1 = volume (odd_scaler 0.5)
    /\ length (Read u_min (odd_scaler 0.5) frame).1.2 = length frame.
  Proof.
    apply (Read_delivers_whole_samples u_min (odd_scaler 0.5) frame
             [Byte.x02; Byte.x03; Byte.x04] None []).
    - cbn. lia.
    - reflexivity.
  Defined.

  (** X2: at a factor within 0.001 of 1.0 nothing is lost or changed
      within a call: the bytes delivered followed by the byte now held
      back are the byte held before followed by the source's bytes; so
      when these are even in number, they are delivered as they
      are. *)
Theorem Read_passes_bytes_through
      (u : float -> Z) {R : Type} `{Reader R}
      (v : PCMVolume R) (p data : list byte) (err : option error) (r' : R) :
    (length (held v) < length p)%nat ->
    rd_read (src v) (length p - length (held v)) = (data, err, r') ->
    must_scale (volume v) = false ->
    delivered (Read u v p) ++ leftover (Read u v p).1.1 = held v ++ data
    /\ (Nat.even (length (held v ++ data)) = true ->
        delivered (Read u v p) = held v ++ data).
  Proof.
    intros Hlen Hrd Hms.
    pose proof (Read_bytes_through u v p data err r' Hlen Hrd Hms) as Hb.
    split; [exact Hb|]. intros Hev.
    destruct (Read_shape u v p data err r' Hlen Hrd) as (_ & Hlo & _).
    cbv zeta in Hlo. rewrite <- length_app in Hlo.
    assert (Hm : (length (held v ++ data) mod 2 = 0)%nat).
    { destruct (mod2_cases (length (held v ++ data))) as [Hm|Hm]; [exact Hm|].
      pose proof (Nat.div_mod_eq (length (held v ++ data)) 2) as Hd.
      rewrite Hd, Hm, Nat.even_add, Nat.even_mul in Hev. discriminate Hev. }
    rewrite Hm in Hlo. apply length_zero_iff_nil in Hlo.
    rewrite Hlo, app_nil_r in Hb. exact Hb.
  Qed.

Lemma Read_passes_bytes_through_witness :
    delivered (Read u_min (odd_scaler 1) (take 3 frame))
      ++ leftover (Read u_min (odd_scaler 1) (take 3 frame)).1.1
    = held (odd_scaler 1) ++ [Byte.x02; Byte.x03]
    /\ (Nat.even (length (held (odd_scaler 1) ++ [Byte.x02; Byte.x03])) = true ->
        delivered (Read u_min (odd_scaler 1) (take 3 frame))
        = held (odd_scaler 1) ++ [Byte.x02; Byte.x03]).
  Proof.
    apply (Read_passes_bytes_through u_min (odd_scaler 1) (take 3 frame)
             [Byte.x02; Byte.x03] None [([Byte.x04], None)]).
    - cbn. lia.
    - reflexivity.
    - reflexivity.
  Defined.

  (** X3: [Read] hands out whole samples, with one exception. The
      count it returns is even and no more than the buffer holds,
      unless a byte is held and the buffer has room for one byte only:
      then that byte is handed out alone, as it is, and the source is
      not asked. *)
Theorem Read_count_even_but_one
      (u : float -> Z) {R : Type} `{Reader R}
      (v : PCMVolume R) (p : list byte) :
    (length (leftover v) <= 1)%nat ->
    (forall b x, leftover v = [b] -> p = [x] ->
       Read u v p = (mkPCMVolume (src v) (volume v) [], [b], (1%nat, None)))
    /\ (~ (length (leftover v) = 1%nat /\ length p = 1%nat) ->
        Nat.even (Read u v p).2.1 = true
        /\ ((Read u v p).2.1 <= length p)%nat).
  Proof.
    intros Hlo. split.
    - intros b x Hb ->. unfold Read. cbn [length]. case_decide; [lia|].
      rewrite Hb. reflexivity.
    - intros Hne.
      destruct (decide (length p = 0%nat)) as [Hp|Hp].
      + unfold Read. case_decide; [|contradiction]. cbn [fst snd].
        split; [reflexivity|lia].
      + assert (Hheld : length (held v) = length (leftover v)).
        { unfold held. destruct (leftover v) as [|b [|c l]]; cbn in *; lia. }
        assert (Hroom : (length (held v) < length p)%nat) by lia.
        destruct (rd_read (src v) (length p - length (held v))) as [[data err] r'] eqn:Hrd.
        destruct (Read_shape u v p data err r' Hroom Hrd) as (Hres & _).
        cbv zeta in Hres. rewrite Hres. cbn [fst snd].
        pose proof (rd_bound (src v) (length p - length (held v))) as Hb.
        rewrite Hrd in Hb. cbn [fst] in Hb.
        split.
        * rewrite Nat.even_mul. reflexivity.
        * pose proof (Nat.Div0.mul_div_le (length (held v) + length data) 2). lia.
  Qed.

Lemma Read_count_even_but_one_witness :
    (forall b x, leftover (odd_scaler 0.5) = [b] -> [Byte.x00] = [x] ->
       Read u_min (odd_scaler 0.5) [Byte.x00]
       = (mkPCMVolume (src (odd_scaler 0.5)) (volume (odd_scaler 0.5)) [],
          [b], (1%nat, None)))
    /\ (~ (length (leftover (odd_scaler 0.5)) = 1%nat /\ length [Byte.x00] = 1%nat) ->
        Nat.even (Read u_min (odd_scaler 0.5) [Byte.x00]).2.1 = true
        /\ ((Read u_min (odd_scaler 0.5) [Byte.x00]).2.1 <= length [Byte.x00])%nat).
  Proof.
    apply (Read_count_even_but_one u_min (odd_scaler 0.5) [Byte.x00]).
    cbn. lia.
  Defined.

Lemma scaled_zero (s : Z) : is_int16 s -> scaled 0%float s = Some 0.
  Proof.
    intros Hs. unfold scaled. rewrite mul_spec.
    pose proof (of_int16_fin s Hs) as Hf.
    change (Prim2SF 0%float) with (S754_zero false).
    destruct (Prim2SF (of_int16 s)) as [sg|sg| |sg m e]; try discriminate Hf;
      reflexivity.
  Qed.

Lemma must_scale_zero : must_scale 0%float = true.
  Proof. reflexivity. Qed.

Lemma finite_nonneg_zero : finite_nonneg 0%float.
  Proof. split; reflexivity. Qed.

Lemma Read_zero_factor
      (u : float -> Z) {R : Type} `{Reader R}
      (v : PCMVolume R) (p data : list byte) (err : option error) (r' : R) :
    volume v = 0%float ->
    (length (held v) < length p)%nat ->
    rd_read (src v) (length p - length (held v)) = (data, err, r') ->
    Forall (fun s => s = 0) (samples (delivered (Read u v p))).
  Proof.
    intros Hv Hlen Hrd.
    rewrite (Read_spec u v p data err r' Hlen Hrd).
    unfold delivered, processed. cbn [fst snd]. rewrite Hv, must_scale_zero.
    set (body := take _ (held v ++ data)).
    rewrite take_app_length'
      by (rewrite scale_pairs_length; unfold body; rewrite length_take; lia).
    pose proof (samples_scale_pairs_scaled u 0%float body finite_nonneg_zero) as Hs.
    pose proof (samples_range body) as Hr.
    revert Hs. generalize (samples (scale_pairs (scale_sample u 0%float) body)).
    induction Hr as [|s l Hs0 _ IH]; intros out Hout.
    - destruct out; [constructor|discriminate Hout].
    - destruct out as [|o out]; [discriminate Hout|].
      cbn [map fmap list_fmap] in Hout. injection Hout as Ho Hout.
      rewrite scaled_zero in Ho by exact Hs0. injection Ho as ->.
      constructor; [reflexivity|]. apply IH. exact Hout.
  Qed.

  (** [math.Max(0, vol)] of a factor that is zero or below is +0. *)
Lemma Max0_nonpositive (vol : float) :
    PrimFloat.leb vol 0%float = true -> Max0 vol = 0%float.
  Proof.
    unfold Max0. rewrite FloatAxioms.leb_spec, FloatAxioms.eqb_spec, FloatAxioms.ltb_spec.
    change (Prim2SF 0%float) with (S754_zero false).
    destruct (Prim2SF vol) as [s|s| |s m e]; cbn.
    - reflexivity.
    - destruct s; [reflexivity|discriminate].
    - discriminate.
    - unfold SFleb, SFeqb, SFltb. cbn.
      destruct s; [|discriminate]. intros _.
      rewrite Z.compare_refl, Pos.compare_cont_refl. reflexivity.
  Qed.

  (** X4: once the factor is set to zero or to anything below it
      (minus infinity included), every sample the scaler delivers is
      0: a negative factor mutes, it does not invert. *)
Theorem SetVolume_nonpositive_mutes
      (u : float -> Z) {R : Type} `{Reader R}
      (v : PCMVolume R) (vol : float)
      (p data : list byte) (err : option error) (r' : R) :
    PrimFloat.leb vol 0%float = true ->
    (length (held v) < length p)%nat ->
    rd_read (src v) (length p - length (held v)) = (data, err, r') ->
    Forall (fun s => s = 0) (samples (delivered (Read u (SetVolume v vol) p))).
  Proof.
    intros Hvol Hlen Hrd.
    apply (Read_zero_factor u (SetVolume v vol) p data err r').
    - cbn [SetVolume volume]. apply Max0_nonpositive. exact Hvol.
    - exact Hlen.
    - exact Hrd.
  Qed.

Lemma SetVolume_nonpositive_mutes_witness :
    Forall (fun s => s = 0)
           (samples (delivered (Read u_min (SetVolume (odd_scaler 1) (-0.5)) frame))).
  Proof.
    apply (SetVolume_nonpositive_mutes u_min (odd_scaler 1) (-0.5)%float frame
             [Byte.x02; Byte.x03; Byte.x04] None []).
    - reflexivity.
    - cbn. lia.
    - reflexivity.
  Defined.

End VolumeMore.

(** ** The pump over a finite source *)

Module PumpFacts.

  Import F64 Volume VolumeSpec VolumeFacts VolumeMore Pump.

Lemma held_leftover {R} (v : PCMVolume R) :
    (length (leftover v) <= 1)%nat -> held v = leftover v.
  Proof.
    unfold held. destruct (leftover v) as [|b [|c l]]; cbn; intros Hl;
      [reflexivity|reflexivity|lia].
  Qed.

Lemma script_read_pending (s s' : ScriptReader.t) (cap : nat)
        (data : list byte) (err : option error) :
    rd_read s cap = (data, err, s') -> pending s = data ++ pending s'.
  Proof.
    cbn [rd_read ScriptReader.reader]. unfold ScriptReader.read, pending.
    destruct s as [|[d e] rest].
    - intros [= <- <- <-]. reflexivity.
    - case_decide; intros [= <- <- <-]; cbn [map concat fst].
      + reflexivity.
      + rewrite app_assoc, take_drop. reflexivity.
  Qed.

Lemma script_read_work (s s' : ScriptReader.t) (cap : nat) (data : list byte) :
    (0 < cap)%nat -> rd_read s cap = (data, None, s') -> (work s' < work s)%nat.
  Proof.
    intros Hcap. cbn [rd_read ScriptReader.reader]. unfold ScriptReader.read, work, pending.
    destruct s as [|[d e] rest]; [discriminate|].
    case_decide; intros Heq.
    - injection Heq as <- _ <-. cbn [map concat fst length].
      rewrite length_app. lia.
    - injection Heq as <- <-. cbn [map concat fst length].
      rewrite !length_app, length_drop. lia.
  Qed.

Lemma script_read_error (s s' : ScriptReader.t) (cap : nat)
        (data : list byte) (e : error) :
    Forall (fun c => c.2 = None) s ->
    rd_read s cap = (data, Some e, s') -> data = [] /\ s' = [].
  Proof.
    intros Hs. cbn [rd_read ScriptReader.reader]. unfold ScriptReader.read.
    destruct s as [|[d e'] rest].
    - intros [= <- _ <-]. split; reflexivity.
    - inversion Hs as [|? ? He _]; subst. cbn in He. subst e'.
      case_decide; discriminate.
  Qed.

Lemma script_read_noerr (s s' : ScriptReader.t) (cap : nat)
        (data : list byte) (err : option error) :
    Forall (fun c => c.2 = None) s ->
    rd_read s cap = (data, err, s') -> Forall (fun c => c.2 = None) s'.
  Proof.
    intros Hs. cbn [rd_read ScriptReader.reader]. unfold ScriptReader.read.
    destruct s as [|[d e'] rest].
    - intros [= _ _ <-]. constructor.
    - inversion Hs as [|? ? He Hrest]; subst.
      case_decide; intros [= _ _ <-]; [exact Hrest|].
      constructor; [exact He|exact Hrest].
  Qed.

  Section Script.
    Variable u : float -> Z.

    (** What every run of the pump over a scripted source keeps: the
        bytes written, the byte held and the bytes not yet read are,
        in this order, what they were; and the run ends while there is
        fuel for the work left. *)
Lemma pump_invariant (fuel : nat) :
      forall (writes : nat) (v : PCMVolume ScriptReader.t) (buf written : list byte),
        (2 <= length buf)%nat ->
        (length (leftover v) <= 1)%nat ->
        must_scale (volume v) = false ->
        (fuel <= writes)%nat ->
        (work (src v) < fuel)%nat ->
        Nat.even (length written) = true ->
        exists out v',
          pump u fuel writes v buf written = Some (out, v')
          /\ out ++ leftover v' ++ pending (src v') = written ++ leftover v ++ pending (src v)
          /\ (length (leftover v') <= 1)%nat
          /\ Nat.even (length out) = true
          /\ (Forall (fun c => c.2 = None) (src v) -> src v' = []).
    Proof.
      induction fuel as [|fuel IH];
        intros writes v buf written Hbuf Hlo Hms Hw Hfuel Hev; [lia|].
      pose proof (held_leftover v Hlo) as Hheld.
      assert (Hroom : (length (held v) < length buf)%nat) by (rewrite Hheld; lia).
      destruct (rd_read (src v) (length buf - length (held v))) as [[data err] r'] eqn:Hrd.
      pose proof (Read_shape u v buf data err r' Hroom Hrd) as (Hres & Hlo' & Hsrc & Hvol & Hlen).
      pose proof (Read_bytes_through u v buf data err r' Hroom Hrd Hms) as Hbytes.
      pose proof (script_read_pending _ _ _ _ _ Hrd) as Hpend.
      cbv zeta in Hres, Hlo'.
      cbn [pump]. unfold delivered in Hbytes.
      destruct (Read u v buf) as [[v1 buf1] [n err1]].
      cbn [fst snd] in *.
      pose proof (f_equal fst Hres) as Hn. pose proof (f_equal snd Hres) as Herr.
      cbn [fst snd] in Hn, Herr. clear Hres. subst err1.
      assert (Hlo1 : (length (leftover v1) <= 1)%nat)
        by (rewrite Hlo'; pose proof (Nat.mod_upper_bound
              (length (held v) + length data) 2); lia).
      assert (Hn_even : Nat.even n = true).
      { apply Nat.even_spec. exists ((length (held v) + length data) / 2)%nat.
        rewrite Hn. lia. }
      assert (Hkeep : forall w', w' ++ take n buf1 ++ leftover v1 ++ pending (src v1)
                                 = w' ++ leftover v ++ pending (src v)).
      { intros w'. rewrite Hsrc, (app_assoc (take n buf1)), Hbytes, Hheld, Hpend.
        rewrite <- app_assoc. reflexivity. }
      assert (Hdone : forall e, err = Some e ->
                Forall (fun c => c.2 = None) (src v) -> src v1 = []).
      { intros e -> Hs. rewrite Hsrc.
        apply (script_read_error _ _ _ _ _ Hs Hrd). }
      assert (Hstep : err = None -> (work (src v1) < fuel)%nat).
      { intros ->. rewrite Hsrc.
        pose proof (script_read_work (src v) r' (length buf - length (held v)) data
                      ltac:(lia) Hrd). lia. }
      assert (Hnoerr : Forall (fun c => c.2 = None) (src v) ->
                       Forall (fun c => c.2 = None) (src v1))
        by (intros Hs; rewrite Hsrc; eapply script_read_noerr; eassumption).
      case_decide as Hpos.
      - destruct writes as [|writes]; [lia|].
        assert (Hev' : Nat.even (length (written ++ take n buf1)) = true).
        { rewrite length_app, Nat.even_add, Hev, length_take.
          replace (n `min` length buf1)%nat with n; [rewrite Hn_even; reflexivity|].
          pose proof (Nat.Div0.mul_div_le (length (held v) + length data) 2) as Hd.
          pose proof (rd_bound (src v) (length buf - length (held v))) as Hb.
          rewrite Hrd in Hb. cbn [fst] in Hb. lia. }
        destruct err as [e|].
        + eexists _, _. split; [reflexivity|].
          split; [rewrite <- app_assoc; apply Hkeep|].
          split; [exact Hlo1|]. split; [exact Hev'|]. apply (Hdone e eq_refl).
        + destruct (IH writes v1 buf1 (written ++ take n buf1))
            as (out & v' & Hp & Heq & Hl & He & Hs);
            [lia|exact Hlo1|congruence|lia|auto|exact Hev'|].
          exists out, v'. split; [exact Hp|].
          split; [rewrite Heq, <- app_assoc; apply Hkeep|].
          split; [exact Hl|]. split; [exact He|]. auto.
      - assert (n = 0%nat) as Hn0 by lia.
        assert (Hkeep0 : written ++ leftover v1 ++ pending (src v1)
                         = written ++ leftover v ++ pending (src v)).
        { rewrite <- (Hkeep written). rewrite Hn0. reflexivity. }
        destruct err as [e|].
        + eexists _, _. split; [reflexivity|].
          split; [exact Hkeep0|]. split; [exact Hlo1|]. split; [exact Hev|].
          apply (Hdone e eq_refl).
        + destruct (IH writes v1 buf1 written)
            as (out & v' & Hp & Heq & Hl & He & Hs);
            [lia|exact Hlo1|congruence|lia|auto|exact Hev|].
          exists out, v'. split; [exact Hp|].
          split; [rewrite Heq; exact Hkeep0|].
          split; [exact Hl|]. split; [exact He|]. auto.
    Qed.

  End Script.

  (** X5: over a finite source whose chunks carry no error, and with
      the encoder reading on, the pump started on a fresh scaler stops
      by itself; what it has written and the byte the scaler still
      holds are, in order, exactly the bytes of the source, the held
      byte being there exactly when their number is odd. *)
Theorem pump_delivers_stream
      (u : float -> Z) (source : ScriptReader.t) (buf : list byte) (writes : nat) :
    Forall (fun c => c.2 = None) source ->
    (2 <= length buf)%nat ->
    (work source < writes)%nat ->
    exists out v',
      pump u (S (work source)) writes (NewPCMVolume source) buf [] = Some (out, v')
      /\ out ++ leftover v' = pending source
      /\ length (leftover v') = (length (pending source) mod 2)%nat.
  Proof.
    intros Hs Hbuf Hw.
    destruct (pump_invariant u (S (work source)) writes (NewPCMVolume source) buf [])
      as (out & v' & Hp & Heq & Hl & He & Hend);
      [exact Hbuf|cbn; lia|reflexivity|lia|unfold NewPCMVolume; cbn [src]; lia
      |reflexivity|].
    exists out, v'. split; [exact Hp|].
    cbn [NewPCMVolume leftover src app] in Heq, Hend.
    rewrite (Hend Hs) in Heq. unfold pending at 1 in Heq. cbn in Heq.
    rewrite app_nil_r in Heq. split; [exact Heq|].
    rewrite <- Heq, length_app.
    pose proof (Nat.div_mod_eq (length out) 2) as Hd.
    assert (Hm : (length out mod 2 = 0)%nat).
    { destruct (mod2_cases (length out)) as [Hm|Hm]; [exact Hm|].
      rewrite Hd, Hm, Nat.even_add, Nat.even_mul in He. discriminate He. }
    destruct (leftover v') as [|b [|c l]]; cbn [length] in *; try lia.
    - rewrite Nat.add_0_r. lia.
    - rewrite Hd, Hm at 1.
      replace (2 * (length out / 2) + 0 + 1)%nat with (1 + (length out / 2) * 2)%nat by lia.
      rewrite Nat.Div0.mod_add. reflexivity.
  Qed.

Definition five_bytes : ScriptReader.t :=
    [([Byte.x01; Byte.x02; Byte.x03], None); ([Byte.x04; Byte.x05], None)].

Lemma pump_delivers_stream_witness :
    exists out v',
      pump u_min (S (work five_bytes)) 10 (NewPCMVolume five_bytes)
           (replicate 4 Byte.x00) [] = Some (out, v')
      /\ out ++ leftover v' = pending five_bytes
      /\ length (leftover v') = (length (pending five_bytes) mod 2)%nat.
  Proof.
    apply (pump_delivers_stream u_min five_bytes (replicate 4 Byte.x00) 10).
    - repeat constructor.
    - cbn. lia.
    - cbn. lia.
  Defined.

End PumpFacts.

(** ** More on the header parser: what a success means for the stream *)

Module WavMore.

  Import Wav WavSpec BytesFacts WavFacts WavClaims.

Lemma after_pad_suffix (size : Z) (s : list byte) :
    exists pad, s = pad ++ after_pad size s.
  Proof.
    unfold after_pad. case_decide.
    - exists (take 1 s). symmetry. apply take_drop.
    - exists []. reflexivity.
  Qed.

  (** A successful walk ends at a data chunk: it has consumed a prefix
      of the stream, a chunk header at least; the format it returns is
      a supported one, and it is either the one the walk started with,
      a format chunk having been seen before, or the payload of a
      format chunk that the walk went over. *)
Lemma Scan_success h seen (s : list byte) (r : result) :
    Scan h seen s r ->
    forall h' rest, r = inr (h', rest) ->
      exists consumed,
        s = consumed ++ rest
        /\ (8 <= length consumed)%nat
        /\ supported (AudioFormat h')
        /\ ((seen = true /\ h' = h)
            \/ ((32 <= length consumed)%nat
                /\ exists fmtData, (16 <= length fmtData)%nat /\ h' = parse_fmt fmtData)).
  Proof.
    induction 1 as
      [h seen s Hs
      |h seen hd s Hhd Htag Hsz
      |h seen hd s Hhd Htag Hsz Hs
      |h seen hd pl s r Hhd Htag Hsz Hpl Hscan IH
      |h hd s Hhd Htag
      |h hd s Hhd Htag Hun
      |h hd s Hhd Htag Hsup
      |h seen hd s Hhd Hnf Hnd Hs
      |h seen hd pl s r Hhd Hnf Hnd Hpl Hscan IH];
      intros h' rest Hr; try discriminate Hr.
    - destruct (IH h' rest Hr) as (c & Hc & Hlen & Hsup & Hfmt).
      destruct (after_pad_suffix (le32 hd 4) s) as [pad Hpad].
      exists (hd ++ pl ++ pad ++ c). rewrite <- !app_assoc.
      split; [rewrite <- Hc, <- Hpad; reflexivity|].
      rewrite !length_app.
      split; [lia|]. split; [exact Hsup|]. right.
      split; [lia|].
      destruct Hfmt as [[_ ->]|(_ & fd & Hfd & ->)].
      + exists pl. split; [lia|reflexivity].
      + exists fd. split; [exact Hfd|reflexivity].
    - injection Hr as <- <-. exists hd. rewrite Hhd.
      split; [reflexivity|]. split; [lia|]. split; [exact Hsup|].
      left. split; reflexivity.
    - destruct (IH h' rest Hr) as (c & Hc & Hlen & Hsup & Hfmt).
      destruct (after_pad_suffix (le32 hd 4) s) as [pad Hpad].
      exists (hd ++ pl ++ pad ++ c). rewrite <- !app_assoc.
      split; [rewrite <- Hc, <- Hpad; reflexivity|].
      rewrite !length_app.
      split; [lia|]. split; [exact Hsup|].
      destruct Hfmt as [Hleft|(H32 & fd & Hfd & Hh)]; [left; exact Hleft|].
      right. split; [lia|]. exists fd. split; assumption.
  Qed.

Lemma parse_fmt_ranges (fmtData : list byte) :
    0 <= NumChannels (parse_fmt fmtData) < 65536
    /\ 0 <= SampleRate (parse_fmt fmtData) < 4294967296
    /\ 0 <= BitsPerSample (parse_fmt fmtData) < 65536.
  Proof.
    unfold parse_fmt, le16, le32. cbn [NumChannels SampleRate BitsPerSample].
    split; [apply Uint16_range|]. split; [apply Uint32_range|apply Uint16_range].
  Qed.

  (** X6: when the parser succeeds, what it leaves for the caller is
      the input without a prefix of at least 44 bytes (the prologue, a
      format chunk of 16 bytes or more with its header, the header of
      the data chunk): nothing is reordered or lost behind the header.
      The format code returned is 1 or 0xFFFE, and the channels, the
      rate and the bits per sample are unsigned values of 16, 32 and
      16 bits. *)
Theorem ReadWavHeader_success (s rest : list byte) (h : WavHeader) :
    ReadWavHeader s = Some (inr (h, rest)) ->
    (exists consumed, s = consumed ++ rest /\ (44 <= length consumed)%nat)
    /\ supported (AudioFormat h)
    /\ 0 <= NumChannels h < 65536
    /\ 0 <= SampleRate h < 4294967296
    /\ 0 <= BitsPerSample h < 65536.
  Proof.
    intros Hr. apply ReadWavHeader_Parse in Hr.
    inversion Hr as [| | |riff s' r Hriff HR HW Hscan Hs]; subst.
    destruct (Scan_success _ _ _ _ Hscan h rest eq_refl)
      as (c & -> & Hlen & Hsup & [[Hc _]|(H32 & fd & Hfd & ->)]);
      [discriminate Hc|].
    split.
    - exists (riff ++ c). rewrite <- app_assoc. split; [reflexivity|].
      rewrite length_app. lia.
    - split; [exact Hsup|]. apply parse_fmt_ranges.
  Qed.

  (** A whole stream: PCM, 2 channels, 48000 Hz, 16 bits, a LIST chunk
      of odd size, and two bytes of sound. *)
Definition stream_example : list byte :=
    tag_RIFF ++ replicate 4 Byte.xff ++ tag_WAVE
      ++ encode fmt_example ++ encode list_example
      ++ tag_data ++ replicate 4 Byte.xff ++ [Byte.x07; Byte.x08].

Lemma ReadWavHeader_success_witness :
    (exists consumed, stream_example = consumed ++ [Byte.x07; Byte.x08]
                      /\ (44 <= length consumed)%nat)
    /\ supported (AudioFormat (parse_fmt (payload fmt_example)))
    /\ 0 <= NumChannels (parse_fmt (payload fmt_example)) < 65536
    /\ 0 <= SampleRate (parse_fmt (payload fmt_example)) < 4294967296
    /\ 0 <= BitsPerSample (parse_fmt (payload fmt_example)) < 65536.
  Proof.
    apply (ReadWavHeader_success stream_example [Byte.x07; Byte.x08]
             (parse_fmt (payload fmt_example))).
    vm_compute. reflexivity.
  Defined.

  (** A successful walk goes on as it did when bytes are added at the
      end of the stream, and leaves them to the caller. *)
Lemma Scan_extend h seen (s : list byte) (r : result) :
    Scan h seen s r ->
    forall h' rest more, r = inr (h', rest) ->
      Scan h seen (s ++ more) (inr (h', rest ++ more)).
  Proof.
    assert (Hpad : forall size t r0 more h0 seen0,
               Scan h0 seen0 (after_pad size t) r0 ->
               (forall h' rest, r0 = inr (h', rest) ->
                  after_pad size (t ++ more) = after_pad size t ++ more)).
    { intros size t r0 more h0 seen0 Hsc h' rest Hr.
      destruct (Scan_success _ _ _ _ Hsc h' rest Hr) as (c & Hc & Hlen & _).
      unfold after_pad in *. case_decide; [|reflexivity].
      destruct t as [|b t]; [|reflexivity].
      cbn in Hc. destruct c; [cbn in Hlen; lia|discriminate Hc]. }
    induction 1 as
      [h seen s Hs
      |h seen hd s Hhd Htag Hsz
      |h seen hd s Hhd Htag Hsz Hs
      |h seen hd pl s r Hhd Htag Hsz Hpl Hscan IH
      |h hd s Hhd Htag
      |h hd s Hhd Htag Hun
      |h hd s Hhd Htag Hsup
      |h seen hd s Hhd Hnf Hnd Hs
      |h seen hd pl s r Hhd Hnf Hnd Hpl Hscan IH];
      intros h' rest more Hr; try discriminate Hr.
    - rewrite <- !app_assoc. apply Scan_fmt; try assumption.
      rewrite (Hpad _ _ _ more _ _ Hscan h' rest Hr). apply IH. exact Hr.
    - injection Hr as <- <-. rewrite <- app_assoc. apply Scan_data; assumption.
    - rewrite <- !app_assoc. apply Scan_skip; try assumption.
      rewrite (Hpad _ _ _ more _ _ Hscan h' rest Hr). apply IH. exact Hr.
  Qed.

  (** X7: the parser reads no further than the header of the data
      chunk: if it succeeds on a stream, it succeeds with the same
      header on that stream followed by any more bytes, and these are
      left to the caller behind the rest. *)
Theorem ReadWavHeader_reads_no_further
      (s rest more : list byte) (h : WavHeader) :
    ReadWavHeader s = Some (inr (h, rest)) ->
    ReadWavHeader (s ++ more) = Some (inr (h, rest ++ more)).
  Proof.
    intros Hr. apply ReadWavHeader_Parse in Hr. apply ReadWavHeader_Parse.
    inversion Hr as [| | |riff s' r Hriff HR HW Hscan Hs]; subst.
    rewrite <- app_assoc. apply Parse_chunks; try assumption.
    apply (Scan_extend _ _ _ _ Hscan). reflexivity.
  Qed.

Lemma ReadWavHeader_reads_no_further_witness :
    ReadWavHeader (stream_example ++ [Byte.x09])
    = Some (inr (parse_fmt (payload fmt_example), [Byte.x07; Byte.x08] ++ [Byte.x09])).
  Proof.
    apply (ReadWavHeader_reads_no_further stream_example [Byte.x07; Byte.x08]
             [Byte.x09] (parse_fmt (payload fmt_example))).
    vm_compute. reflexivity.
  Defined.

  (** X8: a data chunk that comes before any format chunk is an
      error, however many ignorable chunks come before it and whatever
      follows it. *)
Theorem ReadWavHeader_data_before_fmt
      (riff_size : list byte) (cs : list Chunk) (data_size rest : list byte) :
    length riff_size = 4%nat ->
    Forall ignorable cs ->
    length data_size = 4%nat ->
    ReadWavHeader (tag_RIFF ++ riff_size ++ tag_WAVE
                     ++ concat (map encode cs) ++ tag_data ++ data_size ++ rest)
    = Some (inl ErrDataBeforeFmt).
  Proof.
    intros Hrs Hcs Hds. apply ReadWavHeader_Parse.
    replace (tag_RIFF ++ riff_size ++ tag_WAVE
               ++ concat (map encode cs) ++ tag_data ++ data_size ++ rest)
      with ((tag_RIFF ++ riff_size ++ tag_WAVE)
               ++ concat (map encode cs) ++ (tag_data ++ data_size) ++ rest)
      by (rewrite <- !app_assoc; reflexivity).
    apply Parse_chunks.
    - rewrite !length_app, Hrs. reflexivity.
    - reflexivity.
    - rewrite app_assoc, drop_app_length'
        by (rewrite length_app, Hrs; reflexivity).
      reflexivity.
    - apply Scan_over_ignorables; [assumption|].
      apply Scan_data_early.
      + rewrite length_app, Hds. reflexivity.
      + apply (take_app_length tag_data).
  Qed.

Lemma ReadWavHeader_data_before_fmt_witness :
    ReadWavHeader (tag_RIFF ++ replicate 4 Byte.x00 ++ tag_WAVE
                     ++ concat (map encode [list_example]) ++ tag_data
                     ++ replicate 4 Byte.x00 ++ encode fmt_example)
    = Some (inl ErrDataBeforeFmt).
  Proof.
    apply (ReadWavHeader_data_before_fmt (replicate 4 Byte.x00) [list_example]
             (replicate 4 Byte.x00) (encode fmt_example)).
    - reflexivity.
    - constructor; [|constructor].
      split; [repeat split|]. split; intros Hc; discriminate Hc.
    - reflexivity.
  Defined.

End WavMore.

(** ** More on the player: the queue and the history over many songs *)

Module PlayerMore.

  Import Player.

  (** Songs put in the queue one after the other. *)
Definition enqueue_all (songs : list Song) (p : Player) : Player :=
    foldl (fun p song => Enqueue song p) p songs.

  (** [n] calls of [dequeue]: the songs they returned, in turn. *)
Fixpoint dequeue_n (n : nat) (p : Player) : list Song * Player :=
    match n with
    | O => ([], p)
    | S n =>
        match dequeue p with
        | (None, p) => dequeue_n n p
        | (Some song, p) => let '(songs, p) := dequeue_n n p in (song :: songs, p)
        end
    end.

  (** The loop's bookkeeping after each of [songs] in turn. *)
Definition finished_all (songs : list Song) (p : Player) : Player :=
    foldl (fun p song => song_finished song p) p songs.

Lemma set_Queue_same (p : Player) : set_Queue (Queue p) p = p.
  Proof. destruct p. reflexivity. Qed.

Lemma Queue_enqueue_all (songs : list Song) :
    forall p, enqueue_all songs p = set_Queue (Queue p ++ songs) p.
  Proof.
    induction songs as [|s songs IH]; intros p; cbn [enqueue_all foldl].
    - rewrite app_nil_r, set_Queue_same. reflexivity.
    - fold (enqueue_all songs (Enqueue s p)). rewrite IH.
      unfold Enqueue. cbn. rewrite <- app_assoc. reflexivity.
  Qed.

Lemma dequeue_n_set_Queue (songs : list Song) :
    forall p, dequeue_n (length songs) (set_Queue songs p) = (songs, set_Queue [] p).
  Proof.
    induction songs as [|s songs IH]; intros p; cbn [length dequeue_n].
    - reflexivity.
    - unfold dequeue. cbn [Queue set_Queue].
      change (set_Queue songs (set_Queue (s :: songs) p)) with (set_Queue songs p).
      rewrite IH. reflexivity.
  Qed.

  (** X9: the queue is first in, first out: on a player whose queue
      is empty, as many calls of [dequeue] as songs were enqueued
      return these songs in the order of the calls of [Enqueue], and
      leave the player as it was before them. *)
Theorem Enqueue_dequeue_fifo (songs : list Song) (p : Player) :
    Queue p = [] ->
    dequeue_n (length songs) (enqueue_all songs p) = (songs, p)
    /\ (dequeue p).1 = None.
  Proof.
    intros Hq. rewrite Queue_enqueue_all, Hq. cbn [app].
    rewrite dequeue_n_set_Queue. rewrite <- Hq, set_Queue_same.
    split; [reflexivity|]. unfold dequeue. rewrite Hq. reflexivity.
  Qed.

Definition song (id : string) : Song :=
    mkSong id "title" "album" "artist" 180 "cover" 2001 "genre" 1 320 "flac".

Lemma Enqueue_dequeue_fifo_witness :
    dequeue_n (length [song "a"; song "b"; song "c"])
              (enqueue_all [song "a"; song "b"; song "c"] (NewPlayer "guild" 256))
    = ([song "a"; song "b"; song "c"], NewPlayer "guild" 256)
    /\ (dequeue (NewPlayer "guild" 256)).1 = None.
  Proof.
    apply (Enqueue_dequeue_fifo [song "a"; song "b"; song "c"] (NewPlayer "guild" 256)).
    reflexivity.
  Defined.

Lemma History_song_finished (s : Song) (p : Player) :
    (length (History p) <= 50)%nat ->
    History (song_finished s p)
    = drop (length (History p ++ [s]) - 50) (History p ++ [s])
    /\ (length (History (song_finished s p)) <= 50)%nat.
  Proof.
    intros Hlen. unfold song_finished. cbn [History set_History set_skipChan
      set_volumeChangeChan]. cbv zeta.
    rewrite length_app. cbn [length].
    case_decide as Hfull.
    - replace (length (History p) + 1 - 50)%nat with 1%nat by lia.
      split; [reflexivity|]. rewrite length_drop, length_app. cbn [length]. lia.
    - replace (length (History p) + 1 - 50)%nat with 0%nat by lia.
      split; [reflexivity|]. rewrite length_app. cbn [length]. lia.
  Qed.

  (** Cutting to the last 50 after each song is cutting once at the
      end. *)
Lemma keep_50_step (h q : list Song) (s : Song) :
    (length h <= 50)%nat ->
    drop (length (drop (length (h ++ [s]) - 50) (h ++ [s]) ++ q) - 50)
         (drop (length (h ++ [s]) - 50) (h ++ [s]) ++ q)
    = drop (length (h ++ s :: q) - 50) (h ++ s :: q).
  Proof.
    intros Hlen.
    rewrite !length_app, length_drop, !length_app. cbn [length].
    replace (h ++ s :: q) with ((h ++ [s]) ++ q)
      by (rewrite <- app_assoc; reflexivity).
    set (hs := h ++ [s]).
    assert (Hhl : length hs = (length h + 1)%nat)
      by (unfold hs; rewrite length_app; reflexivity).
    rewrite <- Hhl.
    destruct (decide (50 < length hs)%nat) as [Hfull|Hfull].
    - replace (length hs - 50)%nat with 1%nat by lia.
      replace (length hs - 1 + length q - 50)%nat with (length q) by lia.
      replace (length h + S (length q) - 50)%nat
        with (1 + length q)%nat by lia.
      rewrite <- (drop_drop (hs ++ q) (length q) 1). f_equal.
      rewrite drop_app_le by lia. reflexivity.
    - replace (length hs - 50)%nat with 0%nat by lia.
      replace (length h + S (length q) - 50)%nat
        with (length hs + length q - 50)%nat by lia.
      rewrite Nat.sub_0_r. reflexivity.
  Qed.

  (** X10: the history is the last 50 songs played, oldest first:
      after the loop has gone through [songs], starting from a history
      of at most 50 entries, the history is what was there followed by
      [songs], cut at the front to its last 50 entries. *)
Theorem History_keeps_last_50 (songs : list Song) (p : Player) :
    (length (History p) <= 50)%nat ->
    History (finished_all songs p)
    = drop (length (History p ++ songs) - 50) (History p ++ songs)
    /\ (length (History (finished_all songs p)) <= 50)%nat.
  Proof.
    revert p. induction songs as [|s songs IH]; intros p Hlen;
      cbn [finished_all foldl].
    - rewrite app_nil_r. replace (length (History p) - 50)%nat with 0%nat by lia.
      split; [reflexivity|exact Hlen].
    - fold (finished_all songs (song_finished s p)).
      destruct (History_song_finished s p Hlen) as [Hh Hl].
      destruct (IH (song_finished s p) Hl) as [IHh IHl].
      split; [|exact IHl]. rewrite IHh, Hh. apply keep_50_step. exact Hlen.
  Qed.

Lemma History_keeps_last_50_witness :
    History (finished_all (replicate 60 (song "a") ++ [song "b"]) (NewPlayer "guild" 256))
    = drop (length (History (NewPlayer "guild" 256)
                      ++ replicate 60 (song "a") ++ [song "b"]) - 50)
           (History (NewPlayer "guild" 256) ++ replicate 60 (song "a") ++ [song "b"])
    /\ (length (History (finished_all (replicate 60 (song "a") ++ [song "b"])
                           (NewPlayer "guild" 256))) <= 50)%nat.
  Proof.
    apply (History_keeps_last_50 (replicate 60 (song "a") ++ [song "b"])
             (NewPlayer "guild" 256)).
    cbn. lia.
  Defined.

End PlayerMore.

(** ** More on the manager: the registry over any sequence of calls *)

Module ManagerMore.

  Import Manager.

Inductive Call : Type :=
    | CallGetOrCreatePlayer (guildID : string)
    | CallRemove (guildID : string)
    | CallShutdown.

Definition call (m : Manager) (c : Call) : Manager :=
    match c with
    | CallGetOrCreatePlayer g => (GetOrCreatePlayer g m).2
    | CallRemove g => (Remove g m).1
    | CallShutdown => (Shutdown m).1
    end.

Definition calls (cs : list Call) (m : Manager) : Manager := foldl call m cs.

  (** Every registered player was made before the next one will be,
      and no two guilds are registered with the same player. *)
Definition consistent (m : Manager) : Prop :=
    (forall g h, players m !! g = Some h -> (h < next m)%nat)
    /\ (forall g1 g2 h, players m !! g1 = Some h -> players m !! g2 = Some h -> g1 = g2).

Lemma consistent_new : consistent NewManager.
  Proof.
    split.
    - intros g h Hg. cbn in Hg. rewrite lookup_empty in Hg. discriminate Hg.
    - intros g1 g2 h Hg. cbn in Hg. rewrite lookup_empty in Hg. discriminate Hg.
  Qed.

Lemma consistent_call (m : Manager) (c : Call) :
    consistent m -> consistent (call m c) /\ (next m <= next (call m c))%nat.
  Proof.
    intros [Hlt Hinj]. destruct c as [g|g|]; cbn [call].
    - unfold GetOrCreatePlayer. destruct (players m !! g) as [h|] eqn:Hg; cbn [snd].
      + split; [split; assumption|lia].
      + split; [|cbn; lia]. split; cbn [players next].
        * intros g' h Hg'. destruct (decide (g' = g)) as [->|Hne].
          -- rewrite lookup_insert_eq in Hg'. injection Hg' as <-. lia.
          -- rewrite lookup_insert_ne in Hg' by congruence.
             pose proof (Hlt _ _ Hg'). lia.
        * intros g1 g2 h H1 H2.
          destruct (decide (g1 = g)) as [->|Hne1];
            destruct (decide (g2 = g)) as [->|Hne2]; [reflexivity| | |].
          -- rewrite lookup_insert_eq in H1. injection H1 as <-.
             rewrite lookup_insert_ne in H2 by congruence.
             pose proof (Hlt _ _ H2). lia.
          -- rewrite lookup_insert_eq in H2. injection H2 as <-.
             rewrite lookup_insert_ne in H1 by congruence.
             pose proof (Hlt _ _ H1). lia.
          -- rewrite lookup_insert_ne in H1, H2 by congruence.
             eapply Hinj; eassumption.
    - unfold Remove. destruct (players m !! g) as [h|] eqn:Hg; cbn [fst].
      + split; [|cbn; lia]. split; cbn [players next].
        * intros g' h' Hg'. apply lookup_delete_Some in Hg' as [_ Hg'].
          eapply Hlt; eassumption.
        * intros g1 g2 h' H1 H2.
          apply lookup_delete_Some in H1 as [_ H1].
          apply lookup_delete_Some in H2 as [_ H2].
          eapply Hinj; eassumption.
      + split; [split; assumption|lia].
    - split; [split; assumption|cbn; lia].
  Qed.

Lemma consistent_calls (cs : list Call) :
    forall m, consistent m -> consistent (calls cs m).
  Proof.
    induction cs as [|c cs IH]; intros m Hm; [exact Hm|].
    cbn [calls foldl]. apply IH. apply consistent_call. exact Hm.
  Qed.

  (** X11: whatever calls the registry has served, no two guilds
      share a player. *)
Theorem players_not_shared (cs : list Call) (g1 g2 : string) (h : nat) :
    GetPlayer g1 (calls cs NewManager) = Some h ->
    GetPlayer g2 (calls cs NewManager) = Some h ->
    g1 = g2.
  Proof.
    intros H1 H2.
    destruct (consistent_calls cs NewManager consistent_new) as [_ Hinj].
    eapply Hinj; eassumption.
  Qed.

Definition served : list Call :=
    [CallGetOrCreatePlayer "a"; CallGetOrCreatePlayer "b"; CallRemove "a";
     CallGetOrCreatePlayer "a"; CallShutdown].

Lemma players_not_shared_witness : "b" = "b".
  Proof.
    apply (players_not_shared served "b" "b" 1%nat); vm_compute; reflexivity.
  Defined.

  (** X12: whatever calls the registry has served, a guild that is
      registered keeps its player over [GetOrCreatePlayer], which
      changes nothing then; once the guild is removed it is looked up
      in vain, the other guilds are where they were, and the player
      made for the guild afterwards is a new one: not the one removed,
      nor that of any other guild. *)
Theorem Remove_then_new_player (cs : list Call) (g : string) (h : nat) :
    let m := calls cs NewManager in
    GetPlayer g m = Some h ->
    GetOrCreatePlayer g m = (h, m)
    /\ (Remove g m).2 = Some h
    /\ GetPlayer g (Remove g m).1 = None
    /\ (forall g', g' <> g -> GetPlayer g' (Remove g m).1 = GetPlayer g' m)
    /\ (GetOrCreatePlayer g (Remove g m).1).1 <> h
    /\ (forall g', GetPlayer g' m <> Some (GetOrCreatePlayer g (Remove g m).1).1).
  Proof.
    cbv zeta. intros Hg.
    destruct (consistent_calls cs NewManager consistent_new) as [Hlt _].
    set (m := calls cs NewManager) in *.
    unfold GetPlayer in *. unfold GetOrCreatePlayer at 1. unfold Remove.
    rewrite Hg. cbn [fst snd players].
    split; [reflexivity|]. split; [reflexivity|].
    split; [apply lookup_delete_eq|].
    split; [intros g' Hne; apply lookup_delete_ne; congruence|].
    unfold GetOrCreatePlayer. cbn [players next]. rewrite lookup_delete_eq. cbn [fst].
    split.
    - pose proof (Hlt _ _ Hg). lia.
    - intros g' Hg'. pose proof (Hlt _ _ Hg'). lia.
  Qed.

Lemma Remove_then_new_player_witness :
    let m := calls served NewManager in
    GetOrCreatePlayer "b" m = (1%nat, m)
    /\ (Remove "b" m).2 = Some 1%nat
    /\ GetPlayer "b" (Remove "b" m).1 = None
    /\ (forall g', g' <> "b" -> GetPlayer g' (Remove "b" m).1 = GetPlayer g' m)
    /\ (GetOrCreatePlayer "b" (Remove "b" m).1).1 <> 1%nat
    /\ (forall g', GetPlayer g' m <> Some (GetOrCreatePlayer "b" (Remove "b" m).1).1).
  Proof.
    apply (Remove_then_new_player served "b" 1%nat). vm_compute. reflexivity.
  Defined.

End ManagerMore.

(** ** More on one song: every exit, and what is left alone *)

Module StreamMore.

  Import Player Stream.

  (** The control loop changes nothing of the player but the volume
      slot. *)
Lemma control_loop_frame (env : Env) (evs : list Event) :
    forall p, exists slot,
      (control_loop env evs p).1.1 = set_volumeChangeChan slot p.
  Proof.
    induction evs as [|ev evs IH]; intros p.
    - exists (volumeChangeChan p). destruct p. reflexivity.
    - destruct ev; cbn [control_loop];
        try (exists (volumeChangeChan p); destruct p; reflexivity).
      destruct (panics env AtVolumeUpdate); [exists false; reflexivity|].
      destruct (IH (set_volumeChangeChan false p)) as [slot Hs].
      destruct (control_loop env evs (set_volumeChangeChan false p)) as [[p' acts] ex].
      cbn [fst snd] in *. exists slot. rewrite Hs. destruct p. reflexivity.
  Qed.

  (** X13: [streamSong] changes of the player nothing but the encoder
      and stream references and the volume slot, whatever fails,
      panics or arrives: the queue, the history, the current song, the
      volume, the flags and the stop, skip and done channels are as
      before. *)
Theorem streamSong_frame (env : Env) (p : Player) :
    exists slot enc str,
      (streamSong env p).1.1
      = set_stream str (set_encoding enc (set_volumeChangeChan slot p)).
  Proof.
    assert (Hid : exists slot enc str,
               p = set_stream str (set_encoding enc (set_volumeChangeChan slot p)))
      by (exists (volumeChangeChan p), (encoding p), (stream p); destruct p; reflexivity).
    unfold streamSong.
    destruct (fetch_ok env); cbn [negb]; [|exact Hid].
    destruct (header_ok env); cbn [negb]; [|exact Hid].
    destruct (encode_ok env); cbn [negb]; [|exact Hid].
    clear Hid. unfold with_session.
    destruct (panics env AtSpeakingTrue);
      [exists (volumeChangeChan p), (Some (session env)), (stream p);
       destruct p; reflexivity|].
    destruct (panics env AtScalerSetVolume);
      [exists (volumeChangeChan p), (Some (session env)), (stream p);
       destruct p; reflexivity|].
    destruct (panics env AtMakeStream);
      [exists (volumeChangeChan p), (Some (session env)), (stream p);
       destruct p; reflexivity|].
    destruct (control_loop_frame env (events env)
                (set_stream (Some (session env))
                   (set_encoding (Some (session env)) p))) as [slot Hs].
    destruct (control_loop env (events env) _) as [[p' acts] ex].
    cbn [fst snd] in Hs. subst p'.
    destruct ex; cbn [fst snd].
    - destruct (panics env AtCleanup); cbn [fst snd].
      + exists slot, (Some (session env)), (Some (session env)).
        destruct p; reflexivity.
      + case_decide; destruct (panics env AtSpeakingFalse); cbn [fst snd].
        * exists slot, None, None. destruct p; reflexivity.
        * exists slot, None, None. destruct p; reflexivity.
        * exists slot, (Some (session env)), (Some (session env)).
          destruct p; reflexivity.
        * exists slot, (Some (session env)), (Some (session env)).
          destruct p; reflexivity.
    - exists slot, (Some (session env)), (Some (session env)). destruct p; reflexivity.
    - exists slot, (Some (session env)), (Some (session env)). destruct p; reflexivity.
  Qed.

Lemma last_app_two {A} (l : list A) (a b : A) : last (l ++ [a; b]) = Some b.
  Proof.
    replace (l ++ [a; b]) with ((l ++ [a]) ++ [b])
      by (rewrite <- app_assoc; reflexivity).
    apply last_snoc.
  Qed.

  (** X14: on every exit of [streamSong], by return from any of its
      return sites or by a panic in any of the calls made once the
      encoder session exists, the last thing done is to tell the
      transport to stop sending; and the response body is closed just
      before exactly when the fetch had succeeded. *)
Theorem streamSong_exit_stops_speaking (env : Env) (p : Player) :
    (streamSong env p).2 <> Waiting ->
    last (streamSong env p).1.2 = Some (Speaking false)
    /\ (fetch_ok env = true ->
        exists before, (streamSong env p).1.2 = before ++ [BodyClose; Speaking false])
    /\ (fetch_ok env = false -> BodyClose ∉ (streamSong env p).1.2).
  Proof.
    unfold streamSong.
    destruct (fetch_ok env); cbn [negb].
    2:{ intros _. split; [reflexivity|]. split; [intros Hc; discriminate Hc|].
        intros _ Hin.
        repeat (apply elem_of_cons in Hin as [Hd|Hin]; [discriminate Hd|]).
        inversion Hin. }
    destruct (header_ok env); cbn [negb].
    2:{ intros _. split; [reflexivity|]. split; [|intros Hc; discriminate Hc].
        intros _. exists [Get; ParseHeader]. reflexivity. }
    destruct (encode_ok env); cbn [negb].
    2:{ intros _. split; [reflexivity|]. split; [|intros Hc; discriminate Hc].
        intros _. exists [Get; ParseHeader; StartPump; Encode]. reflexivity. }
    destruct (with_session env p) as [[p' acts] ex]. cbn [fst snd].
    intros Hex. destruct ex; try contradiction.
    - split; [|split; [|intros Hc; discriminate Hc]].
      + rewrite !app_assoc. apply last_app_two.
      + intros _. eexists. rewrite app_assoc. reflexivity.
    - split; [|split; [|intros Hc; discriminate Hc]].
      + rewrite !app_assoc. apply last_app_two.
      + intros _. eexists. rewrite app_assoc. reflexivity.
  Qed.

Definition env_example (at_site : option Site) : Env :=
    mkEnv true true true 7 at_site [EvVolume; EvDone (Some EOF)].

Lemma streamSong_exit_stops_speaking_witness :
    let env := env_example (Some AtCleanup) in
    let p := NewPlayer "guild" 256 in
    last (streamSong env p).1.2 = Some (Speaking false)
    /\ (fetch_ok env = true ->
        exists before, (streamSong env p).1.2 = before ++ [BodyClose; Speaking false])
    /\ (fetch_ok env = false -> BodyClose ∉ (streamSong env p).1.2).
  Proof.
    apply (streamSong_exit_stops_speaking (env_example (Some AtCleanup))
             (NewPlayer "guild" 256)).
    vm_compute. intros Hc. discriminate Hc.
  Defined.

Lemma control_loop_waits (env : Env) (evs : list Event) :
    panics env AtVolumeUpdate = false ->
    Forall (fun ev => terminating ev = false) evs ->
    forall p,
      (control_loop env evs p).2 = Waiting
      /\ Forall (fun a => exists vol, a = ScalerSetVolume vol) (control_loop env evs p).1.2
      /\ encoding (control_loop env evs p).1.1 = encoding p
      /\ stream (control_loop env evs p).1.1 = stream p.
  Proof.
    intros Hp Hevs. induction Hevs as [|ev evs Hev _ IH]; intros p.
    - cbn. repeat split. constructor.
    - destruct ev; try discriminate Hev. cbn [control_loop]. rewrite Hp.
      destruct (IH (set_volumeChangeChan false p)) as (Hex & Hacts & Henc & Hstr).
      destruct (control_loop env evs (set_volumeChangeChan false p)) as [[p' acts] ex].
      cbn [fst snd] in *. split; [exact Hex|].
      split; [constructor; [eexists; reflexivity|exact Hacts]|].
      split; [rewrite Henc|rewrite Hstr]; destruct p; reflexivity.
  Qed.

  (** X15: a change of volume never ends a song: while nothing but
      volume notifications arrives, [streamSong] stays in its loop
      with the session in place; nothing is released or closed and
      the transport is not told to stop sending. *)
Theorem streamSong_volume_only_waits (env : Env) (p : Player) :
    fetch_ok env = true -> header_ok env = true -> encode_ok env = true ->
    panic_at env = None ->
    Forall (fun ev => terminating ev = false) (events env) ->
    (streamSong env p).2 = Waiting
    /\ encoding (streamSong env p).1.1 = Some (session env)
    /\ stream (streamSong env p).1.1 = Some (session env)
    /\ (Cleanup ∉ (streamSong env p).1.2)
    /\ (BodyClose ∉ (streamSong env p).1.2)
    /\ (Speaking false ∉ (streamSong env p).1.2).
  Proof.
    intros Hf Hh He Hp Hevs.
    unfold streamSong. rewrite Hf, Hh, He. cbn [negb].
    unfold with_session, panics. rewrite Hp.
    assert (Hpv : panics env AtVolumeUpdate = false) by (unfold panics; rewrite Hp; reflexivity).
    destruct (control_loop_waits env (events env) Hpv Hevs
                (set_stream (Some (session env))
                   (set_encoding (Some (session env)) p)))
      as (Hex & Hacts & Henc & Hstr).
    destruct (control_loop env (events env) _) as [[p' acts] ex].
    cbn [fst snd] in *. subst ex. cbn [fst snd].
    split; [reflexivity|].
    split; [rewrite Henc; destruct p; reflexivity|].
    split; [rewrite Hstr; destruct p; reflexivity|].
    assert (Hnot : forall a, (forall vol, a <> ScalerSetVolume vol) ->
                             a <> Speaking true -> a <> MakeStream ->
                             a <> Get -> a <> ParseHeader -> a <> StartPump ->
                             a <> Encode ->
               a ∉ [Get; ParseHeader; StartPump; Encode]
                   ++ ([Speaking true; ScalerSetVolume (Volume p); MakeStream] ++ acts)
                   ++ []).
    { intros a Hv H1 H2 H3 H4 H5 H6 Hin. rewrite app_nil_r in Hin.
      cbn [app] in Hin.
      repeat (apply elem_of_cons in Hin as [Hd|Hin]; [first [congruence|exact (Hv _ Hd)]|]).
      pose proof (proj1 (Forall_forall _ _) Hacts a Hin) as [vol Hvol].
      exact (Hv _ Hvol). }
    replace (Volume (set_encoding (Some (session env)) p)) with (Volume p)
      by (destruct p; reflexivity).
    split; [|split]; apply Hnot; intros; discriminate.
  Qed.

Lemma streamSong_volume_only_waits_witness :
    let env := mkEnv true true true 7 None [EvVolume; EvVolume] in
    let p := NewPlayer "guild" 256 in
    (streamSong env p).2 = Waiting
    /\ encoding (streamSong env p).1.1 = Some (session env)
    /\ stream (streamSong env p).1.1 = Some (session env)
    /\ (Cleanup ∉ (streamSong env p).1.2)
    /\ (BodyClose ∉ (streamSong env p).1.2)
    /\ (Speaking false ∉ (streamSong env p).1.2).
  Proof.
    apply (streamSong_volume_only_waits (mkEnv true true true 7 None [EvVolume; EvVolume])
             (NewPlayer "guild" 256)); try reflexivity.
    repeat constructor.
  Defined.

Lemma Volume_SetVolume (level : Z) (p : Player) :
    Volume (SetVolume level p) = Z.max 0 (Z.min 256 level)
    /\ volumeChangeChan (SetVolume level p) = true.
  Proof.
    unfold SetVolume. cbv zeta.
    assert (Hc : (if 256 <? (if level <? 0 then 0 else level) then 256
                  else if level <? 0 then 0 else level) = Z.max 0 (Z.min 256 level)).
    { destruct (Z.ltb_spec level 0); destruct (Z.ltb_spec 256 level);
        try lia; destruct (Z.ltb_spec 256 0); lia. }
    rewrite Hc. destruct p as [g vc q np ip ipa v h lm lc st sk vch dn en sm].
    cbn. destruct vch; split; reflexivity.
  Qed.

  (** X16: changes of volume coalesce: after any number of calls of
      [SetVolume] one notification is pending; the control loop, woken
      by it, passes the level of the last call, clamped into [0, 256],
      to the scaler, and the slot is free again. *)
Theorem SetVolume_coalesces
      (env : Env) (levels : list Z) (level : Z) (evs : list Event) (p : Player) :
    panics env AtVolumeUpdate = false ->
    let p' := SetVolume level (foldl (fun p l => SetVolume l p) p levels) in
    volumeChangeChan p' = true
    /\ (exists acts, (control_loop env (EvVolume :: evs) p').1.2
                     = ScalerSetVolume (Z.max 0 (Z.min 256 level)) :: acts)
    /\ volumeChangeChan (control_loop env [EvVolume] p').1.1 = false.
  Proof.
    intros Hp. cbv zeta.
    set (q := foldl (fun p l => SetVolume l p) p levels).
    destruct (Volume_SetVolume level q) as [Hv Hs].
    split; [exact Hs|]. cbn [control_loop]. rewrite Hp.
    split.
    - destruct (control_loop env evs _) as [[p' acts] ex]. cbn [fst snd].
      exists acts. f_equal. f_equal.
      rewrite <- Hv. destruct (SetVolume level q). reflexivity.
    - reflexivity.
  Qed.

Lemma SetVolume_coalesces_witness :
    let env := env_example None in
    let p' := SetVolume 300 (foldl (fun p l => SetVolume l p)
                               (NewPlayer "guild" 256) [10; 20]) in
    volumeChangeChan p' = true
    /\ (exists acts, (control_loop env (EvVolume :: [EvStop]) p').1.2
                     = ScalerSetVolume (Z.max 0 (Z.min 256 300)) :: acts)
    /\ volumeChangeChan (control_loop env [EvVolume] p').1.1 = false.
  Proof.
    apply (SetVolume_coalesces (env_example None) [10; 20] 300 [EvStop]
             (NewPlayer "guild" 256)).
    reflexivity.
  Defined.

End StreamMore.

(** ** One call of Stop against the playback loop *)

Module ConcMore.

  Import Player Conc ConcFacts PlayerMore.

Definition before_signal (pc : stop_pc) : bool :=
    match pc with S_lock | S_select | S_close => true | _ => false end.

Definition is_done (pc : loop_pc) : bool :=
    match pc with L_done => true | _ => false end.

  (** What holds of a started player on which [Stop] is called once:
      the stop channel is closed exactly once the call has signalled,
      [done] exactly once the loop is over, the call is past its wait
      only then; from its first step on the queue is empty, after its
      disconnect there is no voice connection, and once it has
      returned nothing is playing and no message is left to edit. *)
Definition lone (spc : stop_pc) (lpc : loop_pc) (w : World) : Prop :=
    let p := player w in
    panicked w = false
    /\ stopChan p = negb (before_signal spc)
    /\ done p = is_done lpc
    /\ (stop_past_wait spc = true -> done p = true)
    /\ (spc <> S_lock -> Queue p = [])
    /\ (spc = S_reset \/ spc = S_returned -> VoiceConn p = None)
    /\ (spc = S_returned -> IsPlaying p = false /\ NowPlaying p = None)
    /\ (spc = S_returned ->
        negb (String.eqb (LastMsgID p) "") && negb (String.eqb (LastChannelID p) "")
        = false).

Ltac finish_lone :=
    cbn; repeat split; intros;
    repeat match goal with
           | H : _ \/ _ |- _ => destruct H
           | H : _ /\ _ |- _ => destruct H
           end;
    try discriminate; try congruence; auto.

Lemma stop_keeps_lone (spc spc' : stop_pc) (lpc : loop_pc) (w w' : World) :
    lone spc lpc w -> step_stop spc w = Some (spc', w') -> lone spc' lpc w'.
  Proof.
    destruct w as [p reg eff pan].
    destruct p as [g vc q np ip ipa v h lm lc st sk vch dn en sm].
    unfold lone. cbn. intros (Hpan & Hst & Hdn & Hpw & Hq & Hvc & Hret & Hmsg) Hs.
    destruct spc; cbn in *; subst.
    - injection Hs as <- <-. finish_lone.
    - injection Hs as <- <-. finish_lone.
    - injection Hs as <- <-. finish_lone.
    - destruct (is_done lpc) eqn:Hd; [|discriminate Hs].
      injection Hs as <- <-. finish_lone.
    - injection Hs as <- <-. unfold disconnect. cbn.
      destruct vc; finish_lone.
    - injection Hs as <- <-. unfold terminal_edit. cbn.
      destruct (negb (String.eqb lm "") && negb (String.eqb lc "")) eqn:Hid; finish_lone.
    - discriminate Hs.
  Qed.

Lemma loop_keeps_lone (ends : bool) (spc : stop_pc) (lpc lpc' : loop_pc) (w w' : World) :
    lone spc lpc w -> step_loop ends lpc w = Some (lpc', w') -> lone spc lpc' w'.
  Proof.
    destruct w as [p reg eff pan].
    destruct p as [g vc q np ip ipa v h lm lc st sk vch dn en sm].
    unfold lone. cbn. intros (Hpan & Hst & Hdn & Hpw & Hq & Hvc & Hret & Hmsg) Hs.
    assert (Hnp : is_done lpc = false -> stop_past_wait spc = false).
    { intros Hd. destruct (stop_past_wait spc); [|reflexivity].
      rewrite <- Hdn in Hd. rewrite Hpw in Hd by reflexivity. discriminate Hd. }
    destruct lpc; cbn in *; subst; try discriminate Hs; specialize (Hnp eq_refl).
    - injection Hs as <- <-.
      destruct spc; cbn in *; try discriminate Hnp; finish_lone.
    - unfold dequeue in Hs. cbn in Hs. destruct q as [|s q'].
      + injection Hs as <- <-. destruct spc; cbn in *; try discriminate Hnp; finish_lone.
      + injection Hs as <- <-. destruct spc; cbn in *; try discriminate Hnp;
          finish_lone; exfalso;
          match goal with H : _ -> s :: q' = [] |- _ =>
                            assert (s :: q' = []) as Hc by (apply H; congruence);
                            discriminate Hc end.
    - injection Hs as <- <-. destruct spc; cbn in *; try discriminate Hnp; finish_lone.
    - injection Hs as <- <-. unfold disconnect. cbn.
      destruct vc; destruct spc; cbn in *; try discriminate Hnp; finish_lone.
    - injection Hs as <- <-. unfold terminal_edit. cbn.
      destruct (negb (String.eqb lm "") && negb (String.eqb lc ""));
        destruct spc; cbn in *; try discriminate Hnp; finish_lone.
    - injection Hs as <- <-. destruct spc; cbn in *; try discriminate Hnp; finish_lone.
    - destruct (negb (before_signal spc) || sk || ends); [|discriminate Hs].
      injection Hs as <- <-. destruct spc; cbn in *; try discriminate Hnp; finish_lone.
    - injection Hs as <- <-. destruct spc; cbn in *; try discriminate Hnp; finish_lone.
    - injection Hs as <- <-. destruct spc; cbn in *; try discriminate Hnp; finish_lone.
    - injection Hs as <- <-. destruct spc; cbn in *; try discriminate Hnp; finish_lone.
  Qed.

Definition lone_config (c : Config) : Prop :=
    exists spc lpc, threads c = [T_Stop spc; T_Loop lpc] /\ lone spc lpc (world c).

Lemma step_lone (i : nat) (ends : bool) (c c' : Config) :
    lone_config c -> step i ends c = Some c' -> lone_config c'.
  Proof.
    destruct c as [w ths]. intros (spc & lpc & Hth & Hl). cbn in Hth, Hl. subst ths.
    unfold step. cbn [world threads].
    destruct (panicked w); [discriminate|].
    destruct i as [|[|i]]; cbn.
    - destruct (step_stop spc w) as [[spc' w']|] eqn:Hs; [|discriminate].
      cbn. intros [= <-]. exists spc', lpc. split; [reflexivity|].
      eapply stop_keeps_lone; eassumption.
    - destruct (step_loop ends lpc w) as [[lpc' w']|] eqn:Hs; [|discriminate].
      cbn. intros [= <-]. exists spc, lpc'. split; [reflexivity|].
      eapply loop_keeps_lone; eassumption.
    - discriminate.
  Qed.

Lemma run_lone (sched : list (nat * bool)) :
    forall c c', lone_config c -> run sched c = Some c' -> lone_config c'.
  Proof.
    induction sched as [|[i ends] sched IH]; intros c c' Hn; cbn [run].
    - intros [= <-]. exact Hn.
    - destruct (step i ends c) as [c1|] eqn:Hs; [|discriminate]. cbn.
      apply IH. eapply step_lone; eassumption.
  Qed.

  (** A started player, [Stop] called once: the call and the loop,
      which stands at [lpc]. *)
Definition stopping (w : World) (lpc : loop_pc) : Config :=
    mkConfig w [T_Stop S_lock; T_Loop lpc].

Lemma stopping_lone (w : World) (lpc : loop_pc) :
    panicked w = false -> stopChan (player w) = false -> done (player w) = false ->
    lpc <> L_done -> lone_config (stopping w lpc).
  Proof.
    intros Hp Hs Hd Hl. exists S_lock, lpc. split; [reflexivity|].
    unfold lone. cbn. rewrite Hp, Hs, Hd.
    repeat split; try discriminate; try congruence.
    - destruct lpc; try reflexivity. contradiction.
    - intros [Hc|Hc]; discriminate Hc.
  Qed.

  (** X17: one call of [Stop] on a started player is safe on every
      schedule: nothing panics, and when the call has returned the
      loop is over, both channels are closed, the voice connection is
      released, the queue is empty and nothing is recorded as
      playing. *)
Theorem Stop_alone_is_safe
      (w : World) (lpc : loop_pc) (sched : list (nat * bool)) (c : Config) :
    panicked w = false -> stopChan (player w) = false -> done (player w) = false ->
    lpc <> L_done ->
    run sched (stopping w lpc) = Some c ->
    panicked (world c) = false
    /\ (T_Stop S_returned ∈ threads c ->
        T_Loop L_done ∈ threads c
        /\ stopChan (player (world c)) = true
        /\ done (player (world c)) = true
        /\ VoiceConn (player (world c)) = None
        /\ Queue (player (world c)) = []
        /\ IsPlaying (player (world c)) = false
        /\ NowPlaying (player (world c)) = None).
  Proof.
    intros Hp Hs Hd Hl Hrun.
    destruct (run_lone sched _ _ (stopping_lone w lpc Hp Hs Hd Hl) Hrun)
      as (spc & lpc' & Hth & Hpan & Hst & Hdn & Hpw & Hq & Hvc & Hret & Hmsg).
    split; [exact Hpan|]. rewrite Hth. intros Hin.
    apply elem_of_cons in Hin as [Heq|Hin];
      [|apply elem_of_cons in Hin as [Heq|Hin]; [discriminate Heq|inversion Hin]].
    injection Heq as <-. cbn in *.
    specialize (Hpw eq_refl). rewrite Hpw in Hdn.
    destruct lpc'; try discriminate Hdn.
    split; [apply elem_of_cons; right; apply elem_of_cons; left; reflexivity|].
    split; [exact Hst|]. split; [exact Hpw|].
    split; [apply Hvc; right; reflexivity|].
    split; [apply Hq; discriminate|]. apply Hret. reflexivity.
  Qed.

Definition started : World :=
    mkWorld (set_Queue [mkSong "id" "title" "album" "artist" 180 "cover" 2001 "genre" 1 320 "flac"]
               (set_IsPlaying true (set_VoiceConn (Some 0%nat)
                  (set_LastChannelID "channel" (set_LastMsgID "message"
                     (NewPlayer "guild" 256))))))
            true [] false.

Definition stop_schedule : list (nat * bool) :=
    [(1, false); (1, false); (0, false); (1, false); (0, false); (0, false);
     (1, false); (1, false); (1, false); (1, false); (1, false);
     (0, false); (0, false); (0, false)]%nat.

Lemma Stop_alone_is_safe_witness :
    exists c,
      run stop_schedule (stopping started L_top) = Some c
      /\ T_Stop S_returned ∈ threads c
      /\ panicked (world c) = false
      /\ (T_Stop S_returned ∈ threads c ->
          T_Loop L_done ∈ threads c
          /\ stopChan (player (world c)) = true
          /\ done (player (world c)) = true
          /\ VoiceConn (player (world c)) = None
          /\ Queue (player (world c)) = []
          /\ IsPlaying (player (world c)) = false
          /\ NowPlaying (player (world c)) = None).
  Proof.
    eexists. split; [vm_compute; reflexivity|].
    split; [apply elem_of_cons; left; reflexivity|].
    apply (Stop_alone_is_safe started L_top stop_schedule);
      try reflexivity; try discriminate.
  Defined.

  (** X18: [Stop] called again after a call of [Stop] has returned
      changes nothing. The second call takes its five steps and
      returns: it finds the stop channel closed and does not close it
      again, finds [done] closed and does not wait, finds no voice
      connection and no message to edit; the player, the effects and
      the other goroutines are as they were, and nothing panics. *)
Theorem Stop_again_changes_nothing
      (w : World) (lpc : loop_pc) (sched : list (nat * bool)) (c : Config) :
    panicked w = false -> stopChan (player w) = false -> done (player w) = false ->
    lpc <> L_done ->
    run sched (stopping w lpc) = Some c ->
    T_Stop S_returned ∈ threads c ->
    run (replicate 5 (2%nat, false)) (mkConfig (world c) (threads c ++ [T_Stop S_lock]))
    = Some (mkConfig (world c) (threads c ++ [T_Stop S_returned])).
  Proof.
    intros Hp Hs Hd Hl Hrun Hin.
    destruct (run_lone sched _ _ (stopping_lone w lpc Hp Hs Hd Hl) Hrun)
      as (spc & lpc' & Hth & Hpan & Hst & Hdn & Hpw & Hq & Hvc & Hret & Hmsg).
    rewrite Hth in Hin |- *.
    apply elem_of_cons in Hin as [Heq|Hin];
      [|apply elem_of_cons in Hin as [Heq|Hin]; [discriminate Heq|inversion Hin]].
    injection Heq as <-.
    specialize (Hpw eq_refl). specialize (Hq ltac:(discriminate)).
    specialize (Hvc (or_intror eq_refl)). destruct (Hret eq_refl) as [Hip Hnp].
    specialize (Hmsg eq_refl). cbn in Hst.
    destruct (world c) as [p reg eff pan].
    destruct p as [g vc q np ip ipa v h lm lc st sk vch dn en sm].
    cbn in Hpan, Hst, Hpw, Hq, Hvc, Hip, Hnp, Hmsg. subst.
    cbn. unfold terminal_edit. cbn. rewrite Hmsg. reflexivity.
  Qed.

Lemma Stop_again_changes_nothing_witness :
    exists c,
      run stop_schedule (stopping started L_top) = Some c
      /\ run (replicate 5 (2%nat, false)) (mkConfig (world c) (threads c ++ [T_Stop S_lock]))
         = Some (mkConfig (world c) (threads c ++ [T_Stop S_returned])).
  Proof.
    eexists. split; [vm_compute; reflexivity|].
    apply (Stop_again_changes_nothing started L_top stop_schedule);
      try reflexivity; try discriminate.
    apply elem_of_cons. left. reflexivity.
  Defined.

  (** The steps the loop still takes once the stop channel is closed. *)
Definition loop_rank (pc : loop_pc) : nat :=
    match pc with
    | L_done => 0
    | L_exit => 1
    | L_top | L_empty_ui => 2
    | L_reset | L_empty_disconnect => 3
    | L_history _ | L_empty_state => 4
    | L_stream _ => 5
    | L_play _ => 6
    | L_dequeue => 7
    end.

  (** The steps that are enough for [Stop] to return. *)
Definition rank (spc : stop_pc) (lpc : loop_pc) : nat :=
    match spc with
    | S_lock => 13
    | S_select => 12
    | S_close => 11
    | S_wait => 3 + loop_rank lpc
    | S_disconnect => 2
    | S_reset => 1
    | S_returned => 0
    end.

  (** While the call has not returned, one of the two can move, the
      stream going on ([ends] is false): the call, or, while the call
      waits for [done], the loop, which the closed stop channel takes
      out of [streamSong]. *)
Lemma lone_progress (spc : stop_pc) (lpc : loop_pc) (w : World) :
    lone spc lpc w -> spc <> S_returned ->
    exists i spc' lpc' w',
      step i false (mkConfig w [T_Stop spc; T_Loop lpc])
      = Some (mkConfig w' [T_Stop spc'; T_Loop lpc'])
      /\ (rank spc' lpc' < rank spc lpc)%nat.
  Proof.
    destruct w as [p reg eff pan].
    destruct p as [g vc q np ip ipa v h lm lc st sk vch dn en sm].
    unfold lone. cbn. intros (Hpan & Hst & Hdn & Hpw & Hq & Hvc & Hret & Hmsg) Hnr.
    subst pan st dn. unfold step. cbn [world threads panicked].
    destruct spc; cbn [before_signal negb]; try contradiction.
    - exists 0%nat. eexists _, _, _. split; [reflexivity|cbn; lia].
    - exists 0%nat. eexists _, _, _. split; [reflexivity|cbn; lia].
    - exists 0%nat. eexists _, _, _. split; [reflexivity|].
      cbn. destruct lpc; cbn; lia.
    - rewrite (Hq ltac:(discriminate)).
      destruct lpc.
      all: try (exists 1%nat; eexists _, _, _; split; [reflexivity|cbn; lia]).
      exists 0%nat. eexists _, _, _. split; [reflexivity|cbn; lia].
    - exists 0%nat. eexists _, _, _. split; [reflexivity|cbn; lia].
    - exists 0%nat. eexists _, _, _. split; [reflexivity|cbn; lia].
  Qed.

Lemma lone_finishes (n : nat) :
    forall spc lpc w,
      lone spc lpc w -> (rank spc lpc <= n)%nat ->
      exists sched c,
        run sched (mkConfig w [T_Stop spc; T_Loop lpc]) = Some c
        /\ threads c = [T_Stop S_returned; T_Loop L_done]
        /\ (length sched <= n)%nat
        /\ Forall (fun x => x.2 = false) sched.
  Proof.
    assert (Hend : forall lpc w, lone S_returned lpc w ->
              exists sched c,
                run sched (mkConfig w [T_Stop S_returned; T_Loop lpc]) = Some c
                /\ threads c = [T_Stop S_returned; T_Loop L_done]
                /\ (length sched <= 0)%nat
                /\ Forall (fun x => x.2 = false) sched).
    { intros lpc w (_ & _ & Hdn & Hpw & _).
      specialize (Hpw eq_refl). rewrite Hpw in Hdn.
      destruct lpc; try discriminate Hdn.
      exists [], (mkConfig w [T_Stop S_returned; T_Loop L_done]).
      split; [reflexivity|]. split; [reflexivity|].
      split; [cbn; lia|constructor]. }
    induction n as [|n IH]; intros spc lpc w Hl Hr.
    - destruct spc; cbn in Hr; try lia. apply Hend. exact Hl.
    - assert (Hdec : spc = S_returned \/ spc <> S_returned)
        by (destruct spc; first [left; reflexivity|right; discriminate]).
      destruct Hdec as [->|Hnr].
      + destruct (Hend lpc w Hl) as (sched & c & Hrun & Hth & Hlen & Hno).
        exists sched, c. split; [exact Hrun|]. split; [exact Hth|].
        split; [lia|exact Hno].
      + destruct (lone_progress spc lpc w Hl Hnr) as (i & spc' & lpc' & w' & Hs & Hlt).
        assert (Hl' : lone spc' lpc' w').
        { assert (Hc : lone_config (mkConfig w [T_Stop spc; T_Loop lpc]))
            by (exists spc, lpc; split; [reflexivity|exact Hl]).
          destruct (step_lone i false _ _ Hc Hs) as (spc2 & lpc2 & Hth & Hl2).
          cbn in Hth. injection Hth as <- <-. exact Hl2. }
        destruct (IH spc' lpc' w' Hl' ltac:(lia)) as (sched & c & Hrun & Hth & Hlen & Hno).
        exists ((i, false) :: sched), c. cbn [run]. rewrite Hs. cbn.
        split; [exact Hrun|]. split; [exact Hth|].
        split; [lia|]. constructor; [reflexivity|exact Hno].
  Qed.

  (** X19: one call of [Stop] on a started player (nothing has
      panicked, the stop channel and [done] are open, the loop is not
      over) can always get to its end without the stream coming to its
      end: wherever the call and the loop stand after any schedule, at
      most 13 further steps, in none of which the encoder reports the
      end of the stream ([ends] is false in each), bring the call to
      its return and the loop to its end. It is the closed stop channel
      that takes the loop out of [streamSong]. *)
Theorem Stop_alone_can_return
      (w : World) (lpc : loop_pc) (sched : list (nat * bool)) (c : Config) :
    panicked w = false -> stopChan (player w) = false -> done (player w) = false ->
    lpc <> L_done ->
    run sched (stopping w lpc) = Some c ->
    exists sched' c',
      run sched' c = Some c'
      /\ threads c' = [T_Stop S_returned; T_Loop L_done]
      /\ (length sched' <= 13)%nat
      /\ Forall (fun x => x.2 = false) sched'.
  Proof.
    intros Hp Hs Hd Hl Hrun.
    destruct (run_lone sched _ _ (stopping_lone w lpc Hp Hs Hd Hl) Hrun)
      as (spc & lpc' & Hth & Hlone).
    destruct c as [w' ths]. cbn in Hth, Hlone. subst ths.
    apply (lone_finishes 13 spc lpc' w' Hlone).
    destruct spc; cbn; try lia. destruct lpc'; cbn; lia.
  Qed.

  (** The loop is in [streamSong] (three of its steps, then two of
      the call, which has emptied the queue and found the stop channel
      open) when the rest is left to run. *)
Lemma Stop_alone_can_return_witness :
    exists c,
      run [(1, false); (1, false); (1, false); (0, false); (0, false)]%nat
          (stopping started L_top) = Some c
      /\ (exists s, threads c = [T_Stop S_close; T_Loop (L_stream s)])
      /\ exists sched' c',
           run sched' c = Some c'
           /\ threads c' = [T_Stop S_returned; T_Loop L_done]
           /\ (length sched' <= 13)%nat
           /\ Forall (fun x => x.2 = false) sched'.
  Proof.
    eexists. split; [vm_compute; reflexivity|].
    split; [eexists; reflexivity|].
    apply (Stop_alone_can_return started L_top
             [(1, false); (1, false); (1, false); (0, false); (0, false)]%nat);
      try reflexivity; try discriminate.
  Defined.

Definition playing_song (p : Player) (song : Song) : Config :=
    mkConfig (mkWorld p true [] false) [T_Loop (L_stream song)].

Lemma PlayPrevious_snoc (p : Player) (hs : list Song) (prev : Song) :
    PlayPrevious (set_History (hs ++ [prev]) p)
    = set_skipChan true
        (set_Queue (prev :: match NowPlaying p with Some now => [now] | None => [] end
                      ++ Queue p)
           (set_History hs p)).
  Proof.
    unfold PlayPrevious. cbn [History set_History].
    rewrite last_snoc, length_app. cbn [length].
    replace (length hs + 1 - 1)%nat with (length hs) by lia.
    rewrite take_app_length.
    destruct p as [g vc q np ip ipa v h lm lc st sk vch dn en sm].
    cbn. destruct np; destruct sk; reflexivity.
  Qed.

Lemma loop_next_song (p : Player) (a b : Song) (q : list Song) :
    stopChan p = false -> skipChan p = true -> Queue p = a :: q ->
    (length (History p) < 50)%nat ->
    run (replicate 6 (0%nat, false)) (playing_song p b)
    = Some (playing_song
              (set_IsPlaying true (set_NowPlaying (Some a) (set_Queue q
                 (set_volumeChangeChan false (set_skipChan false
                    (set_History (History p ++ [b]) p)))))) a).
  Proof.
    destruct p as [g vc q0 np ip ipa v h lm lc st sk vch dn en sm].
    cbn [stopChan skipChan Queue History]. intros -> -> -> Hlen.
    assert (Hroom : ~ (50 < length (h ++ [b]))%nat)
      by (rewrite length_app; cbn [length]; lia).
    cbn.
    destruct (decide (50 < length (h ++ [b]))%nat) as [Hfull|_]; [contradiction|].
    reflexivity.
  Qed.

  (** X20: going back twice does not go back two songs. While [b]
      plays after [a], [PlayPrevious] makes the loop move on to [a];
      by then [b] is the newest entry of the history, so a second
      [PlayPrevious] brings [b] back, not the song played before [a],
      and leaves [b] in the queue a second time. *)
Theorem PlayPrevious_twice_returns (p : Player) (hs rest : list Song) (a b : Song) :
    stopChan p = false -> (length hs < 50)%nat ->
    let p0 := set_Queue rest (set_NowPlaying (Some b) (set_History (hs ++ [a]) p)) in
    exists p1,
      run (replicate 6 (0%nat, false)) (playing_song (PlayPrevious p0) b)
      = Some (playing_song p1 a)
      /\ NowPlaying p1 = Some a
      /\ History p1 = hs ++ [b]
      /\ Queue (PlayPrevious p1) = b :: a :: b :: rest
      /\ History (PlayPrevious p1) = hs
      /\ (dequeue (PlayPrevious p1)).1 = Some b.
  Proof.
    intros Hst Hlen. cbv zeta.
    replace (set_Queue rest (set_NowPlaying (Some b) (set_History (hs ++ [a]) p)))
      with (set_History (hs ++ [a]) (set_Queue rest (set_NowPlaying (Some b) p)))
      by (destruct p; reflexivity).
    rewrite PlayPrevious_snoc.
    eexists. split.
    - apply loop_next_song.
      + destruct p; exact Hst.
      + destruct p; reflexivity.
      + destruct p; reflexivity.
      + destruct p; exact Hlen.
    - split; [destruct p; reflexivity|].
      split; [destruct p; reflexivity|].
      match goal with
      | |- context [PlayPrevious ?q] =>
          replace q with (set_History (hs ++ [b])
                            (set_IsPlaying true (set_NowPlaying (Some a)
                               (set_Queue (b :: rest)
                                  (set_volumeChangeChan false (set_skipChan false p))))))
            by (destruct p; reflexivity)
      end.
      rewrite PlayPrevious_snoc.
      destruct p; repeat split.
  Qed.
Definition track (id : string) : Song :=
    mkSong id "title" "album" "artist" 180 "cover" 2001 "genre" 1 320 "flac".

Lemma PlayPrevious_twice_returns_witness :
    let p0 := set_Queue [track "c"] (set_NowPlaying (Some (track "b"))
                (set_History ([track "z"] ++ [track "a"]) (NewPlayer "guild" 256))) in
    exists p1,
      run (replicate 6 (0%nat, false)) (playing_song (PlayPrevious p0) (track "b"))
      = Some (playing_song p1 (track "a"))
      /\ NowPlaying p1 = Some (track "a")
      /\ History p1 = [track "z"] ++ [track "b"]
      /\ Queue (PlayPrevious p1) = track "b" :: track "a" :: track "b" :: [track "c"]
      /\ History (PlayPrevious p1) = [track "z"]
      /\ (dequeue (PlayPrevious p1)).1 = Some (track "b").
  Proof.
    apply (PlayPrevious_twice_returns (NewPlayer "guild" 256) [track "z"] [track "c"]
             (track "a") (track "b")).
    - reflexivity.
    - cbn. lia.
  Defined.



  (** The loop, with no other goroutine at the player. *)
Definition loop_alone (w : World) (pc : loop_pc) : Config := mkConfig w [T_Loop pc].

Lemma run_app (s1 s2 : list (nat * bool)) :
    forall c, run (s1 ++ s2) c = run s1 c ≫= run s2.
  Proof.
    induction s1 as [|[i e] s1 IH]; intros c; [reflexivity|].
    cbn [app run]. destruct (step i e c) as [c1|]; [apply IH|reflexivity].
  Qed.

Lemma loop_one_song (w : World) (s : Song) (q : list Song) :
    panicked w = false -> stopChan (player w) = false -> Queue (player w) = s :: q ->
    run (replicate 6 (0%nat, true)) (loop_alone w L_top)
    = Some (loop_alone
              (set_player
                 (song_finished s
                    (set_IsPlaying true (set_NowPlaying (Some s) (set_Queue q (player w)))))
                 w) L_top).
  Proof.
    destruct w as [p reg eff pan].
    destruct p as [g vc q0 np ip ipa v h lm lc st sk vch dn en sm].
    cbn [panicked player stopChan Queue]. intros -> -> ->.
    unfold loop_alone, song_finished. destruct sk; cbn;
      destruct (decide (50 < length (h ++ [s]))%nat); reflexivity.
  Qed.

Lemma loop_queue_empty (w : World) :
    panicked w = false -> stopChan (player w) = false -> done (player w) = false ->
    Queue (player w) = [] ->
    exists w',
      run (replicate 6 (0%nat, true)) (loop_alone w L_top) = Some (loop_alone w' L_done)
      /\ panicked w' = false
      /\ History (player w') = History (player w)
      /\ Queue (player w') = []
      /\ IsPlaying (player w') = false /\ NowPlaying (player w') = None
      /\ VoiceConn (player w') = None /\ done (player w') = true
      /\ effects w'
         = effects w
             ++ match VoiceConn (player w) with Some _ => [Disconnect] | None => [] end
             ++ (if negb (String.eqb (LastMsgID (player w)) "")
                    && negb (String.eqb (LastChannelID (player w)) "")
                 then [Edit msg_queue_ended] else []).
  Proof.
    destruct w as [p reg eff pan].
    destruct p as [g vc q0 np ip ipa v h lm lc st sk vch dn en sm].
    cbn [panicked player stopChan Queue done]. intros -> -> -> ->.
    unfold loop_alone.
    destruct vc as [c|]; destruct (negb (String.eqb lm "") && negb (String.eqb lc "")) eqn:Hid;
      (eexists; split;
       [cbn; unfold disconnect; cbn; unfold terminal_edit; cbn; rewrite Hid; cbn; reflexivity|]);
      cbn; repeat split; rewrite ?Hid, <- ?app_assoc, ?app_nil_r; reflexivity.
  Qed.

  (** The same six steps when [done] is closed already: the deferred
      [close(p.done)] panics. *)
Lemma loop_queue_empty_closed (w : World) :
    panicked w = false -> stopChan (player w) = false -> done (player w) = true ->
    Queue (player w) = [] ->
    exists w',
      run (replicate 6 (0%nat, true)) (loop_alone w L_top) = Some (loop_alone w' L_exit)
      /\ panicked w' = true
      /\ History (player w') = History (player w)
      /\ Queue (player w') = []
      /\ IsPlaying (player w') = false /\ NowPlaying (player w') = None
      /\ VoiceConn (player w') = None /\ done (player w') = true
      /\ effects w'
         = effects w
             ++ match VoiceConn (player w) with Some _ => [Disconnect] | None => [] end
             ++ (if negb (String.eqb (LastMsgID (player w)) "")
                    && negb (String.eqb (LastChannelID (player w)) "")
                 then [Edit msg_queue_ended] else []).
  Proof.
    destruct w as [p reg eff pan].
    destruct p as [g vc q0 np ip ipa v h lm lc st sk vch dn en sm].
    cbn [panicked player stopChan Queue done]. intros -> -> -> ->.
    unfold loop_alone.
    destruct vc as [c|]; destruct (negb (String.eqb lm "") && negb (String.eqb lc "")) eqn:Hid;
      (eexists; split;
       [cbn; unfold disconnect; cbn; unfold terminal_edit; cbn; rewrite Hid; cbn; reflexivity|]);
      cbn; repeat split; rewrite ?Hid, <- ?app_assoc, ?app_nil_r; reflexivity.
  Qed.

Lemma loop_plays_all (q : list Song) :
    forall w,
      panicked w = false -> stopChan (player w) = false ->
      Queue (player w) = q -> (length (History (player w)) <= 50)%nat ->
      exists p',
        run (replicate (6 * length q) (0%nat, true)) (loop_alone w L_top)
        = Some (loop_alone (set_player p' w) L_top)
        /\ Queue p' = [] /\ stopChan p' = false /\ done p' = done (player w)
        /\ History p'
           = drop (length (History (player w) ++ q) - 50) (History (player w) ++ q)
        /\ VoiceConn p' = VoiceConn (player w)
        /\ LastMsgID p' = LastMsgID (player w)
        /\ LastChannelID p' = LastChannelID (player w).
  Proof.
    induction q as [|s q IH]; intros w Hpan Hst Hq Hlen.
    - exists (player w). cbn [length Nat.mul replicate run].
      split; [destruct w; reflexivity|]. rewrite app_nil_r.
      replace (length (History (player w)) - 50)%nat with 0%nat by lia.
      repeat split; assumption.
    - replace (6 * length (s :: q))%nat with (6 + 6 * length q)%nat by (cbn [length]; lia).
      rewrite replicate_add, run_app, (loop_one_song w s q Hpan Hst Hq).
      cbn [mbind option_bind].
      set (p1 := song_finished s
                   (set_IsPlaying true (set_NowPlaying (Some s) (set_Queue q (player w))))).
      destruct (History_song_finished s
                  (set_IsPlaying true (set_NowPlaying (Some s) (set_Queue q (player w))))
                  ltac:(destruct w as [[] ? ? ?]; exact Hlen)) as [Hh1 Hl1].
      fold p1 in Hh1, Hl1.
      destruct (IH (set_player p1 w)) as (p' & Hrun & Hq' & Hst' & Hdn' & Hh' & Hvc & Hm & Hc).
      + destruct w; exact Hpan.
      + destruct w as [[] ? ? ?]; exact Hst.
      + destruct w as [[] ? ? ?]; reflexivity.
      + destruct w; exact Hl1.
      + exists p'. split; [rewrite Hrun; destruct w; reflexivity|].
        split; [exact Hq'|]. split; [exact Hst'|].
        replace (player (set_player p1 w)) with p1 in * by (destruct w; reflexivity).
        split; [rewrite Hdn'; unfold p1; destruct w as [[] ? ? ?]; reflexivity|].
        split.
        * rewrite Hh', Hh1.
          replace (History (set_IsPlaying true (set_NowPlaying (Some s)
                              (set_Queue q (player w)))))
            with (History (player w)) by (destruct w as [[] ? ? ?]; reflexivity).
          apply keep_50_step. exact Hlen.
        * rewrite Hvc, Hm, Hc. unfold p1. destruct w as [[] ? ? ?]. repeat split.
  Qed.

  (** X22: left alone, the loop plays the whole queue and then leaves.
      With nothing panicked and no stop signalled, a history of at most
      50 songs and every stream coming to its end, the loop takes six
      steps per song and six more from its top. After them the queue is empty, the history
      is the old one followed by the queue, cut to its last 50, nothing
      is recorded as playing, the voice connection, if there was one,
      has been left exactly once, and the last message, if one was
      recorded, has been edited exactly once, to say that the queue
      ended.
      How the loop leaves depends on its channel [done]. On a player
      whose [done] is still open, which is a player started for the
      first time, the loop closes it and is over, without a panic. On a
      player whose [done] is closed already, which is a player started
      again after its loop was over ([Start] does not make the channels
      anew), the deferred [close(p.done)] panics. *)
Theorem playLoop_plays_queue (w : World) :
    panicked w = false -> stopChan (player w) = false ->
    (length (History (player w)) <= 50)%nat ->
    exists w',
      run (replicate (6 * length (Queue (player w)) + 6) (0%nat, true))
          (loop_alone w L_top)
      = Some (loop_alone w' (if done (player w) then L_exit else L_done))
      /\ panicked w' = done (player w)
      /\ done (player w') = true
      /\ History (player w')
         = drop (length (History (player w) ++ Queue (player w)) - 50)
                (History (player w) ++ Queue (player w))
      /\ Queue (player w') = []
      /\ IsPlaying (player w') = false /\ NowPlaying (player w') = None
      /\ VoiceConn (player w') = None
      /\ effects w'
         = effects w
             ++ match VoiceConn (player w) with Some _ => [Disconnect] | None => [] end
             ++ (if negb (String.eqb (LastMsgID (player w)) "")
                    && negb (String.eqb (LastChannelID (player w)) "")
                 then [Edit msg_queue_ended] else []).
  Proof.
    intros Hpan Hst Hlen.
    destruct (loop_plays_all (Queue (player w)) w Hpan Hst eq_refl Hlen)
      as (p' & Hrun & Hq' & Hst' & Hdn' & Hh' & Hvc & Hm & Hc).
    rewrite replicate_add, run_app, Hrun. cbn [mbind option_bind].
    assert (Hp : player (set_player p' w) = p') by (destruct w; reflexivity).
    assert (He : effects (set_player p' w) = effects w) by (destruct w; reflexivity).
    destruct (done (player w)) eqn:Hdn.
    - destruct (loop_queue_empty_closed (set_player p' w))
        as (w' & Hrun' & Hpan' & Hh & Hq & Hip & Hnp & Hv & Hd & Heff).
      + destruct w; exact Hpan.
      + rewrite Hp. exact Hst'.
      + rewrite Hp. exact Hdn'.
      + rewrite Hp. exact Hq'.
      + exists w'. rewrite Hp, He in *. rewrite Hh', Hvc, Hm, Hc in *.
        split; [exact Hrun'|]. split; [exact Hpan'|]. split; [exact Hd|].
        split; [exact Hh|]. split; [exact Hq|]. split; [exact Hip|].
        split; [exact Hnp|]. split; [exact Hv|exact Heff].
    - destruct (loop_queue_empty (set_player p' w))
        as (w' & Hrun' & Hpan' & Hh & Hq & Hip & Hnp & Hv & Hd & Heff).
      + destruct w; exact Hpan.
      + rewrite Hp. exact Hst'.
      + rewrite Hp. exact Hdn'.
      + rewrite Hp. exact Hq'.
      + exists w'. rewrite Hp, He in *. rewrite Hh', Hvc, Hm, Hc in *.
        split; [exact Hrun'|]. split; [exact Hpan'|]. split; [exact Hd|].
        split; [exact Hh|]. split; [exact Hq|]. split; [exact Hip|].
        split; [exact Hnp|]. split; [exact Hv|exact Heff].
  Qed.

  (** The player of [started] after its loop was over, a song queued and
      [Start] called again: the stop channel is open, [done] is closed. *)
Definition started_again : World :=
    set_player (set_done true (player started)) started.

Lemma playLoop_plays_queue_witness :
    (exists w',
       run (replicate 12 (0%nat, true)) (loop_alone started L_top)
       = Some (loop_alone w' L_done)
       /\ panicked w' = false
       /\ done (player w') = true
       /\ History (player w') = Queue (player started)
       /\ Queue (player w') = []
       /\ IsPlaying (player w') = false /\ NowPlaying (player w') = None
       /\ VoiceConn (player w') = None
       /\ effects w' = [Disconnect; Edit msg_queue_ended])
    /\ (exists w',
          run (replicate 12 (0%nat, true)) (loop_alone started_again L_top)
          = Some (loop_alone w' L_exit)
          /\ panicked w' = true
          /\ done (player w') = true
          /\ History (player w') = Queue (player started)
          /\ Queue (player w') = []
          /\ IsPlaying (player w') = false /\ NowPlaying (player w') = None
          /\ VoiceConn (player w') = None
          /\ effects w' = [Disconnect; Edit msg_queue_ended]).
  Proof.
    split.
    - apply (playLoop_plays_queue started); try reflexivity. cbn. lia.
    - apply (playLoop_plays_queue started_again); try reflexivity. cbn. lia.
  Defined.

End ConcMore.

(** ** The volume command: percent to volume and back *)

Module VolumeCommandFacts.

  Import Player VolumeCommand.

  (** The levels the command's option admits. *)
Definition levels : list Z := Z.of_nat <$> seq 0 101.

Lemma levels_all (level : Z) : 0 <= level <= 100 -> level ∈ levels.
  Proof.
    intros Hl. unfold levels. apply list_elem_of_fmap.
    exists (Z.to_nat level). split; [lia|].
    apply elem_of_seq. lia.
  Qed.

Definition level_ok (level : Z) : bool :=
    (dcaVolume level =? level * 256 / 100)
    && (level - 1 <=? currentVol (dcaVolume level))
    && (currentVol (dcaVolume level) <=? level)
    && (currentVol (dcaVolume level) =? dcaVolume level * 100 / 256).

Lemma levels_ok : forallb level_ok levels = true.
  Proof. vm_compute. reflexivity. Qed.

  (** X23: for a level from 0 to 100, the volume command stores
      [level * 256 / 100], rounded down, which [SetVolume] leaves as it
      is; the percentage shown afterwards is that volume times 100 over
      256, rounded down: the level given or one below it, never
      more. *)
Theorem handleVolume_round_trip (level : Z) (p : Player) :
    0 <= level <= 100 ->
    Volume (SetVolume (dcaVolume level) p) = level * 256 / 100
    /\ currentVol (Volume (SetVolume (dcaVolume level) p))
       = (level * 256 / 100) * 100 / 256
    /\ level - 1 <= currentVol (Volume (SetVolume (dcaVolume level) p)) <= level.
  Proof.
    intros Hl.
    pose proof (proj1 (forallb_forall _ _) levels_ok level) as Hok.
    assert (Hin : In level levels) by (apply list_elem_of_In, levels_all; exact Hl).
    specialize (Hok Hin). unfold level_ok in Hok.
    apply andb_prop in Hok as [Hok H4]. apply andb_prop in Hok as [Hok H3].
    apply andb_prop in Hok as [H1 H2].
    apply Z.eqb_eq in H1, H4. apply Z.leb_le in H2, H3.
    assert (Hr : 0 <= level * 256 / 100 <= 256).
    { split; [apply Z.div_pos; lia|].
      apply Z.div_le_upper_bound; lia. }
    assert (Hv : Volume (SetVolume (dcaVolume level) p) = dcaVolume level).
    { unfold SetVolume. cbv zeta. rewrite H1.
      destruct (Z.ltb_spec (level * 256 / 100) 0); [lia|].
      destruct (Z.ltb_spec 256 (level * 256 / 100)); [lia|].
      destruct p as [g vc q np ip ipa v h lm lc st sk vch dn en sm].
      cbn. destruct vch; reflexivity. }
    rewrite Hv. split; [exact H1|]. split; [rewrite H4, H1; reflexivity|lia].
  Qed.

Lemma handleVolume_round_trip_witness :
    Volume (SetVolume (dcaVolume 29) (NewPlayer "guild" 256)) = 29 * 256 / 100
    /\ currentVol (Volume (SetVolume (dcaVolume 29) (NewPlayer "guild" 256)))
       = (29 * 256 / 100) * 100 / 256
    /\ 29 - 1 <= currentVol (Volume (SetVolume (dcaVolume 29) (NewPlayer "guild" 256))) <= 29.
  Proof.
    apply (handleVolume_round_trip 29 (NewPlayer "guild" 256)). lia.
  Defined.

End VolumeCommandFacts.

(** ** Wordle: the marks of a guess and the reward *)

Module WordleFacts.

  Import Wordle.

  (** X24: a win pays 500 at the first attempt and 100 less with each
      further one down to 100 at the fifth, and 50 at the sixth;
      nothing is paid for fewer than one or more than six attempts. So
      the reward is positive exactly from 1 to 6 attempts, never above
      500, and strictly smaller with every attempt more. *)
Theorem CalculateWordleReward_decreasing (a b : Z) :
    (1 <= a <= 6 <-> 0 < CalculateWordleReward a)
    /\ 0 <= CalculateWordleReward a <= 500
    /\ (1 <= a <= 6 -> 50 <= CalculateWordleReward a)
    /\ (1 <= a -> a < b -> b <= 6 -> CalculateWordleReward b < CalculateWordleReward a).
  Proof.
    unfold CalculateWordleReward.
    destruct (Z.ltb_spec a 1); destruct (Z.ltb_spec 6 a); destruct (Z.eqb_spec a 6);
      destruct (Z.ltb_spec b 1); destruct (Z.ltb_spec 6 b); destruct (Z.eqb_spec b 6);
      lia.
  Qed.

Lemma second_pass_length (guess : list rune) :
    forall greens freq, length (second_pass guess greens freq) = length guess.
  Proof.
    induction guess as [|c guess IH]; intros greens freq; [reflexivity|].
    cbn [second_pass].
    destruct greens as [|[|] greens]; cbn [length tail]; try (rewrite IH; reflexivity);
      destruct (freq !! c) as [[|n]|]; cbn [length]; rewrite IH; reflexivity.
  Qed.

  (** The marks before the padding are all green exactly when the
      guess is the target. *)
Lemma marks_all_green (guess : list rune) :
    forall target freq,
      length guess = length target ->
      (let '(greens, freq') := first_pass guess target freq in
       second_pass guess greens freq') = replicate (length guess) StatusGreen
      <-> guess = target.
  Proof.
    induction guess as [|g guess IH]; intros target freq Hlen.
    - destruct target; [|discriminate Hlen]. cbn. split; reflexivity.
    - destruct target as [|t target]; [discriminate Hlen|].
      injection Hlen as Hlen. cbn [first_pass].
      destruct (decide (g = t)) as [->|Hne].
      + specialize (IH target freq Hlen).
        destruct (first_pass guess target freq) as [greens freq'].
        cbn [second_pass length replicate]. split.
        * intros [= Heq]. f_equal. apply IH. exact Heq.
        * intros [= Heq]. f_equal. apply IH. exact Heq.
      + destruct (first_pass guess target _) as [greens freq'].
        cbn [second_pass length replicate tail]. split.
        * destruct (freq' !! g) as [[|n]|]; intros Hc; discriminate Hc.
        * intros [= Heq _]. contradiction.
  Qed.

  (** X25: [EvaluateGuess] returns (it does not panic) exactly when
      the target is no longer than the guess and the guess no longer
      than five; it then gives five marks. For a guess and a target of
      five letters each, all five marks are green exactly when the
      guess is the target, which is how the game decides a win. *)
Theorem EvaluateGuess_marks (guess target : list rune) :
    (is_Some (EvaluateGuess guess target)
     <-> (length target <= length guess <= 5)%nat)
    /\ (forall marks, EvaluateGuess guess target = Some marks -> length marks = 5%nat)
    /\ (length guess = 5%nat -> length target = 5%nat ->
        (EvaluateGuess guess target = Some (replicate 5 StatusGreen) <-> guess = target)).
  Proof.
    unfold EvaluateGuess. split; [|split].
    - case_decide as Hlen.
      + destruct (first_pass guess target ∅). split; [intros _; exact Hlen|eexists; reflexivity].
      + split; [intros [x Hx]; discriminate Hx|intros Hc; contradiction].
    - intros marks. case_decide as Hlen; [|discriminate].
      destruct (first_pass guess target ∅) as [greens freq].
      intros [= <-]. rewrite length_app, length_replicate, second_pass_length. lia.
    - intros Hg Ht. case_decide as Hlen; [|lia].
      pose proof (marks_all_green guess target ∅ ltac:(lia)) as Hall.
      destruct (first_pass guess target ∅) as [greens freq].
      rewrite Hg in Hall.
      pose proof (second_pass_length guess greens freq) as Hl. rewrite Hg in Hl.
      rewrite Hl. cbn [replicate Nat.sub]. rewrite app_nil_r.
      rewrite <- Hall. split; [intros [= ->]; reflexivity|intros ->; reflexivity].
  Qed.

  (** How often a letter occurs in a word, and how often a guess
      shows it coloured (green or yellow). *)
Fixpoint occurrences (c : rune) (word : list rune) : nat :=
    match word with
    | [] => 0
    | x :: word => (if decide (x = c) then 1 else 0) + occurrences c word
    end.

Fixpoint coloured (c : rune) (guess : list rune) (marks : list Status) : nat :=
    match guess, marks with
    | g :: guess, m :: marks =>
        (if decide (g = c /\ m <> StatusGray) then 1 else 0) + coloured c guess marks
    | _, _ => 0
    end.

  (** The places where the guess has the letter of the target. *)
Fixpoint greens_of (guess target : list rune) : list bool :=
    match target, guess with
    | t :: target, g :: guess => bool_decide (g = t) :: greens_of guess target
    | _, _ => []
    end.

  (** Of a letter: the places where both words have it, those where
      only the target has it, and those where only the guess has it. *)
Fixpoint both (c : rune) (guess target : list rune) : nat :=
    match guess, target with
    | g :: guess, t :: target =>
        (if decide (g = c /\ t = c) then 1 else 0) + both c guess target
    | _, _ => 0
    end.

Fixpoint target_only (c : rune) (guess target : list rune) : nat :=
    match guess, target with
    | g :: guess, t :: target =>
        (if decide (t = c /\ g <> c) then 1 else 0) + target_only c guess target
    | _, _ => 0
    end.

Fixpoint guess_only (c : rune) (guess target : list rune) : nat :=
    match guess with
    | [] => 0
    | g :: guess =>
        match target with
        | t :: target =>
            (if decide (g = c /\ t <> c) then 1 else 0) + guess_only c guess target
        | [] => (if decide (g = c) then 1 else 0) + guess_only c guess []
        end
    end.

Definition avail (freq : gmap Z nat) (c : rune) : nat := default 0%nat (freq !! c).

Lemma greens_of_nil (guess : list rune) : greens_of guess [] = [].
  Proof. destruct guess; reflexivity. Qed.

Lemma first_pass_greens (guess : list rune) :
    forall target freq, (first_pass guess target freq).1 = greens_of guess target.
  Proof.
    induction guess as [|g guess IH]; intros target freq.
    - destruct target; reflexivity.
    - destruct target as [|t target]; [reflexivity|].
      cbn [first_pass greens_of].
      destruct (decide (g = t)) as [Heq|Hne].
      + specialize (IH target freq).
        destruct (first_pass guess target freq) as [greens freq'].
        cbn [fst] in *. rewrite IH, bool_decide_eq_true_2 by exact Heq. reflexivity.
      + specialize (IH target (<[t:=S (default 0%nat (freq !! t))]> freq)).
        destruct (first_pass guess target _) as [greens freq'].
        cbn [fst] in *. rewrite IH, bool_decide_eq_false_2 by exact Hne. reflexivity.
  Qed.

Lemma first_pass_avail (c : rune) (guess : list rune) :
    forall target freq,
      avail (first_pass guess target freq).2 c
      = (avail freq c + target_only c guess target)%nat.
  Proof.
    induction guess as [|g guess IH]; intros target freq.
    - destruct target; cbn; lia.
    - destruct target as [|t target]; [cbn; lia|].
      cbn [first_pass target_only].
      destruct (decide (g = t)) as [Heq|Hne].
      + specialize (IH target freq).
        destruct (first_pass guess target freq) as [greens freq'].
        cbn [snd] in *. rewrite IH.
        case_decide as Hc; [destruct Hc; congruence|]. lia.
      + specialize (IH target (<[t:=S (default 0%nat (freq !! t))]> freq)).
        destruct (first_pass guess target _) as [greens freq'].
        cbn [snd] in *. rewrite IH. unfold avail.
        destruct (decide (t = c)) as [->|Htc].
        * rewrite lookup_insert_eq. cbn [from_option id].
          case_decide as Hc; [lia|]. exfalso. apply Hc. split; [reflexivity|congruence].
        * rewrite lookup_insert_ne by exact Htc.
          case_decide as Hc; [destruct Hc; contradiction|]. lia.
  Qed.

Lemma second_pass_coloured (c : rune) (guess : list rune) :
    forall target freq,
      coloured c guess (second_pass guess (greens_of guess target) freq)
      = (both c guess target
         + Nat.min (guess_only c guess target) (avail freq c))%nat.
  Proof.
    induction guess as [|g guess IH]; intros target freq; [reflexivity|].
    assert (Hstep : forall target' : list rune,
               (forall freq', coloured c guess
                                (second_pass guess (greens_of guess target') freq')
                              = (both c guess target'
                                 + Nat.min (guess_only c guess target') (avail freq' c))%nat) ->
               forall only : nat,
                 only = ((if decide (g = c) then 1 else 0)
                         + guess_only c guess target')%nat ->
                 coloured c (g :: guess)
                   (match freq !! g with
                    | Some (S count) =>
                        StatusYellow
                        :: second_pass guess (greens_of guess target') (<[g:=count]> freq)
                    | _ => StatusGray :: second_pass guess (greens_of guess target') freq
                    end)
                 = (both c guess target' + Nat.min only (avail freq c))%nat).
    { intros target' IH' only ->. unfold avail at 1.
      destruct (freq !! g) as [[|k]|] eqn:Hg; cbn [coloured].
      - rewrite IH'. case_decide as Hc; [destruct Hc; congruence|].
        destruct (decide (g = c)) as [->|Hgc]; [|reflexivity].
        unfold avail. rewrite Hg. cbn [from_option id]. lia.
      - rewrite IH'. unfold avail.
        destruct (decide (g = c)) as [->|Hgc].
        + rewrite lookup_insert_eq, Hg. cbn [from_option id].
          case_decide as Hc; [lia|]. exfalso. apply Hc. split; [reflexivity|discriminate].
        + rewrite lookup_insert_ne by exact Hgc.
          case_decide as Hc; [destruct Hc; contradiction|]. reflexivity.
      - rewrite IH'. case_decide as Hc; [destruct Hc; congruence|].
        destruct (decide (g = c)) as [->|Hgc]; [|reflexivity].
        unfold avail. rewrite Hg. cbn [from_option id]. lia. }
    destruct target as [|t target].
    - cbn [greens_of second_pass tail both guess_only].
      pose proof (Hstep [] (IH []) _ eq_refl) as Hs.
      rewrite greens_of_nil in Hs. rewrite Hs.
      destruct guess; reflexivity.
    - cbn [greens_of second_pass both guess_only].
      destruct (decide (g = t)) as [->|Hne].
      + rewrite bool_decide_eq_true_2 by reflexivity. cbn [coloured].
        rewrite IH.
        destruct (decide (t = c)) as [->|Htc].
        * case_decide as H1; [|exfalso; apply H1; split; [reflexivity|discriminate]].
          case_decide as H2; [|exfalso; apply H2; split; reflexivity].
          case_decide as H3; [destruct H3; contradiction|]. lia.
        * case_decide as H1; [destruct H1; contradiction|].
          case_decide as H2; [destruct H2; contradiction|].
          case_decide as H3; [destruct H3; contradiction|]. lia.
      + rewrite bool_decide_eq_false_2 by exact Hne. cbn [tail].
        rewrite (Hstep target (IH target)
                   ((if decide (g = c /\ t <> c) then 1 else 0)
                    + guess_only c guess target)%nat).
        * destruct (decide (g = c /\ t = c)) as [[Hg Ht]|_]; [congruence|]. lia.
        * f_equal. destruct (decide (g = c)) as [->|Hgc].
          -- case_decide as H1; [reflexivity|].
             exfalso. apply H1. split; [reflexivity|congruence].
          -- case_decide as H1; [destruct H1; contradiction|reflexivity].
  Qed.

Lemma occurrences_guess (c : rune) (guess : list rune) :
    forall target,
      occurrences c guess = (both c guess target + guess_only c guess target)%nat.
  Proof.
    induction guess as [|g guess IH]; intros target; [reflexivity|].
    destruct target as [|t target]; cbn [occurrences both guess_only].
    - rewrite (IH []). destruct guess; cbn; lia.
    - rewrite (IH target).
      destruct (decide (g = c)); destruct (decide (t = c));
        repeat case_decide; try lia;
        repeat match goal with H : _ /\ _ |- _ => destruct H end;
        try contradiction;
        exfalso; eauto.
  Qed.

Lemma occurrences_target (c : rune) (guess : list rune) :
    forall target,
      (length target <= length guess)%nat ->
      occurrences c target = (both c guess target + target_only c guess target)%nat.
  Proof.
    induction guess as [|g guess IH]; intros target Hlen.
    - destruct target; [reflexivity|cbn in Hlen; lia].
    - destruct target as [|t target]; [reflexivity|].
      cbn [occurrences both target_only]. cbn [length] in Hlen.
      rewrite (IH target) by lia.
      destruct (decide (g = c)); destruct (decide (t = c));
        repeat case_decide; try lia;
        repeat match goal with H : _ /\ _ |- _ => destruct H end;
        try contradiction;
        exfalso; eauto.
  Qed.

Lemma coloured_app (c : rune) (guess : list rune) :
    forall marks pad,
      length marks = length guess ->
      coloured c guess (marks ++ pad) = coloured c guess marks.
  Proof.
    induction guess as [|g guess IH]; intros marks pad Hlen.
    - destruct marks; [destruct pad; reflexivity|discriminate Hlen].
    - destruct marks as [|m marks]; [discriminate Hlen|].
      cbn [app coloured]. rewrite IH by (cbn in Hlen; lia). reflexivity.
  Qed.

  (** X26: the marks respect how often a letter occurs. Whenever
      [EvaluateGuess] returns, every letter is shown coloured (green or
      yellow) in the guess as many times as it occurs in the guess or
      in the target, whichever is less; and a place is green exactly
      when guess and target have the same letter there. *)
Theorem EvaluateGuess_counts (guess target : list rune) (marks : list Status) :
    EvaluateGuess guess target = Some marks ->
    (forall c, coloured c guess marks
               = Nat.min (occurrences c guess) (occurrences c target))
    /\ (forall i, marks !! i = Some StatusGreen
                  <-> exists x, guess !! i = Some x /\ target !! i = Some x).
  Proof.
    unfold EvaluateGuess. case_decide as Hlen; [|discriminate].
    pose proof (first_pass_greens guess target ∅) as Hg.
    pose proof (fun c => first_pass_avail c guess target ∅) as Ha.
    destruct (first_pass guess target ∅) as [greens freq].
    cbn [fst snd] in Hg, Ha. subst greens. intros [= <-]. split.
    - intros c.
      rewrite coloured_app by apply second_pass_length.
      rewrite second_pass_coloured, Ha.
      rewrite (occurrences_guess c guess target).
      rewrite (occurrences_target c guess target) by lia.
      unfold avail at 1. rewrite lookup_empty. cbn [from_option id].
      rewrite Nat.add_0_l. symmetry. apply Nat.add_min_distr_l.
    - intros i.
      assert (Hgreen : forall guess target freq i,
                 second_pass guess (greens_of guess target) freq !! i = Some StatusGreen
                 <-> exists x, guess !! i = Some x /\ target !! i = Some x).
      { clear. induction guess as [|g guess IH]; intros target freq i.
        - cbn. split; [intros Hc; discriminate Hc|intros (x & Hc & _); discriminate Hc].
        - assert (Hng : forall (target' : list rune) (l : list Status) (m : Status),
                     m <> StatusGreen ->
                     (forall j, l !! j = Some StatusGreen
                                <-> exists x, guess !! j = Some x /\ target' !! j = Some x) ->
                     forall t', (forall x, Some g = Some x -> t' = Some x -> False) ->
                     (m :: l) !! i = Some StatusGreen
                     <-> exists x, (g :: guess) !! i = Some x
                                   /\ (match i with O => t' | S j => target' !! j end) = Some x).
          { intros target' l m Hm Hl t' Ht'. destruct i as [|j]; cbn.
            - split; [intros [= Hc]; contradiction|].
              intros (x & Hx & Hy). exfalso. eapply Ht'; eassumption.
            - apply Hl. }
          destruct target as [|t target].
          + cbn [greens_of second_pass tail].
            assert (IH0 : forall freq' j,
                       second_pass guess [] freq' !! j = Some StatusGreen
                       <-> exists x, guess !! j = Some x /\ @nil rune !! j = Some x)
              by (intros freq' j; rewrite <- (greens_of_nil guess); apply IH).
            destruct (freq !! g) as [[|k]|].
            * rewrite (Hng [] _ StatusGray ltac:(discriminate) (IH0 freq) None
                         ltac:(intros; discriminate)).
              destruct i; reflexivity.
            * rewrite (Hng [] _ StatusYellow ltac:(discriminate) (IH0 _) None
                         ltac:(intros; discriminate)).
              destruct i; reflexivity.
            * rewrite (Hng [] _ StatusGray ltac:(discriminate) (IH0 freq) None
                         ltac:(intros; discriminate)).
              destruct i; reflexivity.
          + cbn [greens_of second_pass].
            destruct (decide (g = t)) as [->|Hne].
            * rewrite bool_decide_eq_true_2 by reflexivity.
              destruct i as [|j]; cbn.
              -- split; [intros _; exists t; split; reflexivity|reflexivity].
              -- apply IH.
            * rewrite bool_decide_eq_false_2 by exact Hne. cbn [tail].
              assert (Ht : forall x, Some g = Some x -> Some t = Some x -> False)
                by (intros x [= <-] [= Hc]; congruence).
              destruct (freq !! g) as [[|k]|].
              -- rewrite (Hng target _ StatusGray ltac:(discriminate) (IH target freq)
                           (Some t) Ht).
                 destruct i; reflexivity.
              -- rewrite (Hng target _ StatusYellow ltac:(discriminate) (IH target _)
                           (Some t) Ht).
                 destruct i; reflexivity.
              -- rewrite (Hng target _ StatusGray ltac:(discriminate) (IH target freq)
                           (Some t) Ht).
                 destruct i; reflexivity. }
      rewrite <- (Hgreen guess target freq i).
      pose proof (second_pass_length guess (greens_of guess target) freq) as Hl.
      destruct (decide (i < length guess)%nat) as [Hi|Hi].
      + rewrite lookup_app_l by lia. reflexivity.
      + rewrite lookup_app_r by lia.
        rewrite (lookup_ge_None_2 (second_pass _ _ _)) by lia.
        split; [|intros Hc; discriminate Hc].
        intros Hc. apply lookup_replicate in Hc as [Hc _]. discriminate Hc.
  Qed.

Lemma EvaluateGuess_counts_witness :
    let guess := [76; 69; 86; 69; 76] in
    let target := [69; 65; 71; 76; 69] in
    let marks := [StatusYellow; StatusYellow; StatusGray; StatusYellow; StatusGray] in
    (forall c, coloured c guess marks
               = Nat.min (occurrences c guess) (occurrences c target))
    /\ (forall i, marks !! i = Some StatusGreen
                  <-> exists x, guess !! i = Some x /\ target !! i = Some x).
  Proof.
    apply (EvaluateGuess_counts [76; 69; 86; 69; 76] [69; 65; 71; 76; 69]
             [StatusYellow; StatusYellow; StatusGray; StatusYellow; StatusGray]).
    vm_compute. reflexivity.
  Defined.

End WordleFacts.

(** ** The volume of the player, down to the samples *)

Module FactorFacts.

  Import F64 Volume VolumeSpec BytesFacts F64Facts MulFacts VolumeFacts VolumeMore.
  Import ScalerFactor Pump PumpFacts.

Lemma iter_pos_iter {A} (f : A -> A) (n : positive) :
    forall x, SpecFloat.iter_pos f n x = Pos.iter f x n.
  Proof.
    induction n as [n IH|n IH|]; intros x; cbn [SpecFloat.iter_pos Pos.iter].
    - rewrite !IH. rewrite <- !Pos.iter_swap. reflexivity.
    - rewrite !IH. reflexivity.
    - reflexivity.
  Qed.

  (** Shifting out the zeros that were shifted in is exact. *)
Lemma shr_iter_xO (q n : positive) :
    SpecFloat.iter_pos shr_1 n
      (Build_shr_record (Z.pos (Pos.iter xO q n)) false false)
    = Build_shr_record (Z.pos q) false false.
  Proof.
    rewrite iter_pos_iter.
    induction n as [|n IH] using Pos.peano_ind.
    - reflexivity.
    - rewrite Pos.iter_succ_r. rewrite Pos.iter_succ. cbn [shr_1 orb]. exact IH.
  Qed.

Lemma pos_iter_xO (q n : positive) :
    Z.pos (Pos.iter xO q n) = Z.pos q * 2 ^ Z.pos n.
  Proof.
    induction n as [|n IH] using Pos.peano_ind.
    - cbn. lia.
    - rewrite Pos.iter_succ, Pos2Z.inj_xO, IH, Pos2Z.inj_succ, Z.pow_succ_r by lia. lia.
  Qed.

  (** A product whose low bits are zero is rounded without loss. *)
Lemma binary_round_aux_shifted (s : bool) (q n : positive) (e : Z) :
    Z.pos (digits2_pos q) = 53 -> -1074 <= e + Z.pos n <= 971 ->
    binary_round_aux prec emax s (Z.pos (Pos.iter xO q n)) e loc_Exact
    = S754_finite s q (e + Z.pos n).
  Proof.
    intros Hd He.
    assert (Hsh : shr_fexp prec emax (Z.pos (Pos.iter xO q n)) e loc_Exact
                  = (Build_shr_record (Z.pos q) false false, e + Z.pos n)).
    { unfold shr_fexp, fexp, emin. change prec with 53. change emax with 1024.
      cbn [Zdigits2]. rewrite digits2_iter_xO, Pos2Z.inj_add, Hd.
      replace (Z.max (53 + Z.pos n + e - 53) (3 - 1024 - 53) - e) with (Z.pos n) by lia.
      cbn [shr shr_record_of_loc]. rewrite shr_iter_xO. reflexivity. }
    assert (Hsh2 : shr_fexp prec emax (Z.pos q) (e + Z.pos n) loc_Exact
                   = (Build_shr_record (Z.pos q) false false, e + Z.pos n)).
    { unfold shr_fexp, fexp, emin. change prec with 53. change emax with 1024.
      cbn [Zdigits2]. rewrite Hd.
      replace (Z.max (53 + (e + Z.pos n) - 53) (3 - 1024 - 53) - (e + Z.pos n))
        with 0 by lia.
      reflexivity. }
    unfold binary_round_aux. rewrite Hsh.
    cbn [shr_m loc_of_shr_record round_nearest_even]. rewrite Hsh2.
    cbn [shr_m]. change (emax - prec) with 971.
    destruct (Z.leb_spec (e + Z.pos n) 971); [reflexivity|lia].
  Qed.

Lemma digits2_pos_unique (p : positive) (d : Z) :
    2 ^ (d - 1) <= Z.pos p < 2 ^ d -> Z.pos (digits2_pos p) = d.
  Proof.
    intros [Hlo Hhi].
    pose proof (F64Facts.digits2_pos_bounds p) as [Hlo' Hhi'].
    set (d' := Z.pos (digits2_pos p)) in *.
    assert (Hd' : 0 < d') by (unfold d'; lia).
    assert (Hd : 0 < d).
    { destruct (Z.lt_ge_cases 0 d) as [H|H]; [exact H|].
      assert (2 ^ d <= 2 ^ 0) by (apply Z.pow_le_mono_r; lia).
      change (2 ^ 0) with 1 in *. lia. }
    destruct (Z.lt_trichotomy d' d) as [Hlt|[Heq|Hgt]]; [|exact Heq|].
    - assert (2 ^ d' <= 2 ^ (d - 1)) by (apply Z.pow_le_mono_r; lia). lia.
    - assert (2 ^ d <= 2 ^ (d' - 1)) by (apply Z.pow_le_mono_r; lia). lia.
  Qed.

Lemma digits2_pos_53 (m : positive) :
    Z.pos (digits2_pos m) = 53 -> 2 ^ 52 <= Z.pos m < 2 ^ 53.
  Proof.
    intros Hd. pose proof (F64Facts.digits2_pos_bounds m) as Hb.
    rewrite Hd in Hb. exact Hb.
  Qed.

  (** The float of a small positive integer: the integer itself,
      shifted to 53 digits. *)
Lemma binary_round_repr (s : bool) (p : positive) :
    Z.pos (digits2_pos p) <= 53 ->
    exists m e,
      binary_round prec emax s p 0 = S754_finite s m e
      /\ Z.pos (digits2_pos m) = 53 /\ e <= 0 /\ Z.pos m = Z.pos p * 2 ^ (- e).
  Proof.
    intros Hd. unfold binary_round, shl_align, fexp, emin.
    change prec with 53. change emax with 1024.
    replace (Z.max (Z.pos (digits2_pos p) + 0 - 53) (3 - 1024 - 53))
      with (Z.pos (digits2_pos p) - 53) by lia.
    destruct (Z.pos (digits2_pos p) - 53 - 0) as [|q|q] eqn:Hq; try lia.
    - exists p, 0. rewrite binary_round_aux_exact by lia.
      split; [reflexivity|]. split; [lia|]. split; [lia|]. cbn. lia.
    - exists (Pos.iter xO p q), (Z.pos (digits2_pos p) - 53).
      assert (Hd53 : Z.pos (digits2_pos (Pos.iter xO p q)) = 53)
        by (rewrite digits2_iter_xO; lia).
      rewrite binary_round_aux_exact by lia.
      split; [reflexivity|]. split; [exact Hd53|]. split; [lia|].
      rewrite pos_iter_xO. f_equal. f_equal. lia.
  Qed.

Lemma of_int16_repr (z : Z) :
    is_int16 z -> z <> 0 ->
    exists m e,
      Prim2SF (of_int16 z) = S754_finite (z <? 0) m e
      /\ 2 ^ 52 <= Z.pos m < 2 ^ 53 /\ e <= 0 /\ Z.pos m = Z.abs z * 2 ^ (- e).
  Proof.
    unfold is_int16, of_int16. intros Hz Hnz.
    assert (Hpos : forall p, Z.pos p <= 32768 ->
              exists m e,
                Prim2SF (of_uint63 (Uint63.of_Z (Z.pos p))) = S754_finite false m e
                /\ 2 ^ 52 <= Z.pos m < 2 ^ 53 /\ e <= 0
                /\ Z.pos m = Z.pos p * 2 ^ (- e)).
    { intros p Hp. rewrite of_uint63_spec, Uint63.of_Z_spec.
      rewrite Z.mod_small by (change Uint63.wB with 9223372036854775808; lia).
      unfold binary_normalize.
      destruct (binary_round_repr false p (digits2_pos_bounds_le p Hp))
        as (m & e & Hr & Hd & He & Hm).
      exists m, e. split; [exact Hr|]. split; [apply digits2_pos_53; exact Hd|].
      split; assumption. }
    destruct (Z.ltb_spec z 0) as [Hneg|Hnn].
    - destruct z as [|p|p]; try lia. change (- Z.neg p) with (Z.pos p).
      destruct (Hpos p ltac:(lia)) as (m & e & Hr & Hb & He & Hm).
      exists m, e. rewrite opp_spec, Hr. cbn [SFopp negb].
      split; [reflexivity|]. split; [exact Hb|]. split; [exact He|].
      rewrite Hm. reflexivity.
    - destruct z as [|p|p]; try lia.
      destruct (Hpos p ltac:(lia)) as (m & e & Hr & Hb & He & Hm).
      exists m, e. split; [exact Hr|]. split; [exact Hb|]. split; [exact He|].
      rewrite Hm. reflexivity.
  Qed.

Lemma pow2_le_inv (a b : Z) : 0 <= b -> 2 ^ a <= 2 ^ b -> a <= b.
  Proof. intros Hb H. apply (Z.pow_le_mono_r_iff 2); [lia|exact Hb|exact H]. Qed.

Lemma pow2_lt_inv (a b : Z) : 0 <= b -> 2 ^ a < 2 ^ b -> a < b.
  Proof. intros Hb H. apply (Z.pow_lt_mono_r_iff 2); [lia|exact Hb|exact H]. Qed.

  (** The product of an integer [a] and of [b/256], both held
      exactly, is exact; truncated, it is [a * b / 256]. *)
Lemma SFmul_exact (s1 s2 : bool) (mx my : positive) (ex ey a b : Z) :
    2 ^ 52 <= Z.pos mx < 2 ^ 53 -> 2 ^ 52 <= Z.pos my < 2 ^ 53 ->
    ex <= 0 -> ey <= -8 ->
    Z.pos mx = a * 2 ^ (- ex) -> Z.pos my = b * 2 ^ (- ey - 8) ->
    0 < a -> 0 < b -> a * b <= 2 ^ 23 ->
    SFtrunc (SFmul prec emax (S754_finite s1 mx ex) (S754_finite s2 my ey))
    = Some (if xorb s1 s2 then - (a * b / 256) else a * b / 256).
  Proof.
    intros Hbx Hby Hex Hey Hmx Hmy Ha Hb Hab.
    set (N := - ex - ey - 8).
    assert (Hpx : 0 < 2 ^ (- ex)) by (apply Z.pow_pos_nonneg; lia).
    assert (Hpy : 0 < 2 ^ (- ey - 8)) by (apply Z.pow_pos_nonneg; lia).
    assert (Hex52 : - ex < 53).
    { apply pow2_lt_inv; [lia|]. nia. }
    assert (Hey52 : - ey - 8 < 53).
    { apply pow2_lt_inv; [lia|]. nia. }
    assert (HN : 2 ^ (- ex) * 2 ^ (- ey - 8) = 2 ^ N)
      by (unfold N; rewrite <- Z.pow_add_r by lia; f_equal; lia).
    assert (HpN : 0 < 2 ^ N) by (apply Z.pow_pos_nonneg; unfold N; lia).
    assert (Hmm : Z.pos (mx * my) = (a * b) * 2 ^ N).
    { rewrite Pos2Z.inj_mul, Hmx, Hmy, <- HN. ring. }
    assert (Hlow : 2 ^ 104 <= Z.pos (mx * my)).
    { rewrite Pos2Z.inj_mul. change (2 ^ 104) with (2 ^ 52 * 2 ^ 52). nia. }
    assert (Hhigh : Z.pos (mx * my) < 2 ^ 106).
    { rewrite Pos2Z.inj_mul. change (2 ^ 106) with (2 ^ 53 * 2 ^ 53). nia. }
    assert (HN81 : 81 <= N).
    { assert (H : 2 ^ 104 <= 2 ^ (23 + N)).
      { rewrite Z.pow_add_r by (unfold N; lia). rewrite Hmm in Hlow. nia. }
      apply pow2_le_inv in H; [lia|unfold N; lia]. }
    pose proof (F64Facts.digits2_pos_bounds (mx * my)) as [Hdlo Hdhi].
    set (D := Z.pos (digits2_pos (mx * my))) in *.
    assert (HD : 105 <= D <= 106).
    { assert (0 < D) by (unfold D; lia). split.
      - assert (104 < D); [|lia]. apply pow2_lt_inv; lia.
      - assert (D - 1 < 106); [|lia]. apply pow2_lt_inv; lia. }
    set (n := D - 53).
    assert (Hn : 52 <= n <= 53) by (unfold n; lia).
    set (q := (a * b) * 2 ^ (N - n)).
    assert (Hpn : 0 < 2 ^ n) by (apply Z.pow_pos_nonneg; lia).
    assert (HpNn : 0 < 2 ^ (N - n)) by (apply Z.pow_pos_nonneg; lia).
    assert (Hq0 : 0 < q) by (unfold q; nia).
    assert (Hsplit : 2 ^ N = 2 ^ (N - n) * 2 ^ n)
      by (rewrite <- Z.pow_add_r by lia; f_equal; lia).
    assert (Hmq : Z.pos (mx * my) = q * 2 ^ n)
      by (rewrite Hmm, Hsplit; unfold q; ring).
    assert (Hq53 : 2 ^ 52 <= q < 2 ^ 53).
    { assert (H1 : 2 ^ (D - 1) = 2 ^ 52 * 2 ^ n)
        by (rewrite <- Z.pow_add_r by lia; f_equal; unfold n; lia).
      assert (H2 : 2 ^ D = 2 ^ 53 * 2 ^ n)
        by (rewrite <- Z.pow_add_r by lia; f_equal; unfold n; lia).
      rewrite H1 in Hdlo. rewrite H2 in Hdhi. rewrite Hmq in Hdlo, Hdhi.
      split; [apply (Z.mul_le_mono_pos_r _ _ (2 ^ n)); assumption
             |apply (Z.mul_lt_mono_pos_r (2 ^ n)); assumption]. }
    destruct q as [|qp|qp] eqn:Hqp; try lia.
    destruct n as [|np|np] eqn:Hnp; try lia.
    assert (Hiter : (mx * my)%positive = Pos.iter xO qp np).
    { apply Pos2Z.inj. rewrite pos_iter_xO. exact Hmq. }
    assert (Hdq : Z.pos (digits2_pos qp) = 53)
      by (apply digits2_pos_unique; exact Hq53).
    unfold SFmul. rewrite Hiter.
    rewrite binary_round_aux_shifted by (try exact Hdq; unfold N in *; lia).
    cbn [SFtrunc].
    destruct (Z.leb_spec 0 (ex + ey + Z.pos np)) as [Hc|_]; [unfold N in *; lia|].
    replace (- (ex + ey + Z.pos np)) with (8 + (N - Z.pos np)) by (unfold N; lia).
    rewrite Z.pow_add_r by lia.
    change (2 ^ 8) with 256.
    assert (Hdiv : Z.pos qp / (256 * 2 ^ (N - Z.pos np)) = a * b / 256).
    { rewrite <- Hqp. unfold q. apply Z.div_mul_cancel_r; lia. }
    rewrite Hdiv. reflexivity.
  Qed.

  (** The volumes from 1 to 256, checked one by one: the factor is
      [vol/256] held exactly, positive and finite, and the scaler
      passes bytes through at 256 only. *)
Definition factor_ok (vol : Z) : bool :=
    match Prim2SF (factor vol) with
    | S754_finite false m e =>
        (2 ^ 52 <=? Z.pos m) && (Z.pos m <? 2 ^ 53) && (e <=? -8)
        && (Z.pos m =? vol * 2 ^ (- e - 8))
    | _ => false
    end
    && PrimFloat.ltb 0%float (factor vol)
    && PrimFloat.ltb (factor vol) infinity
    && Bool.eqb (must_scale (factor vol)) (negb (vol =? 256)).

Lemma factor_table : forallb factor_ok (Z.of_nat <$> seq 1 256) = true.
  Proof. vm_compute. reflexivity. Qed.

Lemma factor_positive (vol : Z) :
    1 <= vol <= 256 ->
    (exists m e,
        Prim2SF (factor vol) = S754_finite false m e
        /\ 2 ^ 52 <= Z.pos m < 2 ^ 53 /\ e <= -8 /\ Z.pos m = vol * 2 ^ (- e - 8))
    /\ PrimFloat.ltb 0%float (factor vol) = true
    /\ PrimFloat.ltb (factor vol) infinity = true
    /\ must_scale (factor vol) = negb (vol =? 256).
  Proof.
    intros Hv.
    pose proof (proj1 (forallb_forall _ _) factor_table vol) as Hok.
    assert (Hin : In vol (Z.of_nat <$> seq 1 256)).
    { apply list_elem_of_In, list_elem_of_fmap. exists (Z.to_nat vol).
      split; [lia|]. apply elem_of_seq. lia. }
    specialize (Hok Hin). unfold factor_ok in Hok.
    apply andb_prop in Hok as [Hok H4]. apply andb_prop in Hok as [Hok H3].
    apply andb_prop in Hok as [H1 H2].
    split; [|split; [exact H2|split; [exact H3|apply Bool.eqb_prop; exact H4]]].
    destruct (Prim2SF (factor vol)) as [?|?| |sg m e]; try discriminate H1.
    destruct sg; [discriminate H1|].
    apply andb_prop in H1 as [H1 Hd]. apply andb_prop in H1 as [H1 Hc].
    apply andb_prop in H1 as [Ha Hb].
    exists m, e. split; [reflexivity|].
    apply Z.leb_le in Ha, Hc. apply Z.ltb_lt in Hb. apply Z.eqb_eq in Hd.
    split; [split; assumption|]. split; assumption.
  Qed.

Lemma factor_zero : factor 0 = 0%float.
  Proof. reflexivity. Qed.

Lemma factor_nonneg (vol : Z) :
    0 <= vol <= 256 -> finite_nonneg (factor vol) /\ Max0 (factor vol) = factor vol.
  Proof.
    intros Hv. destruct (Z.eq_dec vol 0) as [->|Hnz].
    - rewrite factor_zero. split; [apply finite_nonneg_zero|reflexivity].
    - destruct (factor_positive vol ltac:(lia)) as (_ & Hpos & Hfin & _).
      split.
      + split; [|exact Hfin].
        rewrite FloatAxioms.leb_spec. rewrite FloatAxioms.ltb_spec in Hpos.
        change (Prim2SF 0%float) with (S754_zero false) in *.
        destruct (Prim2SF (factor vol)) as [?|sg| |sg m e]; try discriminate Hpos.
        * destruct sg; [discriminate Hpos|reflexivity].
        * destruct sg; [discriminate Hpos|reflexivity].
      + unfold Max0. rewrite Hpos. destruct (negb _); reflexivity.
  Qed.

  (** At a volume from 0 to 256 a sample comes out as the sample
      times the volume over 256, truncated toward zero. *)
Lemma scaled_factor (vol z : Z) :
    0 <= vol <= 256 -> is_int16 z ->
    scaled (factor vol) z = Some (Z.quot (z * vol) 256).
  Proof.
    intros Hv Hz.
    destruct (Z.eq_dec vol 0) as [->|Hvnz].
    { rewrite factor_zero, scaled_zero by exact Hz.
      rewrite Z.mul_0_r. reflexivity. }
    destruct (factor_positive vol ltac:(lia))
      as ((my & ey & Hy & Hby & Hey & Hmy) & _).
    unfold scaled. rewrite mul_spec, Hy.
    destruct (Z.eq_dec z 0) as [->|Hznz].
    { change (Prim2SF (of_int16 0)) with (S754_zero false). reflexivity. }
    destruct (of_int16_repr z Hz Hznz) as (mx & ex & Hx & Hbx & Hex & Hmx).
    rewrite Hx. unfold is_int16 in Hz.
    assert (Hab : Z.abs z * vol <= 2 ^ 23)
      by (change (2 ^ 23) with (32768 * 256); nia).
    pose proof (SFmul_exact (z <? 0) false mx my ex ey (Z.abs z) vol
                  Hbx Hby Hex Hey Hmx Hmy ltac:(lia) ltac:(lia) Hab) as Ht.
    rewrite xorb_false_r in Ht. unfold SF64mul.
    assert (Hq : 0 <= Z.abs z * vol / 256 <= 32768).
    { split; [apply Z.div_pos; lia|].
      apply Z.div_le_upper_bound; [lia|]. change (2 ^ 23) with (256 * 32768) in Hab. lia. }
    assert (Hct : clamp_trunc (SFmul prec emax (S754_finite (z <? 0) mx ex)
                                 (S754_finite false my ey))
                  = clamp16 <$> Some (if z <? 0 then - (Z.abs z * vol / 256)
                                      else Z.abs z * vol / 256)).
    { rewrite <- Ht.
      destruct (SFmul prec emax _ _) as [?|?| |? ? ?]; try reflexivity.
      discriminate Ht. }
    rewrite Hct. cbn [fmap option_fmap option_map]. f_equal.
    destruct (Z.ltb_spec z 0) as [Hneg|Hpos].
    - rewrite Z.abs_neq by lia.
      assert (Hlt : (- z) * vol / 256 <= 32768).
      { rewrite Z.abs_neq in Hq by lia. lia. }
      rewrite clamp16_id by (unfold is_int16; pose proof (Z.div_pos ((- z) * vol) 256); lia).
      replace (z * vol) with (- ((- z) * vol)) by ring.
      rewrite Z.quot_opp_l by lia.
      rewrite Z.quot_div_nonneg by nia. reflexivity.
    - rewrite Z.abs_eq by lia.
      assert (Hlt : z * vol / 256 <= 32767).
      { apply Z.div_le_upper_bound; [lia|]. nia. }
      rewrite clamp16_id by (unfold is_int16; pose proof (Z.div_pos (z * vol) 256); nia).
      rewrite Z.quot_div_nonneg by nia. reflexivity.
  Qed.

Lemma samples_take_even (l : list byte) :
    samples (take (length l - length l mod 2) l) = samples l.
  Proof.
    induction l as [l IH] using (induction_ltof1 _ (@length byte)).
    destruct l as [|b0 [|b1 t]]; [reflexivity..|].
    cbn [length].
    replace (S (S (length t))) with (length t + 1 * 2)%nat by lia.
    rewrite Nat.Div0.mod_add.
    pose proof (Nat.Div0.mod_le (length t) 2).
    replace (length t + 1 * 2 - length t mod 2)%nat
      with (S (S (length t - length t mod 2))) by lia.
    cbn [take samples]. f_equal. apply IH. unfold ltof. cbn. lia.
  Qed.

Lemma Read_samples_at
      (u : float -> Z) {R : Type} `{Reader R}
      (v : PCMVolume R) (vol : Z)
      (p data : list byte) (err : option error) (r' : R) :
    0 <= vol <= 256 ->
    volume v = factor vol ->
    (length (held v) < length p)%nat ->
    rd_read (src v) (length p - length (held v)) = (data, err, r') ->
    samples (delivered (Read u v p))
    = map (fun z => Z.quot (z * vol) 256) (samples (held v ++ data)).
  Proof.
    intros Hv Hvol Hlen Hrd.
    destruct (factor_nonneg vol Hv) as [Hfin _].
    rewrite (Read_spec u v p data err r' Hlen Hrd).
    unfold delivered. cbn [fst snd]. rewrite Hvol.
    set (total := held v ++ data).
    rewrite take_app_length'
      by (rewrite processed_length, length_take; lia).
    rewrite <- (samples_take_even total).
    set (body := take _ total).
    unfold processed. destruct (must_scale (factor vol)) eqn:Hms.
    - pose proof (samples_scale_pairs_scaled u (factor vol) body Hfin) as Hs.
      pose proof (samples_range body) as Hr.
      revert Hs. generalize (samples (scale_pairs (scale_sample u (factor vol)) body)).
      induction Hr as [|z l Hz _ IH]; intros out Hout.
      + destruct out; [reflexivity|discriminate Hout].
      + destruct out as [|o out]; [discriminate Hout|].
        cbn [map fmap list_fmap] in Hout. injection Hout as Ho Hout.
        rewrite scaled_factor in Ho by assumption. injection Ho as ->.
        cbn [map]. f_equal. apply IH. exact Hout.
    - assert (vol = 256) as ->.
      { destruct (Z.eq_dec vol 0) as [->|Hnz].
        - rewrite factor_zero, must_scale_zero in Hms. discriminate Hms.
        - destruct (factor_positive vol ltac:(lia)) as (_ & _ & _ & Hm).
          rewrite Hms in Hm. destruct (Z.eqb_spec vol 256); [assumption|discriminate Hm]. }
      induction (samples body) as [|z l IH]; [reflexivity|].
      cbn [map]. rewrite Z.quot_mul by lia. f_equal. exact IH.
  Qed.

  (** X27: the whole path of the volume, from the player's setting to
      the samples. With the factor that [streamSong] computes from a
      volume between 0 and 256, a read delivers, for every sample of
      the byte held back and the bytes the source gave, that sample
      times the volume over 256, truncated toward zero: as it is at
      256, silence at 0, and never a value out of range or one that
      depends on how the platform converts what it cannot
      represent. *)
Theorem Read_at_volume
      (u : float -> Z) {R : Type} `{Reader R}
      (v : PCMVolume R) (vol : Z)
      (p data : list byte) (err : option error) (r' : R) :
    0 <= vol <= 256 ->
    (length (held v) < length p)%nat ->
    rd_read (src v) (length p - length (held v)) = (data, err, r') ->
    samples (delivered (Read u (SetVolume v (factor vol)) p))
    = map (fun z => Z.quot (z * vol) 256) (samples (held v ++ data)).
  Proof.
    intros Hv Hlen Hrd.
    apply (Read_samples_at u (SetVolume v (factor vol)) vol p data err r' Hv).
    - cbn [SetVolume volume]. apply factor_nonneg. exact Hv.
    - exact Hlen.
    - exact Hrd.
  Qed.

Lemma Read_at_volume_witness :
    samples (delivered (Read u_min (SetVolume (odd_scaler 1) (factor 64)) frame))
    = map (fun z => Z.quot (z * 64) 256)
          (samples (held (odd_scaler 1) ++ [Byte.x02; Byte.x03; Byte.x04])).
  Proof.
    apply (Read_at_volume u_min (odd_scaler 1) 64 frame
             [Byte.x02; Byte.x03; Byte.x04] None []).
    - lia.
    - cbn. lia.
    - reflexivity.
  Defined.

Lemma samples_app_even (a b : list byte) :
    Nat.even (length a) = true -> samples (a ++ b) = samples a ++ samples b.
  Proof.
    revert b. induction a as [a IH] using (induction_ltof1 _ (@length byte)).
    intros b Hev. destruct a as [|b0 [|b1 t]]; [reflexivity|discriminate Hev|].
    cbn [app samples]. f_equal. apply IH; [unfold ltof; cbn; lia|exact Hev].
  Qed.

Lemma samples_short (l : list byte) : (length l <= 1)%nat -> samples l = [].
  Proof. destruct l as [|b0 [|b1 t]]; cbn; intros; [reflexivity..|lia]. Qed.

Lemma samples_length (l : list byte) : length (samples l) = (length l / 2)%nat.
  Proof.
    induction l as [l IH] using (induction_ltof1 _ (@length byte)).
    destruct l as [|b0 [|b1 t]]; [reflexivity..|].
    cbn [samples length]. rewrite IH by (unfold ltof; cbn; lia).
    replace (S (S (length t))) with (length t + 1 * 2)%nat by lia.
    rewrite Nat.div_add by lia. lia.
  Qed.

  Section ScriptAtVolume.
    Variable u : float -> Z.
    Variable vol : Z.
    Hypothesis Hvol : 0 <= vol <= 256.

Definition at_volume (z : Z) : Z := Z.quot (z * vol) 256.

    (** What every run of the pump keeps at a factor set from the
        player's volume: the samples written, followed by the scaled
        samples of what is held and not yet read, are the same. *)
Lemma pump_samples_invariant (fuel : nat) :
      forall (writes : nat) (v : PCMVolume ScriptReader.t) (buf written : list byte),
        (2 <= length buf)%nat ->
        (length (leftover v) <= 1)%nat ->
        volume v = factor vol ->
        (fuel <= writes)%nat ->
        (work (src v) < fuel)%nat ->
        Nat.even (length written) = true ->
        exists out v',
          pump u fuel writes v buf written = Some (out, v')
          /\ samples out ++ map at_volume (samples (leftover v' ++ pending (src v')))
             = samples written ++ map at_volume (samples (leftover v ++ pending (src v)))
          /\ (length (leftover v') <= 1)%nat
          /\ Nat.even (length out) = true
          /\ (Forall (fun c => c.2 = None) (src v) -> src v' = []).
    Proof.
      induction fuel as [|fuel IH];
        intros writes v buf written Hbuf Hlo Hfac Hw Hfuel Hev; [lia|].
      pose proof (held_leftover v Hlo) as Hheld.
      assert (Hroom : (length (held v) < length buf)%nat) by (rewrite Hheld; lia).
      destruct (rd_read (src v) (length buf - length (held v))) as [[data err] r'] eqn:Hrd.
      pose proof (Read_shape u v buf data err r' Hroom Hrd) as (Hres & Hlo' & Hsrc & Hvl & Hlen).
      pose proof (Read_samples_at u v vol buf data err r' Hvol Hfac Hroom Hrd) as Hsam.
      pose proof (Read_spec u v buf data err r' Hroom Hrd) as Hspec.
      pose proof (script_read_pending _ _ _ _ _ Hrd) as Hpend.
      cbv zeta in Hres, Hlo', Hspec.
      cbn [pump]. unfold delivered in Hsam.
      assert (Hlv1 : leftover (Read u v buf).1.1
                     = drop (length (held v ++ data) - length (held v ++ data) mod 2)
                            (held v ++ data)).
      { rewrite Hspec. cbn [fst snd leftover].
        case_decide as Hm; [|reflexivity].
        rewrite Hm, Nat.sub_0_r, drop_all. reflexivity. }
      destruct (Read u v buf) as [[v1 buf1] [n err1]].
      cbn [fst snd] in *.
      pose proof (f_equal fst Hres) as Hn. pose proof (f_equal snd Hres) as Herr.
      cbn [fst snd] in Hn, Herr. clear Hres Hspec. subst err1.
      assert (Hlo1 : (length (leftover v1) <= 1)%nat)
        by (rewrite Hlo'; pose proof (Nat.mod_upper_bound
              (length (held v) + length data) 2); lia).
      assert (Hn_even : Nat.even n = true).
      { rewrite Hn, Nat.even_mul. reflexivity. }
      assert (Hnlen : length (take n buf1) = n).
      { rewrite length_take.
        pose proof (Nat.Div0.mul_div_le (length (held v) + length data) 2) as Hd.
        pose proof (rd_bound (src v) (length buf - length (held v))) as Hb.
        rewrite Hrd in Hb. cbn [fst] in Hb. lia. }
      set (total := held v ++ data) in *.
      assert (Hkeep : map at_volume (samples (leftover v ++ pending (src v)))
                      = samples (take n buf1)
                          ++ map at_volume (samples (leftover v1 ++ pending (src v1)))).
      { rewrite Hsam, Hsrc, Hlv1, <- Hheld, Hpend, app_assoc. fold total.
        set (ne := (length total - length total mod 2)%nat).
        assert (Ht : total ++ pending r' = take ne total ++ drop ne total ++ pending r')
          by (rewrite app_assoc, take_drop; reflexivity).
        rewrite Ht, samples_app_even, map_app.
        - unfold ne. rewrite samples_take_even. reflexivity.
        - rewrite length_take.
          replace (Nat.min ne (length total)) with ne by (unfold ne; lia).
          apply even_floor. }
      assert (Hdone : forall e, err = Some e ->
                Forall (fun c => c.2 = None) (src v) -> src v1 = []).
      { intros e -> Hs. rewrite Hsrc.
        apply (script_read_error _ _ _ _ _ Hs Hrd). }
      assert (Hstep : err = None -> (work (src v1) < fuel)%nat).
      { intros ->. rewrite Hsrc.
        pose proof (script_read_work (src v) r' (length buf - length (held v)) data
                      ltac:(lia) Hrd). lia. }
      assert (Hnoerr : Forall (fun c => c.2 = None) (src v) ->
                       Forall (fun c => c.2 = None) (src v1))
        by (intros Hs; rewrite Hsrc; eapply script_read_noerr; eassumption).
      assert (Hev' : Nat.even (length (written ++ take n buf1)) = true)
        by (rewrite length_app, Nat.even_add, Hev, Hnlen, Hn_even; reflexivity).
      assert (Hsw : samples (written ++ take n buf1)
                    = samples written ++ samples (take n buf1))
        by (apply samples_app_even; exact Hev).
      case_decide as Hpos.
      - destruct writes as [|writes]; [lia|].
        destruct err as [e|].
        + eexists _, _. split; [reflexivity|].
          split; [rewrite Hsw, Hkeep, <- app_assoc; reflexivity|].
          split; [exact Hlo1|]. split; [exact Hev'|]. apply (Hdone e eq_refl).
        + destruct (IH writes v1 buf1 (written ++ take n buf1))
            as (out & v' & Hp & Heq & Hl & He & Hs);
            [lia|exact Hlo1|congruence|lia|auto|exact Hev'|].
          exists out, v'. split; [exact Hp|].
          split; [rewrite Heq, Hsw, Hkeep, <- app_assoc; reflexivity|].
          split; [exact Hl|]. split; [exact He|]. auto.
      - assert (n = 0%nat) as Hn0 by lia.
        assert (Hnil : samples (take n buf1) = [])
          by (rewrite Hn0; reflexivity).
        rewrite Hnil in Hkeep. cbn [app] in Hkeep.
        destruct err as [e|].
        + eexists _, _. split; [reflexivity|].
          split; [rewrite Hkeep; reflexivity|].
          split; [exact Hlo1|]. split; [exact Hev|]. apply (Hdone e eq_refl).
        + destruct (IH writes v1 buf1 written)
            as (out & v' & Hp & Heq & Hl & He & Hs);
            [lia|exact Hlo1|congruence|lia|auto|exact Hev|].
          exists out, v'. split; [exact Hp|].
          split; [rewrite Heq, Hkeep; reflexivity|].
          split; [exact Hl|]. split; [exact He|]. auto.
    Qed.

  End ScriptAtVolume.

  (** X28: the pump, end to end. Over a finite source whose chunks
      carry no error, with the encoder reading on and the scaler set
      from a volume between 0 and 256, the pump stops by itself, and
      what it has written are the samples of the source, each times
      the volume over 256, truncated toward zero, in order: all of
      them, whatever the sizes of the reads. *)
Theorem pump_at_volume
      (u : float -> Z) (vol : Z) (source : ScriptReader.t)
      (buf : list byte) (writes : nat) :
    0 <= vol <= 256 ->
    Forall (fun c => c.2 = None) source ->
    (2 <= length buf)%nat ->
    (work source < writes)%nat ->
    exists out v',
      pump u (S (work source)) writes (SetVolume (NewPCMVolume source) (factor vol)) buf []
      = Some (out, v')
      /\ samples out = map (fun z => Z.quot (z * vol) 256) (samples (pending source))
      /\ length out = (2 * (length (pending source) / 2))%nat.
  Proof.
    intros Hvol Hs Hbuf Hw.
    destruct (pump_samples_invariant u vol Hvol (S (work source)) writes
                (SetVolume (NewPCMVolume source) (factor vol)) buf [])
      as (out & v' & Hp & Heq & Hl & He & Hend);
      [exact Hbuf|cbn; lia|cbn [SetVolume volume]; apply factor_nonneg; exact Hvol
      |lia|unfold SetVolume, NewPCMVolume; cbn [src]; lia|reflexivity|].
    exists out, v'. split; [exact Hp|].
    cbn [SetVolume NewPCMVolume leftover src app samples] in Heq, Hend.
    rewrite (Hend Hs) in Heq. unfold pending at 1 in Heq. cbn [map concat] in Heq.
    rewrite app_nil_r, (samples_short (leftover v') Hl) in Heq.
    cbn [map] in Heq. rewrite app_nil_r in Heq.
    split; [exact Heq|].
    pose proof (f_equal (@length Z) Heq) as Hlen.
    rewrite length_map, !samples_length in Hlen.
    pose proof (Nat.div_mod_eq (length out) 2) as Hd.
    assert (Hm : (length out mod 2 = 0)%nat).
    { destruct (mod2_cases (length out)) as [Hm|Hm]; [exact Hm|].
      rewrite Hd, Hm, Nat.even_add, Nat.even_mul in He. discriminate He. }
    lia.
  Qed.

Lemma pump_at_volume_witness :
    exists out v',
      pump u_min (S (work five_bytes)) 10
           (SetVolume (NewPCMVolume five_bytes) (factor 128)) (replicate 4 Byte.x00) []
      = Some (out, v')
      /\ samples out = map (fun z => Z.quot (z * 128) 256) (samples (pending five_bytes))
      /\ length out = (2 * (length (pending five_bytes) / 2))%nat.
  Proof.
    apply (pump_at_volume u_min 128 five_bytes (replicate 4 Byte.x00) 10).
    - lia.
    - repeat constructor.
    - cbn. lia.
    - cbn. lia.
  Defined.

End FactorFacts.
